(** * limittar: size prediction and admission control for GNU tar archives

    A shallow embedding of [limittar/__init__.py]: the two size estimators
    [determine_tar_file_size] and [determine_tar_archive_size], the
    [LimitTar] session ([size], [add_path], [add_paths], [stop] and the
    worker loop [run]), followed by the properties of the specification
    that concern them.

    Conventions of the embedding.
    - Python [int] is [Z].  A Python [float] is modelled by the rational it
      approximates ([Q]): true division of two ints is exact.  The program
      only ever takes the ceiling or the integer part of such a quotient,
      and for a numerator below 2^53 rounding the quotient to binary64
      changes neither; beyond that the embedding idealises the program.
      The part on binary64 division states the three quotients of the
      program as the interpreter rounds them; the agreement below 2^53 and
      the departure beyond are proved there.
    - Python [str] is [string] (characters U+0000 to U+00FF), [bytes] is
      [list byte].
    - A raised exception is the left summand of [result]; the methods of
      the session thread the object through a state-and-error monad that
      keeps the state reached when the exception was raised.
    - The operating system and the codec registry are parameters of the
      development: [os_stat] is [os.stat] on a snapshot of the file system,
      [str_encode] is [str.encode].  A concrete file system with symbolic
      links instantiates them for the scenarios.
    - The worker of the feeder, [run_step], appends every path it takes;
      the part on [tarfile.add] gives the loop of [run] with the outcomes
      the call can have, and [run_step] is that loop when every call
      writes its member. *)

From Stdlib Require Import ZArith QArith Qround List String Ascii Bool Lia.
From Stdlib.Strings Require Import Byte.
Import ListNotations.

Local Open Scope Z_scope.

(** ** Exceptions and results *)

Inductive exn : Type :=
  | SizeLimitReached               (* limittar.SizeLimitReached *)
  | Underrun                       (* limittar.Underrun *)
  | OSError (errno : Z)            (* FileNotFoundError, PermissionError, ... *)
  | ValueError                     (* os.stat: embedded null byte *)
  | UnicodeEncodeError
  | LookupError                    (* unknown encoding *)
  | ZeroDivisionError
  | UnboundLocalError.

Definition result (A : Type) : Type := (exn + A)%type.

Definition ret {A} (a : A) : result A := inr a.
Definition raise {A} (e : exn) : result A := inl e.
Definition bind {A B} (r : result A) (k : A -> result B) : result B :=
  match r with
  | inl e => inl e
  | inr a => k a
  end.

Declare Scope result_scope.
Delimit Scope result_scope with result.
Notation "x <- r ;; k" := (bind r (fun x => k))
  (at level 100, r at next level, right associativity) : result_scope.

Definition exn_eqb (a b : exn) : bool :=
  match a, b with
  | SizeLimitReached, SizeLimitReached => true
  | Underrun, Underrun => true
  | OSError m, OSError n => m =? n
  | ValueError, ValueError => true
  | UnicodeEncodeError, UnicodeEncodeError => true
  | LookupError, LookupError => true
  | ZeroDivisionError, ZeroDivisionError => true
  | UnboundLocalError, UnboundLocalError => true
  | _, _ => false
  end.

(** [except OSError]: the classes the handler catches. *)
Definition is_OSError (e : exn) : bool :=
  match e with OSError _ => true | _ => false end.

(** [except SizeLimitReached]. *)
Definition is_SizeLimitReached (e : exn) : bool :=
  match e with SizeLimitReached => true | _ => false end.

(** ** Python arithmetic *)

(** [a / b] on ints: a float, or [ZeroDivisionError]. *)
Definition truediv (a b : Z) : result Q :=
  if b =? 0 then raise ZeroDivisionError
  else ret (inject_Z a / inject_Z b)%Q.

(** [math.ceil(x)]: the least int not below [x]. *)
Definition math_ceil (x : Q) : Z := Qceiling x.

(** [int(x)] on a float: truncation towards zero. *)
Definition int_of_float (x : Q) : Z := Z.quot (Qnum x) (Zpos (Qden x)).

(** ** Paths, codecs and the file system, as the program sees them *)

Definition bytes : Type := list byte.

(** The argument of [determine_tar_file_size]: "The path may be of type str
    which is encoded as UTF-8 or of type bytes". *)
Inductive pathlike : Type :=
  | PStr (s : string)
  | PBytes (b : bytes).

(** [len(path)]. *)
Definition len (p : pathlike) : Z :=
  match p with
  | PStr s => Z.of_nat (String.length s)
  | PBytes b => Z.of_nat (List.length b)
  end.

(** The file type bits of [st_mode]. *)
Inductive file_type : Type :=
  | S_IFREG | S_IFDIR | S_IFLNK | S_IFCHR | S_IFBLK | S_IFIFO | S_IFSOCK.

Definition S_ISREG (t : file_type) : bool :=
  match t with S_IFREG => true | _ => false end.

Record stat_result : Type := mkStat { st_mode : file_type; st_size : Z }.

(** What [os.stat] raises. *)
Inductive stat_error : Type :=
  | StatOSError (errno : Z)
  | StatValueError.

Definition exn_of_stat_error (e : stat_error) : exn :=
  match e with
  | StatOSError n => OSError n
  | StatValueError => ValueError
  end.

(** What [str.encode] raises. *)
Inductive codec_error : Type :=
  | CodecUnicodeEncodeError
  | CodecLookupError.

Definition exn_of_codec_error (e : codec_error) : exn :=
  match e with
  | CodecUnicodeEncodeError => UnicodeEncodeError
  | CodecLookupError => LookupError
  end.

Definition ENOENT : Z := 2.
Definition ELOOP : Z := 40.

Section Estimator.

(** [str_encode encoding s] is [s.encode(encoding)]. *)
Variable str_encode : string -> string -> codec_error + bytes.
(** [os_stat path] is [os.stat(path)]; it follows symbolic links. *)
Variable os_stat : pathlike -> stat_error + stat_result.

(** [os.path.getsize(path)] is [os.stat(path).st_size]. *)
Definition os_path_getsize (path : pathlike) : result Z :=
  match os_stat path with
  | inl e => raise (exn_of_stat_error e)
  | inr st => ret (st_size st)
  end.

(** [os.path.isfile(path)]: [False] when the stat fails. *)
Definition os_path_isfile (path : pathlike) : bool :=
  match os_stat path with
  | inl _ => false
  | inr st => S_ISREG (st_mode st)
  end.

(** Lines 61-64: [try: path = path.encode() except: pass].  A [bytes]
    object has no [encode]; the bare [except] swallows that and any
    encoding error, and [path] stays what it was. *)
Definition try_encode (path : pathlike) : pathlike :=
  match path with
  | PStr s =>
      match str_encode "utf-8" s with
      | inr b => PBytes b
      | inl _ => path
      end
  | PBytes _ => path
  end.

(** Lines 48-79. *)
Definition determine_tar_file_size (path : pathlike) : result Z :=
  (let size := 512 in
   let path := try_encode path in
   let path_size := len path in
   size <- (if path_size >? 100
            then (q <- truediv path_size 512 ;;
                  ret (size + (512 + 512 * math_ceil q)))
            else ret size) ;;
   file_size <- os_path_getsize path ;;
   size <- (if os_path_isfile path
            then (q <- truediv (math_ceil (inject_Z file_size)) 512 ;;
                  ret (size + 512 * int_of_float q))
            else ret size) ;;
   ret size)%result.

End Estimator.

(** Lines 81-93; [bufsize] defaults to [20*512] at the call sites that omit
    it. *)
Definition determine_tar_archive_size (tar_data_size bufsize : Z) : result Z :=
  (q <- truediv (tar_data_size + 512 * 2) bufsize ;;
   ret (bufsize * math_ceil q))%result.

Definition default_bufsize : Z := 20 * 512.

(** ** A concrete codec and a concrete file system

    They instantiate [str_encode] and [os_stat] in the scenarios.  The
    theorems about the program do not depend on them. *)

(** UTF-8 of one character below U+0100: one byte below U+0080, two from
    there on. *)
Definition utf8_of_char (c : ascii) : bytes :=
  let n := N_of_ascii c in
  if (n <? 128)%N then [byte_of_ascii c]
  else [byte_of_ascii (ascii_of_N (N.lor 192 (N.shiftr n 6)));
        byte_of_ascii (ascii_of_N (N.lor 128 (N.land n 63)))].

Fixpoint utf8_encode (s : string) : bytes :=
  match s with
  | EmptyString => []
  | String c s' => utf8_of_char c ++ utf8_encode s'
  end.

Fixpoint is_ascii (s : string) : bool :=
  match s with
  | EmptyString => true
  | String c s' => (N_of_ascii c <? 128)%N && is_ascii s'
  end.

(** [s.encode(encoding)] for the codec names used here. *)
Definition py_encode (encoding s : string) : codec_error + bytes :=
  if String.eqb encoding "utf-8" then inr (utf8_encode s)
  else if String.eqb encoding "latin-1" then inr (list_byte_of_string s)
  else if String.eqb encoding "ascii" then
    if is_ascii s then inr (list_byte_of_string s)
    else inl CodecUnicodeEncodeError
  else inl CodecLookupError.

Fixpoint bytes_eqb (a b : bytes) : bool :=
  match a, b with
  | [], [] => true
  | x :: a', y :: b' => Byte.eqb x y && bytes_eqb a' b'
  | _, _ => false
  end.

(** A directory entry is a node with its own stat record or a symbolic
    link to another name. *)
Inductive inode : Type :=
  | Node (st : stat_result)
  | Link (target : bytes).

Definition filesystem : Type := list (bytes * inode).

Fixpoint fs_lookup (fs : filesystem) (name : bytes) : option inode :=
  match fs with
  | [] => None
  | (n, i) :: fs' => if bytes_eqb n name then Some i else fs_lookup fs' name
  end.

(** [stat(2)]: symbolic links are followed, at most [fuel] of them. *)
Fixpoint fs_follow (fuel : nat) (fs : filesystem) (name : bytes)
  : stat_error + stat_result :=
  match fs_lookup fs name with
  | None => inl (StatOSError ENOENT)
  | Some (Node st) => inr st
  | Some (Link target) =>
      match fuel with
      | O => inl (StatOSError ELOOP)
      | S fuel' => fs_follow fuel' fs target
      end
  end.

(** [lstat(2)]: the entry itself. *)
Definition fs_lstat (fs : filesystem) (name : bytes)
  : stat_error + stat_result :=
  match fs_lookup fs name with
  | None => inl (StatOSError ENOENT)
  | Some (Node st) => inr st
  | Some (Link target) =>
      inr (mkStat S_IFLNK (Z.of_nat (List.length target)))
  end.

Definition MAXSYMLINKS : nat := 40.

Definition has_nul (name : bytes) : bool :=
  existsb (fun b => Byte.eqb b x00) name.

Definition fs_stat_bytes (fs : filesystem) (name : bytes)
  : stat_error + stat_result :=
  if has_nul name then inl StatValueError
  else match name with
       | [] => inl (StatOSError ENOENT)
       | _ => fs_follow MAXSYMLINKS fs name
       end.

(** [os.stat] over [fs]; a [str] goes through [os.fsencode]. *)
Definition fs_stat (fs : filesystem) (path : pathlike)
  : stat_error + stat_result :=
  match path with
  | PBytes b => fs_stat_bytes fs b
  | PStr s => fs_stat_bytes fs (utf8_encode s)
  end.

(** ** The session: class [LimitTar] *)

Record LimitTar : Type := mkLimitTar {
  _size_limit : option Z;               (* None, or an int *)
  _bufsize : Z;
  _encoding : string;
  _tar : list string;                   (* members written, oldest first *)
  _path_queue : list (option string);   (* queue.Queue; the head is next *)
  _data_size : Z;
  is_alive : bool                       (* the worker thread is running *)
}.

Definition set_path_queue (q : list (option string)) (self : LimitTar) :=
  mkLimitTar (_size_limit self) (_bufsize self) (_encoding self) (_tar self)
             q (_data_size self) (is_alive self).

Definition set_data_size (n : Z) (self : LimitTar) :=
  mkLimitTar (_size_limit self) (_bufsize self) (_encoding self) (_tar self)
             (_path_queue self) n (is_alive self).

Definition set_tar (t : list string) (self : LimitTar) :=
  mkLimitTar (_size_limit self) (_bufsize self) (_encoding self) t
             (_path_queue self) (_data_size self) (is_alive self).

Definition set_is_alive (b : bool) (self : LimitTar) :=
  mkLimitTar (_size_limit self) (_bufsize self) (_encoding self) (_tar self)
             (_path_queue self) (_data_size self) b.

Definition set_size_limit (l : option Z) (self : LimitTar) :=
  mkLimitTar l (_bufsize self) (_encoding self) (_tar self)
             (_path_queue self) (_data_size self) (is_alive self).

(** Lines 103-113.  [bufsize] and [encoding] are the keyword arguments,
    [None] when absent; [tarfile.ENCODING] is taken to be UTF-8. *)
Definition tarfile_ENCODING : string := "utf-8".

Definition init (size_limit : option Z) (bufsize : option Z)
                (encoding : option string) : LimitTar :=
  mkLimitTar size_limit
             (match bufsize with Some b => b | None => 20 * 512 end)
             (match encoding with Some e => e | None => tarfile_ENCODING end)
             [] [] 0 false.

(** Truth value of a path ([if not path]) and of the size limit
    ([self._size_limit and ...]). *)
Definition str_truthy (s : string) : bool :=
  match s with EmptyString => false | _ => true end.

Definition item_truthy (p : option string) : bool :=
  match p with None => false | Some s => str_truthy s end.

Definition limit_truthy (l : option Z) : bool :=
  match l with None => false | Some n => negb (n =? 0) end.

(** Lines 115-117. *)
Definition size (self : LimitTar) : result Z :=
  determine_tar_archive_size (_data_size self) (_bufsize self).

(** [Thread.start]. *)
Definition start (self : LimitTar) : LimitTar := set_is_alive true self.

(** One turn of the loop of [run], lines 119-124: [get] blocks on an empty
    queue, a falsy item ends the thread, any other is added to the
    archive. *)
Definition run_step (self : LimitTar) : LimitTar :=
  if is_alive self then
    match _path_queue self with
    | [] => self
    | item :: q =>
        match item with
        | Some path =>
            if str_truthy path
            then set_tar (_tar self ++ [path]) (set_path_queue q self)
            else set_is_alive false (set_path_queue q self)
        | None => set_is_alive false (set_path_queue q self)
        end
    end
  else self.

Fixpoint run_steps (n : nat) (self : LimitTar) : LimitTar :=
  match n with
  | O => self
  | S n' => run_steps n' (run_step self)
  end.

(** Lines 201-203. *)
Definition stop (self : LimitTar) : LimitTar :=
  set_path_queue (_path_queue self ++ [None]) self.

(** The methods read and update the session: computations over [LimitTar]
    that may raise.  The state returned with an exception is the one the
    method had reached when it raised. *)
Definition M (A : Type) : Type := LimitTar -> result A * LimitTar.

Definition mraise {A} (e : exn) : M A := fun self => (inl e, self).
Definition mbind {A B} (m : M A) (k : A -> M B) : M B :=
  fun self =>
    match m self with
    | (inl e, self') => (inl e, self')
    | (inr a, self') => k a self'
    end.
Definition lift {A} (r : result A) : M A := fun self => (r, self).
Definition attr {A} (f : LimitTar -> A) : M A := fun self => (inr (f self), self).
Definition modify (f : LimitTar -> LimitTar) : M unit :=
  fun self => (inr tt, f self).

Declare Scope method_scope.
Delimit Scope method_scope with method.
Notation "x <- m ;; k" := (mbind m (fun x => k))
  (at level 100, m at next level, right associativity) : method_scope.
Notation "m ;;; k" := (mbind m (fun _ => k))
  (at level 100, right associativity) : method_scope.

(** [self._size_limit and archive_size > self._size_limit]: [None] and [0]
    are falsy and end the conjunction. *)
Definition limit_exceeded (size_limit : option Z) (archive_size : Z) : bool :=
  match size_limit with
  | None => false
  | Some l => limit_truthy size_limit && (archive_size >? l)
  end.

Section Session.

Variable str_encode : string -> string -> codec_error + bytes.
Variable os_stat : pathlike -> stat_error + stat_result.

(** [path.encode(self._encoding)]. *)
Definition encode_path (encoding path : string) : result bytes :=
  match str_encode encoding path with
  | inl e => raise (exn_of_codec_error e)
  | inr b => ret b
  end.

(** Lines 126-148. *)
Definition add_path (path : string) : M unit :=
  (encoding <- attr _encoding ;;
   encoded <- lift (encode_path encoding path) ;;
   tar_file_size <-
     lift (determine_tar_file_size str_encode os_stat (PBytes encoded)) ;;
   data_size <- attr _data_size ;;
   let predicted_size := data_size + tar_file_size in
   bufsize <- attr _bufsize ;;
   archive_size <- lift (determine_tar_archive_size predicted_size bufsize) ;;
   size_limit <- attr _size_limit ;;
   if limit_exceeded size_limit archive_size
   then mraise SizeLimitReached
   else
     (modify (fun self =>
                set_path_queue (_path_queue self ++ [Some path]) self) ;;;
      data_size <- attr _data_size ;;
      modify (set_data_size (data_size + tar_file_size))))%method.

(** ** The batch feeder: generator [add_paths], lines 150-199 *)

Variable halt_on_size_limit_reached : bool.
Variable halt_on_underrun : bool.
Variable halt_on_os_error : bool.

(** The worker thread runs beside the generator.  [schedule i] is the
    number of turns of its loop that complete between the previous
    iteration of the [for] loop and iteration [i]; this fixes what
    [self._path_queue.empty()] sees.  The worker takes from the head of the
    queue and never reads [_data_size], [add_path] appends to the tail and
    never reads the queue, so a turn taken during a call of [add_path] has
    the effect of one taken right after it. *)
Variable schedule : nat -> nat.

(** The local variables [halt] and [exception]; [exception] is unbound
    until its first assignment. *)
Record locals : Type := mkLocals { halt : bool; exception : option exn }.

(** What one iteration of the [for] loop did, by the branch it took. *)
Inductive event : Type :=
  | Skipped                  (* line 179: falsy path, [continue] *)
  | Added                    (* line 187 returned; line 198 [continue] *)
  | Rejected (e : exn)       (* line 187 raised [e], caught; line 199 yields *)
  | Remaining (e : exn)      (* [halt] was set; line 199 yields, line 187 not run *)
  | Uncaught (e : exn).      (* the generator raises [e] *)

(** Line 187 ran in this iteration. *)
Definition attempted (ev : event) : bool :=
  match ev with
  | Added | Rejected _ => true
  | Uncaught e => negb (exn_eqb e UnboundLocalError)
  | Skipped | Remaining _ => false
  end.

(** The pair the iteration yielded, if any. *)
Definition yielded (pe : string * event) : option (string * exn) :=
  match snd pe with
  | Rejected e | Remaining e => Some (fst pe, e)
  | _ => None
  end.

Definition queue_empty (self : LimitTar) : bool :=
  match _path_queue self with [] => true | _ => false end.

(** Lines 181-185. *)
Definition underrun_check (i : nat) (l : locals) (self : LimitTar) : locals :=
  if (10 <? i)%nat && halt_on_underrun && queue_empty self
  then mkLocals true (Some Underrun)
  else l.

(** Line 199 reached after a caught exception. *)
Definition yield_caught (l : locals) : event :=
  match exception l with
  | Some e => Rejected e
  | None => Uncaught UnboundLocalError
  end.

(** Line 199 reached with [halt] set on entry. *)
Definition yield_halted (l : locals) : event :=
  match exception l with
  | Some e => Remaining e
  | None => Uncaught UnboundLocalError
  end.

(** The body of the loop, lines 178-199. *)
Definition add_paths_body (i : nat) (path : string) (l : locals)
                          (self : LimitTar) : event * locals * LimitTar :=
  if negb (str_truthy path) then (Skipped, l, self)
  else if negb (halt l) then
    let l := underrun_check i l self in
    match add_path path self with
    | (inr _, self') => (Added, l, self')
    | (inl e, self') =>
        if is_SizeLimitReached e then
          let l := mkLocals (if halt_on_size_limit_reached then true else halt l)
                            (Some e) in
          (yield_caught l, l, self')
        else if is_OSError e then
          let l := mkLocals (if halt_on_os_error then true else halt l)
                            (Some e) in
          (yield_caught l, l, self')
        else (Uncaught e, l, self')
    end
  else (yield_halted l, l, self).

(** The [for] loop over [enumerate(paths)], from index [i]. *)
Fixpoint add_paths_loop (i : nat) (paths : list string) (l : locals)
                        (self : LimitTar)
  : list (string * event) * locals * LimitTar :=
  match paths with
  | [] => ([], l, self)
  | path :: rest =>
      let self := run_steps (schedule i) self in
      let '(ev, l', self') := add_paths_body i path l self in
      match ev with
      | Uncaught _ => ([(path, ev)], l', self')
      | _ =>
          let '(evs, l'', self'') := add_paths_loop (S i) rest l' self' in
          ((path, ev) :: evs, l'', self'')
      end
  end.

Definition add_paths_trace (paths : list string) (self : LimitTar)
  : list (string * event) * locals * LimitTar :=
  add_paths_loop 0 paths (mkLocals false None) self.

Fixpoint yields (tr : list (string * event)) : list (string * exn) :=
  match tr with
  | [] => []
  | pe :: tr' =>
      match yielded pe with
      | Some y => y :: yields tr'
      | None => yields tr'
      end
  end.

(** The sequence the generator yields when it is drained, and the session
    it leaves. *)
Definition add_paths (paths : list string) (self : LimitTar)
  : list (string * exn) * LimitTar :=
  let '(tr, _, self') := add_paths_trace paths self in (yields tr, self').

End Session.

(** ** Derived notions used in the statements *)

Section Derived.

Variable str_encode : string -> string -> codec_error + bytes.
Variable os_stat : pathlike -> stat_error + stat_result.
Variable schedule : nat -> nat.

(** The estimate [add_path] computes for [path], line 138. *)
Definition path_cost (encoding path : string) : result Z :=
  (encoded <- encode_path str_encode encoding path ;;
   determine_tar_file_size str_encode os_stat (PBytes encoded))%result.

(** The archive size [add_path] compares with the limit, lines 138-142. *)
Definition candidate_archive_size (self : LimitTar) (path : string) : result Z :=
  (tar_file_size <- path_cost (_encoding self) path ;;
   determine_tar_archive_size (_data_size self + tar_file_size) (_bufsize self))%result.

(** The value of an estimate that did not raise. *)
Definition value_of (r : result Z) : Z :=
  match r with inr n => n | inl _ => 0 end.

(** Successive calls of [add_path], the worker running in between as
    [schedule] says; the first exception ends the sequence. *)
Fixpoint add_path_seq (i : nat) (paths : list string) (self : LimitTar)
  : result unit * LimitTar :=
  match paths with
  | [] => (inr tt, self)
  | path :: rest =>
      match add_path str_encode os_stat path (run_steps (schedule i) self) with
      | (inr _, self') => add_path_seq (S i) rest self'
      | (inl e, self') => (inl e, self')
      end
  end.

(** The worker alone, over the iterations [i], ..., [i + n - 1]. *)
Fixpoint run_sched (i n : nat) (self : LimitTar) : LimitTar :=
  match n with
  | O => self
  | S n' => run_sched (S i) n' (run_steps (schedule i) self)
  end.

End Derived.

(** [exception] is bound whenever [halt] is set: line 199 never reads an
    unbound variable. *)
Definition locals_ok (l : locals) : Prop :=
  halt l = true -> exists e, exception l = Some e.

(** The trace of a loop that only passes its input through: every truthy
    path is yielded with [e], none is handed to [add_path]. *)
Definition passed_on (e : exn) (paths : list string) : list (string * event) :=
  map (fun p => (p, if str_truthy p then Remaining e else Skipped)) paths.

(** The session after a successful [add_path]: lines 147-148. *)
Definition admitted (path : string) (tar_file_size : Z) (self : LimitTar)
  : LimitTar :=
  set_data_size (_data_size self + tar_file_size)
    (set_path_queue (_path_queue self ++ [Some path]) self).

Fixpoint sum_list (l : list Z) : Z :=
  match l with
  | [] => 0
  | x :: l' => x + sum_list l'
  end.

(** What the body of [determine_tar_file_size] adds for the name and for
    the content, read off lines 68-71 and 76-78. *)
Definition long_name_cost (path_size : Z) : Z :=
  if path_size >? 100
  then 512 + 512 * math_ceil (inject_Z path_size / inject_Z 512)
  else 0.

Definition payload_cost (st : stat_result) : Z :=
  if S_ISREG (st_mode st)
  then 512 * int_of_float (inject_Z (math_ceil (inject_Z (st_size st))) / inject_Z 512)
  else 0.

(** ** The formulas of the specification, in its own words *)

(** [ceil(a / b)] for a positive [b]. *)
Definition ceil_div (a b : Z) : Z := (a + b - 1) / b.

(** "Formula: block_size * ceil((total_payload_bytes + 2*512) / block_size)". *)
Definition estimate_archive_size (total_payload_bytes block_size : Z) : Z :=
  block_size * ceil_div (total_payload_bytes + 2 * 512) block_size.

(** "if the path denotes a regular file, add 512 * ceil(file_byte_length /
    512) ...  a directory, a symlink, or other non-regular entry, payload
    cost is zero". *)
Definition spec_payload_cost (t : file_type) (file_byte_length : Z) : Z :=
  match t with
  | S_IFREG => 512 * ceil_div file_byte_length 512
  | _ => 0
  end.

(** "if the encoded path's byte length exceeds 100, add one additional
    header record (512) plus 512 * ceil(path_byte_length / 512) bytes". *)
Definition spec_long_name_cost (path_byte_length : Z) : Z :=
  if path_byte_length >? 100
  then 512 + 512 * ceil_div path_byte_length 512
  else 0.

(** ** Scenario data *)

Definition regular (n : Z) : inode := Node (mkStat S_IFREG n).

Definition long_name : string :=
  string_of_list_ascii (repeat "n"%char 200).

Definition name_of_100 : string :=
  string_of_list_ascii (repeat "n"%char 100).

(** [fileA] and [fileC] are small, [fileB] is larger than one block,
    [one] holds a single byte, [link] points at [fileA], [dangling] at a
    name that has no entry. *)
Definition demo_fs : filesystem :=
  [ (list_byte_of_string "fileA", regular 1024);
    (list_byte_of_string "fileB", regular 20000);
    (list_byte_of_string "fileC", regular 512);
    (list_byte_of_string "one", regular 1);
    (list_byte_of_string "empty", regular 0);
    (list_byte_of_string "dir", Node (mkStat S_IFDIR 4096));
    (list_byte_of_string "link", Link (list_byte_of_string "fileA"));
    (list_byte_of_string "dangling", Link (list_byte_of_string "gone"));
    (list_byte_of_string long_name, regular 0);
    (list_byte_of_string name_of_100, regular 0) ].

(** A session limited to one block of 10240 bytes. *)
Definition one_block_session : LimitTar := init (Some 10240) None None.

(** A session whose limit is zero. *)
Definition zero_limit_session : LimitTar := init (Some 0) None None.

(** Twelve files that fit and a thirteenth, fed to a started, unlimited
    session whose worker empties the queue between any two iterations. *)
Definition underrun_paths : list string :=
  repeat "fileC"%string 11 ++ ["fileA"%string; "fileC"%string].

Definition unlimited_session : LimitTar := start (init None None None).

Definition eager_worker : nat -> nat := fun _ => 16%nat.

Definition idle_worker : nat -> nat := fun _ => 0%nat.

(** The session the feeder has reached when it comes to the twelfth path,
    index 11, of [underrun_paths]: eleven files admitted, the queue
    emptied by the worker. *)
Definition after_warm_up : LimitTar :=
  run_steps (eager_worker 11)
    (snd (add_paths_trace py_encode (fs_stat demo_fs) false true false
            eager_worker (repeat "fileC"%string 11) unlimited_session)).

(** ** Notions for the properties of the session as a whole *)

From Stdlib Require Import Permutation.

(** What [add_path] reads and what it counts: the limit, the block size,
    the encoding and the payload total. *)
Definition account (self : LimitTar) : option Z * Z * string * Z :=
  (_size_limit self, _bufsize self, _encoding self, _data_size self).

(** The members written so far followed by the items still queued. *)
Definition pending (self : LimitTar) : list (option string) :=
  map Some (_tar self) ++ _path_queue self.

Definition is_added (ev : event) : bool :=
  match ev with Added => true | _ => false end.

Definition is_uncaught (ev : event) : bool :=
  match ev with Uncaught _ => true | _ => false end.

(** The paths a trace handed to the queue, in order. *)
Definition added_paths (tr : list (string * event)) : list string :=
  map fst (filter (fun pe => is_added (snd pe)) tr).

(** The generator ran to the end of its input. *)
Definition completed (tr : list (string * event)) : bool :=
  forallb (fun pe => negb (is_uncaught (snd pe))) tr.

(** [os.stat] reports no negative size. *)
Definition stat_sizes_nonneg (os_stat : pathlike -> stat_error + stat_result)
  : Prop :=
  forall p st, os_stat p = inr st -> 0 <= st_size st.

(** Every node of a file system has a size that is not negative. *)
Definition fs_sizes_nonneg (fs : filesystem) : bool :=
  forallb (fun entry => match snd entry with
                        | Node st => 0 <=? st_size st
                        | Link _ => true
                        end) fs.

(** The exceptions the handlers of [add_paths] catch, lines 188-196. *)
Definition is_caught (e : exn) : bool :=
  is_SizeLimitReached e || is_OSError e.

(** A started session with nothing queued and nothing written. *)
Definition fresh (self : LimitTar) : Prop :=
  is_alive self = true /\ _path_queue self = [] /\ _tar self = [].

(** A session whose archive is encoded in ASCII, and a path that ASCII
    cannot encode. *)
Definition ascii_session : LimitTar := start (init None None (Some "ascii"%string)).

Definition latin_name : string := String (ascii_of_nat 233) "t"%string.

Definition busy_worker : nat -> nat := fun i => (2 * i)%nat.

(** ** The text helpers of the command line, lines 213-291

    Here a [str] is the list of its characters, which is what slicing,
    [split] and [+] work on. *)

Definition text : Type := list ascii.

Definition text_eqb (a b : text) : bool :=
  String.eqb (string_of_list_ascii a) (string_of_list_ascii b).

(** [s.startswith(d)]. *)
Fixpoint starts_with (d s : text) : bool :=
  match d, s with
  | [], _ => true
  | a :: d', b :: s' => Ascii.eqb a b && starts_with d' s'
  | _ :: _, [] => false
  end.

(** Put one more character in front of the first field. *)
Definition cons_head (c : ascii) (fields : list text) : list text :=
  match fields with
  | [] => [[c]]
  | x :: fields' => (c :: x) :: fields'
  end.

(** The fields of [s] between the occurrences of a non-empty separator
    [d], found from the left and not overlapping; [skip] characters of a
    separator just found are still to be passed over. *)
Fixpoint split_skip (d : text) (skip : nat) (s : text) : list text :=
  match s with
  | [] => [[]]
  | c :: s' =>
      match skip with
      | S k => split_skip d k s'
      | O =>
          if starts_with d s
          then [] :: split_skip d (List.length d - 1) s'
          else cons_head c (split_skip d 0 s')
      end
  end.

(** [s.split(sep)]; an empty separator is a [ValueError]. *)
Definition str_split (s sep : text) : result (list text) :=
  match sep with
  | [] => raise ValueError
  | _ => ret (split_skip sep 0 s)
  end.

(** A text file object: [read file size] is the sequence of strings that
    successive calls of [read(size)] return before the empty string of the
    end of the file, [iter_lines file] the lines that iterating over the
    object gives. *)
Record text_file : Type := mkTextFile {
  read : Z -> list text;
  iter_lines : list text
}.

(** Line 224: the rest after the last delimiter is yielded unless empty. *)
Definition last_line (partial_line : text) : list text :=
  match partial_line with
  | [] => []
  | _ => [partial_line]
  end.

(** The [while] loop of [_file_iter_lines_gen], lines 215-225, over the
    reads still to come: the strings yielded, and the exception that ended
    the generator if one did. *)
Fixpoint lines_loop (delimiter : text) (reads : list text)
                    (partial_line : text) : list text * option exn :=
  match reads with
  | [] => (last_line partial_line, None)
  | chars :: reads' =>
      match chars with
      | [] => (last_line partial_line, None)
      | _ =>
          let partial_line := partial_line ++ chars in
          match str_split partial_line delimiter with
          | inl e => ([], Some e)
          | inr lines =>
              let partial_line := last lines [] in
              let yielded :=
                map (fun line => line ++ delimiter) (removelast lines) in
              let '(more, e) := lines_loop delimiter reads' partial_line in
              (yielded ++ more, e)
          end
      end
  end.

(** Lines 213-225. *)
Definition _file_iter_lines_gen (input_file : text_file) (delimiter : text)
                                (size : Z) : list text * option exn :=
  lines_loop delimiter (read input_file size) [].

Definition newline : text := [ascii_of_nat 10].

(** Lines 227-231. *)
Definition _file_iter_lines (input_file : text_file) (delimiter : text)
                            (size : Z) : list text * option exn :=
  if text_eqb delimiter newline
  then (iter_lines input_file, None)
  else _file_iter_lines_gen input_file delimiter size.

(** What the reads of a loop amount to: the strings read before the first
    empty one, joined. *)
Fixpoint read_content (reads : list text) : text :=
  match reads with
  | [] => []
  | chars :: reads' =>
      match chars with
      | [] => []
      | _ => chars ++ read_content reads'
      end
  end.

(** The delimited records of a list of fields: every field but the last
    with the delimiter behind it, then the last field unless empty. *)
Definition records (delimiter : text) (fields : list text) : list text :=
  map (fun line => line ++ delimiter) (removelast fields)
  ++ last_line (last fields []).

(** A regular file holding [content]: [read(size)] hands out [size]
    characters at a time, everything at once for a negative [size] and
    nothing for [size = 0]; iteration gives the lines with their newline. *)
Fixpoint chunks (fuel : nat) (size : nat) (content : text) : list text :=
  match fuel with
  | O => []
  | S fuel' =>
      match content with
      | [] => []
      | _ => firstn size content :: chunks fuel' size (skipn size content)
      end
  end.

Fixpoint keepends (line : text) (content : text) : list text :=
  match content with
  | [] => last_line (rev line)
  | c :: content' =>
      if Ascii.eqb c (ascii_of_nat 10)
      then rev (c :: line) :: keepends [] content'
      else keepends (c :: line) content'
  end.

Definition regular_file (content : text) : text_file :=
  mkTextFile
    (fun size =>
       if size <? 0 then last_line content
       else if size =? 0 then []
       else chunks (List.length content) (Z.to_nat size) content)
    (keepends [] content).

(** [d.join(fields)]: the fields with the separator between them. *)
Definition joined (d : text) (fields : list text) : text :=
  List.concat (map (fun line => line ++ d) (removelast fields))
  ++ last fields [].

(** Put a text in front of the first field. *)
Definition prepend (x : text) (fields : list text) : list text :=
  match fields with
  | [] => [x]
  | f :: fields' => (x ++ f) :: fields'
  end.

(** A file of three records delimited by two semicolons, one of them
    empty, and a rest. *)
Definition demo_text : text := list_ascii_of_string "ab;;cd;;;;e".

Definition demo_delimiter : text := list_ascii_of_string ";;".

(** ** The size argument: [_to_byte_type], lines 256-291 *)

(** What [_to_byte_type] raises: its own [Exception]s, the [IndexError]
    and [KeyError] of subscripts, and the [ValueError] and [OverflowError]
    of [float] and [int]. *)
Inductive size_exn : Type :=
  | Exception (message : string)
  | IndexError
  | KeyError
  | NumberValueError
  | NumberOverflowError.

Definition and_then {A B : Type} (r : size_exn + A) (k : A -> size_exn + B)
  : size_exn + B :=
  match r with
  | inl e => inl e
  | inr a => k a
  end.

Declare Scope size_scope.
Delimit Scope size_scope with size.
Notation "x <- r ;; k" := (and_then r (fun x => k))
  (at level 100, r at next level, right associativity) : size_scope.

Definition txt (s : string) : text := list_ascii_of_string s.

(** Lines 256-265. *)
Definition _metric_prefixes : list (text * Z) :=
  [ (txt "K", 1); (txt "M", 2); (txt "G", 3); (txt "T", 4);
    (txt "P", 5); (txt "E", 6); (txt "Z", 7); (txt "Y", 8) ].

(** [d[key]] and [key in d]. *)
Fixpoint dict_get (d : list (text * Z)) (key : text) : size_exn + Z :=
  match d with
  | [] => inl KeyError
  | (k, v) :: d' => if text_eqb k key then inr v else dict_get d' key
  end.

Definition dict_contains (d : list (text * Z)) (key : text) : bool :=
  match dict_get d key with
  | inr _ => true
  | inl _ => false
  end.

(** [value[-1]] and [value[-2]]. *)
Definition index_last (value : text) : size_exn + text :=
  match rev value with
  | c :: _ => inr [c]
  | [] => inl IndexError
  end.

Definition index_before_last (value : text) : size_exn + text :=
  match rev value with
  | _ :: c :: _ => inr [c]
  | _ => inl IndexError
  end.

(** [value[:-n]] for [n = 1, 2]. *)
Definition slice_to (n : nat) (value : text) : text :=
  firstn (List.length value - n) value.

(** [value[-2:-1]]. *)
Definition slice_before_last (value : text) : text :=
  firstn ((List.length value - 1) - (List.length value - 2))
         (skipn (List.length value - 2) value).

Section ByteType.

(** [str.upper], [float], [float * int], [int] of a float and [int] of a
    string are taken as they are: [number] is the type of floats. *)
Variable str_upper : text -> text.
Variable number : Type.
Variable py_float : text -> size_exn + number.
Variable py_mul : number -> Z -> number.
Variable py_int_of_float : number -> size_exn + Z.
Variable py_int : text -> size_exn + Z.

(** Lines 267-291. *)
Definition _to_byte_type (value : text) : size_exn + Z :=
  let value := str_upper value in
  match value with
  | [] => inl (Exception "Size not specified.")
  | _ =>
      (last_char <- index_last value ;;
       let value := if text_eqb last_char (txt "B")
                    then slice_to 1 value else value in
       last_char <- index_last value ;;
       if text_eqb last_char (txt "I") then
         if dict_contains _metric_prefixes (slice_before_last value) then
           x <- py_float (slice_to 2 value) ;;
           key <- index_before_last value ;;
           k <- dict_get _metric_prefixes key ;;
           py_int_of_float (py_mul x (2 ^ (k * 10)))
         else inl (Exception "Invalid binary prefix.")
       else if dict_contains _metric_prefixes last_char then
         x <- py_float (slice_to 1 value) ;;
         k <- dict_get _metric_prefixes last_char ;;
         py_int_of_float (py_mul x (1000 ^ k))
       else py_int value)%size
  end.

(** What the function makes of the upper-cased value once a final [B] is
    gone: lines 283-291. *)
Definition interpret (value : text) : size_exn + Z :=
  (last_char <- index_last value ;;
   if text_eqb last_char (txt "I") then
     if dict_contains _metric_prefixes (slice_before_last value) then
       x <- py_float (slice_to 2 value) ;;
       key <- index_before_last value ;;
       k <- dict_get _metric_prefixes key ;;
       py_int_of_float (py_mul x (2 ^ (k * 10)))
     else inl (Exception "Invalid binary prefix.")
   else if dict_contains _metric_prefixes last_char then
     x <- py_float (slice_to 1 value) ;;
     k <- dict_get _metric_prefixes last_char ;;
     py_int_of_float (py_mul x (1000 ^ k))
   else py_int value)%size.

End ByteType.

(** Instances for the scenarios: [upper] on ASCII letters, unsigned
    decimal numerals for [float] and [int], floats as rationals. *)
Definition ascii_upper (c : ascii) : ascii :=
  let n := nat_of_ascii c in
  if (97 <=? n)%nat && (n <=? 122)%nat then ascii_of_nat (n - 32) else c.

Definition demo_upper (s : text) : text := map ascii_upper s.

Fixpoint digits_value (acc : Z) (s : text) : option Z :=
  match s with
  | [] => Some acc
  | c :: s' =>
      let n := nat_of_ascii c in
      if (48 <=? n)%nat && (n <=? 57)%nat
      then digits_value (10 * acc + Z.of_nat (n - 48)) s'
      else None
  end.

Definition demo_int (s : text) : size_exn + Z :=
  match s with
  | [] => inl NumberValueError
  | _ => match digits_value 0 s with
         | Some n => inr n
         | None => inl NumberValueError
         end
  end.

Definition demo_float (s : text) : size_exn + Q :=
  match demo_int s with
  | inr n => inr (inject_Z n)
  | inl e => inl e
  end.

Definition demo_mul (x : Q) (n : Z) : Q := (x * inject_Z n)%Q.

Definition demo_int_of_float (x : Q) : size_exn + Z := inr (int_of_float x).

Definition demo_to_byte_type (value : string) : size_exn + Z :=
  _to_byte_type demo_upper Q demo_float demo_mul demo_int_of_float demo_int
                (txt value).

(** ** The list of rejected paths: class [_FilelistOutFile], lines 233-254

    The files are a map from names to contents; opening a file for
    reading succeeds when the name has an entry, opening it for writing
    empties or creates the entry unless the name is one the system refuses
    to write, and what is written is taken to reach the file at once. *)

Record world : Type := mkWorld {
  files : string -> option text;
  unwritable : string -> bool;
  stderr : list text
}.

Definition EACCES : Z := 13.

(** An open file object: the name it was opened on, and whether [close]
    was called. *)
Record file_object : Type := mkFile { name : string; closed : bool }.

Record _FilelistOutFile : Type := mkOut {
  out_path : option string;          (* self.path *)
  out_f : option file_object         (* self.f *)
}.

Definition set_file (n : string) (content : text) (w : world) : world :=
  mkWorld (fun m => if String.eqb m n then Some content else files w m)
          (unwritable w) (stderr w).

(** [open(name, "r")] succeeds. *)
Definition readable (w : world) (n : string) : bool :=
  str_truthy n && match files w n with Some _ => true | None => false end.

(** [open(name, "w")]. *)
Definition open_w (n : string) (w : world) : result file_object * world :=
  if negb (str_truthy n) then (raise (OSError ENOENT), w)
  else if unwritable w n then (raise (OSError EACCES), w)
  else (ret (mkFile n false), set_file n [] w).

(** [f.write(data)]. *)
Definition file_write (f : file_object) (data : text) (w : world)
  : result unit * world :=
  if closed f then (raise ValueError, w)
  else (ret tt,
        set_file (name f)
                 (match files w (name f) with
                  | Some content => content ++ data
                  | None => data
                  end) w).

(** [print(data, file=sys.stderr)]. *)
Definition print_stderr (data : text) (w : world) : world :=
  mkWorld (files w) (unwritable w) (stderr w ++ [data ++ newline]).

(** Lines 234-242: the bare [except] covers the [TypeError] of a [None]
    path as well as a missing file. *)
Definition out_init (path : option string) (w : world)
  : result _FilelistOutFile * world :=
  match path with
  | Some n =>
      if readable w n then
        match open_w n w with
        | (inl e, w') => (inl e, w')
        | (inr f, w') => (ret (mkOut path (Some f)), w')
        end
      else (ret (mkOut path None), w)
  | None => (ret (mkOut path None), w)
  end.

(** Lines 244-250. *)
Definition out_write (self : _FilelistOutFile) (data : text) (w : world)
  : result _FilelistOutFile * world :=
  match out_path self with
  | Some n =>
      if str_truthy n then
        match out_f self with
        | Some f =>
            match file_write f data w with
            | (inl e, w') => (inl e, w')
            | (inr _, w') => (ret self, w')
            end
        | None =>
            match open_w n w with
            | (inl e, w') => (inl e, w')
            | (inr f, w') =>
                match file_write f data w' with
                | (inl e, w'') => (inl e, w'')
                | (inr _, w'') => (ret (mkOut (out_path self) (Some f)), w'')
                end
            end
        end
      else (ret self, print_stderr data w)
  | None => (ret self, print_stderr data w)
  end.

(** Lines 252-254. *)
Definition out_close (self : _FilelistOutFile) : _FilelistOutFile :=
  match out_f self with
  | Some f => mkOut (out_path self) (Some (mkFile (name f) true))
  | None => self
  end.

(** Successive calls of [write]; the first exception ends them. *)
Fixpoint out_write_all (self : _FilelistOutFile) (items : list text)
                       (w : world) : result _FilelistOutFile * world :=
  match items with
  | [] => (ret self, w)
  | data :: items' =>
      match out_write self data w with
      | (inl e, w') => (inl e, w')
      | (inr self', w') => out_write_all self' items' w'
      end
  end.

(** A world with one file, for the scenarios. *)
Definition demo_world : world :=
  mkWorld (fun m => if String.eqb m "old.txt" then Some (txt "stale") else None)
          (fun _ => false) [].

(** ** Binary64 division

    The estimators above take [a / b] to be the exact quotient.  CPython
    returns the binary64 nearest to it, ties to even, and raises
    [OverflowError] when that is beyond the largest finite float.  This
    part states the three divisions of the program (lines 71, 78 and 93)
    with that rounding; the properties below show where the two readings
    agree and where they part.

    A finite binary64 is [mantissa * 2 ^ exponent]. *)

Record float64 : Type := mkFloat { mantissa : Z; exponent : Z }.

(** [2 ^ e] for a non-negative [e], 1 below. *)
Definition pow2 (e : Z) : Z := 2 ^ Z.max 0 e.

(** The integer nearest to [n / d], the even one of two that are equally
    near; [0 < d]. *)
Definition round_half_even (n d : Z) : Z :=
  let q := n / d in
  let r := n mod d in
  if 2 * r <? d then q
  else if d <? 2 * r then q + 1
  else if Z.even q then q else q + 1.

(** The [e] with [2 ^ e <= a / b < 2 ^ (e + 1)], for positive [a] and [b]. *)
Definition binade (a b : Z) : Z :=
  let e := Z.log2 a - Z.log2 b in
  if a * pow2 (- e) <? b * pow2 e then e - 1 else e.

(** The least exponent of a normal binary64; below it the spacing of the
    floats stays [2 ^ (-1074)]. *)
Definition emin : Z := -1022.

(** [a / b] rounded to 53 significant bits, for positive [a] and [b]. *)
Definition round_quotient (a b : Z) : float64 :=
  let k := Z.max (binade a b) emin - 52 in
  mkFloat (round_half_even (a * pow2 (- k)) (b * pow2 k)) k.

(** The rounded quotient is [2 ^ 1024] or more. *)
Definition overflows (x : float64) : bool :=
  (0 <? exponent x) && (2 ^ 1024 <=? mantissa x * 2 ^ exponent x).

(** What the faithful estimators raise: the exceptions of the idealised
    ones and the [OverflowError] of the division. *)
Inductive exn64 : Type :=
  | Raised (e : exn)
  | OverflowError.          (* integer division result too large for a float *)

(** [a / b] on ints. *)
Definition truediv_binary64 (a b : Z) : exn64 + float64 :=
  if b =? 0 then inl (Raised ZeroDivisionError)
  else if a =? 0 then inr (mkFloat 0 0)
  else
    let x := round_quotient (Z.abs a) (Z.abs b) in
    if overflows x then inl OverflowError
    else inr (mkFloat (Z.sgn a * Z.sgn b * mantissa x) (exponent x)).

(** [math.ceil(x)]. *)
Definition ceil_binary64 (x : float64) : Z :=
  if 0 <=? exponent x then mantissa x * 2 ^ exponent x
  else - ((- mantissa x) / 2 ^ (- exponent x)).

(** [int(x)]. *)
Definition int_binary64 (x : float64) : Z :=
  if 0 <=? exponent x then mantissa x * 2 ^ exponent x
  else Z.quot (mantissa x) (2 ^ (- exponent x)).

(** Lines 81-93. *)
Definition determine_tar_archive_size_binary64 (tar_data_size bufsize : Z)
  : exn64 + Z :=
  match truediv_binary64 (tar_data_size + 512 * 2) bufsize with
  | inl e => inl e
  | inr q => inr (bufsize * ceil_binary64 q)
  end.


Section EstimatorBinary64.

Variable str_encode : string -> string -> codec_error + bytes.
Variable os_stat : pathlike -> stat_error + stat_result.

(** Lines 48-79; [math.ceil(file_size)] of the int [file_size] is
    [file_size]. *)
Definition determine_tar_file_size_binary64 (path : pathlike) : exn64 + Z :=
  let size := 512 in
  let path := try_encode str_encode path in
  let path_size := len path in
  match (if path_size >? 100
         then match truediv_binary64 path_size 512 with
              | inl e => inl e
              | inr q => inr (size + (512 + 512 * ceil_binary64 q))
              end
         else inr size) with
  | inl e => inl e
  | inr size =>
      match os_path_getsize os_stat path with
      | inl e => inl (Raised e)
      | inr file_size =>
          if os_path_isfile os_stat path
          then match truediv_binary64 file_size 512 with
               | inl e => inl e
               | inr q => inr (size + 512 * int_binary64 q)
               end
          else inr size
      end
  end.

End EstimatorBinary64.

(** ** The worker and [tarfile.add]

    [run_step] above takes [self._tar.add(path, recursive=False)] to append
    a member whatever the path.  On a snapshot of the file system the call
    has one of three outcomes: it appends a member; or it returns without
    writing, when the path is the archive itself or an entry of a type
    that tarfile does not archive; or it raises, when the entry is gone or
    cannot be read or the output cannot be written.  [run] has no handler:
    an exception ends the thread. *)

Inductive add_outcome : Type :=
  | Written
  | NotArchived
  | AddRaised (e : exn).

Definition is_written (o : add_outcome) : bool :=
  match o with Written => true | _ => false end.

Definition is_raised (o : add_outcome) : bool :=
  match o with AddRaised _ => true | _ => false end.

Section Worker.

(** [tar_add path] is the outcome of [self._tar.add(path, recursive=False)]. *)
Variable tar_add : string -> add_outcome.

(** One turn of the loop of [run], lines 119-124. *)
Definition run_turn (self : LimitTar) : LimitTar :=
  if is_alive self then
    match _path_queue self with
    | [] => self
    | item :: q =>
        match item with
        | Some path =>
            if str_truthy path
            then match tar_add path with
                 | Written =>
                     set_tar (_tar self ++ [path]) (set_path_queue q self)
                 | NotArchived => set_path_queue q self
                 | AddRaised _ => set_is_alive false (set_path_queue q self)
                 end
            else set_is_alive false (set_path_queue q self)
        | None => set_is_alive false (set_path_queue q self)
        end
    end
  else self.

Fixpoint run_turns (n : nat) (self : LimitTar) : LimitTar :=
  match n with
  | O => self
  | S n' => run_turns n' (run_turn self)
  end.

(** The item ends the loop: it is falsy (line 122), or [tarfile.add] raises
    on it (line 124). *)
Definition ends_worker (item : option string) : bool :=
  match item with
  | None => true
  | Some path => negb (str_truthy path) || is_raised (tar_add path)
  end.

(** The paths among [ps] that become members. *)
Definition written (ps : list string) : list string :=
  filter (fun p => is_written (tar_add p)) ps.

End Worker.

(** [tarfile.add] over [fs], for an archive named [archive]: the archive
    itself is skipped; the entry is looked up without following links and
    the exception of the lookup is the exception of the call; a socket is
    not archived. *)
Definition fs_tar_add (fs : filesystem) (archive : string) (path : string)
  : add_outcome :=
  if String.eqb path archive then NotArchived
  else if has_nul (utf8_encode path) then AddRaised ValueError
  else match fs_lstat fs (utf8_encode path) with
       | inl e => AddRaised (exn_of_stat_error e)
       | inr st =>
           match st_mode st with
           | S_IFSOCK => NotArchived
           | _ => Written
           end
       end.

(** [demo_fs] with a socket. *)
Definition worker_fs : filesystem :=
  demo_fs ++ [ (list_byte_of_string "sock", Node (mkStat S_IFSOCK 0)) ].

(** A started session whose queue holds two files, the socket, the archive
    itself, a name without an entry and a file behind it. *)
Definition worker_session : LimitTar :=
  set_path_queue
    [Some "fileA"; Some "sock"; Some "out.tar"; Some "fileC"; Some "gone";
     Some "fileB"]%string
    unlimited_session.

(** A worker on which every call of [tarfile.add] appends a member. *)
Definition add_always : string -> add_outcome := fun _ => Written.

(** Eleven files that fit, a twelfth whose turn finds the queue empty, and
    two more. *)
Definition handover_paths : list string :=
  repeat "fileA"%string 11 ++ ["fileB"; "fileC"; "fileA"]%string.

(** The session and the local variables of the feeder when it comes to the
    twelfth path, index 11, of [handover_paths]. *)
Definition before_handover : locals * LimitTar :=
  let '(_, l, self) :=
    add_paths_trace py_encode (fs_stat demo_fs) false true false
      eager_worker (repeat "fileA"%string 11) unlimited_session in
  (l, run_steps (eager_worker 11) self).

(** * Properties *)

(** ** Python arithmetic against integer division *)

Lemma truediv_nonzero (a b : Z) :
  b <> 0 -> truediv a b = inr (inject_Z a / inject_Z b)%Q.
Proof.
  intros Hb. unfold truediv.
  destruct (Z.eqb_spec b 0) as [E | _]; [contradiction | reflexivity].
Qed.

Lemma math_ceil_quotient (a b : Z) :
  math_ceil (inject_Z a / inject_Z b) = - ((- a) / b).
Proof.
  unfold math_ceil, Qceiling. f_equal.
  rewrite Zdiv_Qdiv. apply Qfloor_comp.
  rewrite inject_Z_opp. unfold Qdiv. ring.
Qed.

Lemma math_ceil_int (n : Z) : math_ceil (inject_Z n) = n.
Proof. apply Qceiling_Z. Qed.

Lemma int_of_float_quotient (a b : Z) :
  0 < b -> int_of_float (inject_Z a / inject_Z b) = Z.quot a b.
Proof.
  intros Hb. destruct b as [| p | p]; try lia.
  unfold int_of_float. simpl. rewrite Z.mul_1_r. reflexivity.
Qed.

Lemma ceil_div_opp (a b : Z) : 0 < b -> - ((- a) / b) = ceil_div a b.
Proof.
  intros Hb. unfold ceil_div.
  assert (H1 := Z.div_mod (- a) b ltac:(lia)).
  assert (H2 := Z.mod_pos_bound (- a) b Hb).
  assert (H3 := Z.div_mod (a + b - 1) b ltac:(lia)).
  assert (H4 := Z.mod_pos_bound (a + b - 1) b Hb).
  nia.
Qed.

Lemma ceil_div_least (a b : Z) :
  0 < b -> b * (ceil_div a b - 1) < a <= b * ceil_div a b.
Proof.
  intros Hb. unfold ceil_div.
  assert (H3 := Z.div_mod (a + b - 1) b ltac:(lia)).
  assert (H4 := Z.mod_pos_bound (a + b - 1) b Hb).
  nia.
Qed.


(** ** The archive size estimate *)



Lemma estimate_archive_size_zero (b : Z) :
  1024 <= b -> estimate_archive_size 0 b = b.
Proof.
  intros Hb. unfold estimate_archive_size, ceil_div.
  replace (0 + 2 * 512 + b - 1) with (1 * b + 1023) by lia.
  rewrite Z.div_add_l by lia.
  rewrite Z.div_small by lia. lia.
Qed.

(** ** Binary64 division against the exact quotient *)

Lemma pow2_pos (e : Z) : 0 < pow2 e.
Proof. unfold pow2. apply Z.pow_pos_nonneg; lia. Qed.

Lemma pow2_nonneg (e : Z) : 0 <= e -> pow2 e = 2 ^ e.
Proof. intros H. unfold pow2. rewrite Z.max_r by lia. reflexivity. Qed.

Lemma pow2_nonpos (e : Z) : e <= 0 -> pow2 e = 1.
Proof. intros H. unfold pow2. rewrite Z.max_l by lia. reflexivity. Qed.

Lemma pow2_succ (e : Z) : 0 <= e -> pow2 (e + 1) = 2 * pow2 e.
Proof.
  intros H. rewrite !pow2_nonneg by lia. rewrite Z.pow_add_r by lia. lia.
Qed.

Lemma pow2_le (e e' : Z) : e <= e' -> pow2 e <= pow2 e'.
Proof. intros H. unfold pow2. apply Z.pow_le_mono_r; lia. Qed.

Lemma round_half_even_cases (n d : Z) :
  0 < d ->
  (round_half_even n d = n / d /\ 2 * (n mod d) <= d)
  \/ (round_half_even n d = n / d + 1 /\ d <= 2 * (n mod d)).
Proof.
  intros Hd. unfold round_half_even.
  destruct (Z.ltb_spec (2 * (n mod d)) d) as [H1 | H1]; [left; lia |].
  destruct (Z.ltb_spec d (2 * (n mod d))) as [H2 | H2]; [right; lia |].
  destruct (Z.even (n / d)); [left | right]; lia.
Qed.

(** Rounding does not cross an integer. *)
Lemma round_half_even_le (n d i : Z) :
  0 < d -> n <= i * d -> round_half_even n d <= i.
Proof.
  intros Hd Hn.
  assert (H1 := Z.div_mod n d ltac:(lia)).
  assert (H2 := Z.mod_pos_bound n d Hd).
  destruct (round_half_even_cases n d Hd) as [(-> & H) | (-> & H)]; nia.
Qed.

Lemma round_half_even_ge (n d i : Z) :
  0 < d -> i * d <= n -> i <= round_half_even n d.
Proof.
  intros Hd Hn.
  assert (H1 := Z.div_mod n d ltac:(lia)).
  assert (H2 := Z.mod_pos_bound n d Hd).
  destruct (round_half_even_cases n d Hd) as [(-> & H) | (-> & H)]; nia.
Qed.

(** The rounded quotient is within one half of the exact one. *)
Lemma round_half_even_near (n d : Z) :
  0 < d ->
  2 * n - d <= 2 * (round_half_even n d * d) <= 2 * n + d.
Proof.
  intros Hd.
  assert (H1 := Z.div_mod n d ltac:(lia)).
  assert (H2 := Z.mod_pos_bound n d Hd).
  destruct (round_half_even_cases n d Hd) as [(-> & H) | (-> & H)]; nia.
Qed.

Lemma round_half_even_exact (i d : Z) :
  0 < d -> round_half_even (i * d) d = i.
Proof.
  intros Hd. apply Z.le_antisymm.
  - apply round_half_even_le; lia.
  - apply round_half_even_ge; lia.
Qed.

(** [2 ^ binade a b <= a / b < 2 ^ (binade a b + 1)], without fractions. *)
Lemma binade_spec (a b : Z) :
  0 < a -> 0 < b ->
  b * pow2 (binade a b) <= a * pow2 (- binade a b)
  /\ a * pow2 (- (binade a b + 1)) < b * pow2 (binade a b + 1).
Proof.
  intros Ha Hb. unfold binade.
  assert (La := Z.log2_spec a Ha). assert (Lb := Z.log2_spec b Hb).
  assert (Na := Z.log2_nonneg a). assert (Nb := Z.log2_nonneg b).
  set (la := Z.log2 a) in *. set (lb := Z.log2 b) in *.
  rewrite !Z.pow_succ_r in La, Lb by assumption.
  assert (Pa : 0 < 2 ^ la) by (apply Z.pow_pos_nonneg; lia).
  assert (Pb : 0 < 2 ^ lb) by (apply Z.pow_pos_nonneg; lia).
  destruct (Z.ltb_spec (a * pow2 (- (la - lb))) (b * pow2 (la - lb))) as [T | T].
  - split.
    + destruct (Z.le_gt_cases la lb) as [C | C].
      * rewrite (pow2_nonpos (la - lb - 1)) by lia.
        rewrite pow2_nonneg by lia.
        replace (- (la - lb - 1)) with (lb - la + 1) by lia.
        rewrite Z.pow_add_r by lia.
        assert (E : 2 ^ lb = 2 ^ la * 2 ^ (lb - la)).
        { rewrite <- Z.pow_add_r by lia. f_equal. lia. }
        assert (P : 0 < 2 ^ (lb - la)) by (apply Z.pow_pos_nonneg; lia).
        nia.
      * rewrite (pow2_nonpos (- (la - lb - 1))) by lia.
        rewrite pow2_nonneg by lia.
        assert (E : 2 ^ la = 2 * 2 ^ lb * 2 ^ (la - lb - 1)).
        { rewrite <- Z.pow_succ_r by lia. rewrite <- Z.pow_add_r by lia.
          f_equal. lia. }
        assert (P : 0 < 2 ^ (la - lb - 1)) by (apply Z.pow_pos_nonneg; lia).
        nia.
    + replace (la - lb - 1 + 1) with (la - lb) by lia. exact T.
  - split; [exact T |].
    destruct (Z.le_gt_cases (la - lb + 1) 0) as [C | C].
    + rewrite (pow2_nonpos (la - lb + 1)) by lia.
      rewrite pow2_nonneg by lia.
      assert (E : 2 ^ lb = 2 * 2 ^ la * 2 ^ (- (la - lb + 1))).
      { rewrite <- Z.pow_succ_r by lia. rewrite <- Z.pow_add_r by lia.
        f_equal. lia. }
      assert (P : 0 < 2 ^ (- (la - lb + 1))) by (apply Z.pow_pos_nonneg; lia).
      nia.
    + rewrite (pow2_nonpos (- (la - lb + 1))) by lia.
      rewrite pow2_nonneg by lia.
      assert (E : 2 ^ (la - lb + 1) * 2 ^ lb = 2 * 2 ^ la).
      { rewrite <- Z.pow_add_r by lia. rewrite <- Z.pow_succ_r by lia.
        f_equal. lia. }
      nia.
Qed.

(** The scaled quotient lies in the range of a 53-bit mantissa: between
    [2 ^ 52] and [2 ^ 53] in the normal range, below [2 ^ 52] under it. *)
Lemma round_quotient_scale (a b : Z) :
  0 < a -> 0 < b ->
  a * pow2 (- (Z.max (binade a b) emin - 52))
  < 2 ^ 53 * (b * pow2 (Z.max (binade a b) emin - 52))
  /\ (emin <= binade a b ->
      2 ^ 52 * (b * pow2 (Z.max (binade a b) emin - 52))
      <= a * pow2 (- (Z.max (binade a b) emin - 52))).
Proof.
  intros Ha Hb. destruct (binade_spec a b Ha Hb) as (F1 & F2).
  set (e := binade a b) in *. unfold emin.
  destruct (Z.le_gt_cases (-1022) e) as [N | S].
  - rewrite Z.max_l by exact N.
    destruct (Z.le_gt_cases 52 e) as [C | C].
    + rewrite (pow2_nonpos (- (e - 52))), (pow2_nonneg (e - 52)) by lia.
      rewrite (pow2_nonneg e), (pow2_nonpos (- e)) in F1 by lia.
      rewrite (pow2_nonneg (e + 1)), (pow2_nonpos (- (e + 1))) in F2 by lia.
      assert (E1 : 2 ^ e = 2 ^ 52 * 2 ^ (e - 52)).
      { rewrite <- Z.pow_add_r by lia. f_equal. lia. }
      assert (E2 : 2 ^ (e + 1) = 2 ^ 53 * 2 ^ (e - 52)).
      { rewrite <- Z.pow_add_r by lia. f_equal. lia. }
      rewrite E1 in F1. rewrite E2 in F2. split; [| intros _]; lia.
    + rewrite (pow2_nonneg (- (e - 52))), (pow2_nonpos (e - 52)) by lia.
      assert (P : 0 < 2 ^ (- (e - 52))) by (apply Z.pow_pos_nonneg; lia).
      destruct (Z.le_gt_cases 0 e) as [D | D].
      * rewrite (pow2_nonneg e), (pow2_nonpos (- e)) in F1 by lia.
        rewrite (pow2_nonneg (e + 1)), (pow2_nonpos (- (e + 1))) in F2 by lia.
        assert (E1 : 2 ^ 52 = 2 ^ e * 2 ^ (- (e - 52))).
        { rewrite <- Z.pow_add_r by lia. f_equal. lia. }
        assert (E2 : 2 ^ 53 = 2 ^ (e + 1) * 2 ^ (- (e - 52))).
        { rewrite <- Z.pow_add_r by lia. f_equal. lia. }
        rewrite E1, E2. split; [| intros _]; nia.
      * rewrite (pow2_nonpos e), (pow2_nonneg (- e)) in F1 by lia.
        rewrite (pow2_nonpos (e + 1)), (pow2_nonneg (- (e + 1))) in F2 by lia.
        assert (E1 : 2 ^ (- (e - 52)) = 2 ^ 52 * 2 ^ (- e)).
        { rewrite <- Z.pow_add_r by lia. f_equal. lia. }
        assert (E2 : 2 ^ (- (e - 52)) = 2 ^ 53 * 2 ^ (- (e + 1))).
        { rewrite <- Z.pow_add_r by lia. f_equal. lia. }
        split; [rewrite E2 | intros _; rewrite E1]; nia.
  - rewrite Z.max_r by lia. split; [| lia].
    rewrite (pow2_nonpos (e + 1)), (pow2_nonneg (- (e + 1))) in F2 by lia.
    change (pow2 (- (-1022 - 52))) with (2 ^ 1074).
    change (pow2 (-1022 - 52)) with 1.
    assert (M : 2 ^ 1022 <= 2 ^ (- (e + 1))) by (apply Z.pow_le_mono_r; lia).
    change (2 ^ 1074) with (2 ^ 52 * 2 ^ 1022).
    change (2 ^ 53) with (2 * 2 ^ 52).
    assert (P52 : 0 < 2 ^ 52) by (apply Z.pow_pos_nonneg; lia).
    nia.
Qed.

(** [round_quotient] is the quotient rounded to nearest: a multiple of
    [2 ^ exponent] within half of [2 ^ exponent] of [a / b], with a
    mantissa of 53 bits, the leading one set in the normal range. *)
Lemma round_quotient_spec (a b : Z) :
  0 < a -> 0 < b ->
  2 * (a * pow2 (- exponent (round_quotient a b)))
  - b * pow2 (exponent (round_quotient a b))
  <= 2 * (mantissa (round_quotient a b)
          * (b * pow2 (exponent (round_quotient a b))))
  <= 2 * (a * pow2 (- exponent (round_quotient a b)))
     + b * pow2 (exponent (round_quotient a b))
  /\ 0 <= mantissa (round_quotient a b) <= 2 ^ 53
  /\ (emin <= binade a b -> 2 ^ 52 <= mantissa (round_quotient a b))
  /\ - 1074 <= exponent (round_quotient a b).
Proof.
  intros Ha Hb. unfold round_quotient. cbn [mantissa exponent].
  destruct (round_quotient_scale a b Ha Hb) as (U & L).
  set (k := Z.max (binade a b) emin - 52) in *.
  assert (Pk := pow2_pos k). assert (Pk' := pow2_pos (- k)).
  assert (D : 0 < b * pow2 k) by nia.
  split; [apply round_half_even_near; exact D |].
  split; [split |]; [| | split].
  - apply round_half_even_ge; [exact D | nia].
  - apply round_half_even_le; [exact D | lia].
  - intros N. apply round_half_even_ge; [exact D | exact (L N)].
  - unfold k, emin. lia.
Qed.

(** Some quotients: a third, a tenth, the least positive float, half of it
    (which rounds to zero), the largest finite float and a quotient
    beyond it. *)
Example truediv_binary64_examples :
  truediv_binary64 1 3 = inr (mkFloat 6004799503160661 (-54))
  /\ truediv_binary64 1 10 = inr (mkFloat 7205759403792794 (-56))
  /\ truediv_binary64 (-7) 2 = inr (mkFloat (-7881299347898368) (-51))
  /\ truediv_binary64 1 (2 ^ 1074) = inr (mkFloat 1 (-1074))
  /\ truediv_binary64 1 (2 ^ 1075) = inr (mkFloat 0 (-1074))
  /\ truediv_binary64 (2 ^ 1024 - 2 ^ 971) 1
     = inr (mkFloat (2 ^ 53 - 1) 971)
  /\ truediv_binary64 (2 ^ 1024 - 2 ^ 970) 1 = inl OverflowError
  /\ truediv_binary64 1 0 = inl (Raised ZeroDivisionError).
Proof. repeat split; vm_compute; reflexivity. Qed.

(** Below [2 ^ 53] the quotient has a non-positive exponent and cannot
    overflow. *)
Lemma truediv_binary64_pos (a b : Z) :
  0 < a < 2 ^ 53 -> 0 < b ->
  Z.max (binade a b) emin - 52 <= 0
  /\ truediv_binary64 a b
     = inr (mkFloat (round_half_even
                       (a * 2 ^ (- (Z.max (binade a b) emin - 52))) b)
                    (Z.max (binade a b) emin - 52)).
Proof.
  intros Ha Hb.
  destruct (binade_spec a b ltac:(lia) Hb) as (F1 & _).
  assert (He : binade a b <= 52).
  { destruct (Z.le_gt_cases (binade a b) 52) as [C | C]; [exact C | exfalso].
    rewrite pow2_nonneg, pow2_nonpos in F1 by lia.
    assert (P : 2 ^ 53 <= 2 ^ binade a b) by (apply Z.pow_le_mono_r; lia).
    nia. }
  assert (Hk : Z.max (binade a b) emin - 52 <= 0) by (unfold emin; lia).
  split; [exact Hk |].
  unfold truediv_binary64.
  destruct (Z.eqb_spec b 0) as [E | _]; [lia |].
  destruct (Z.eqb_spec a 0) as [E | _]; [lia |].
  rewrite !Z.abs_eq by lia. unfold round_quotient, overflows.
  cbn [exponent mantissa].
  destruct (Z.ltb_spec 0 (Z.max (binade a b) emin - 52)) as [C | _]; [lia |].
  cbn [andb].
  rewrite (pow2_nonpos (Z.max (binade a b) emin - 52)) by exact Hk.
  rewrite pow2_nonneg by lia.
  rewrite !Z.sgn_pos by lia. rewrite !Z.mul_1_r, Z.mul_1_l.
  reflexivity.
Qed.

(** [math.ceil(a / b)] is the exact ceiling when [a] is below [2 ^ 53] and
    the quotient is above half the least positive float. *)
Lemma truediv_binary64_ceil (a b : Z) :
  0 < a < 2 ^ 53 -> 0 < b -> b < a * 2 ^ 1075 ->
  exists x, truediv_binary64 a b = inr x /\ ceil_binary64 x = ceil_div a b.
Proof.
  intros Ha Hb Hu.
  destruct (truediv_binary64_pos a b Ha Hb) as (Hk & E).
  destruct (binade_spec a b ltac:(lia) Hb) as (F1 & _).
  eexists. split; [exact E |].
  set (e := binade a b) in *. set (k := Z.max e emin - 52) in *.
  set (P := 2 ^ (- k)).
  assert (HP : 0 < P) by (apply Z.pow_pos_nonneg; lia).
  set (m := round_half_even (a * P) b).
  set (c := ceil_div a b).
  assert (Hc := ceil_div_least a b Hb). fold c in Hc.
  assert (Hup : m <= c * P).
  { apply round_half_even_le; [exact Hb | nia]. }
  assert (Key : b < 2 * P * (a - b * (c - 1))).
  { destruct (Z.le_gt_cases emin e) as [C | C].
    - assert (B : b < 2 * P).
      { unfold P, k. rewrite Z.max_l by exact C. unfold emin in C.
        destruct (Z.le_gt_cases 0 e) as [D | D].
        + rewrite pow2_nonneg, pow2_nonpos in F1 by lia.
          assert (E53 : 2 ^ 53 = 2 * 2 ^ (- (e - 52)) * 2 ^ e).
          { rewrite <- Z.pow_succ_r by lia. rewrite <- Z.pow_add_r by lia.
            f_equal. lia. }
          assert (Pe : 0 < 2 ^ e) by (apply Z.pow_pos_nonneg; lia).
          nia.
        + rewrite (pow2_nonpos e), pow2_nonneg in F1 by lia.
          assert (E53 : 2 * 2 ^ (- (e - 52)) = 2 ^ 53 * 2 ^ (- e)).
          { rewrite <- Z.pow_succ_r by lia. rewrite <- Z.pow_add_r by lia.
            f_equal. lia. }
          assert (Pe : 0 < 2 ^ (- e)) by (apply Z.pow_pos_nonneg; lia).
          nia. }
      nia.
    - assert (EP : 2 * P = 2 ^ 1075).
      { unfold P, k. rewrite Z.max_r by lia. reflexivity. }
      destruct (Z.le_gt_cases a b) as [D | D].
      + assert (c = 1) by nia. subst c. nia.
      + assert (2 ^ 53 < 2 ^ 1075) by (apply Z.pow_lt_mono_r; lia). nia. }
  assert (Near := round_half_even_near (a * P) b Hb). fold m in Near.
  assert (Hlow : (c - 1) * P < m) by nia.
  unfold ceil_binary64. cbn [exponent mantissa]. fold P m.
  destruct (Z.leb_spec 0 k) as [Z0 | N0].
  - assert (k = 0) by lia. assert (P = 1) by (unfold P; replace (- k) with 0 by lia; reflexivity).
    replace (2 ^ k) with 1 by (replace k with 0 by lia; reflexivity). nia.
  - rewrite ceil_div_opp by exact HP.
    assert (Hx := ceil_div_least m P HP). nia.
Qed.

(** Divided by 512, an int below [2 ^ 53] is a float: nothing is rounded. *)
Lemma truediv_binary64_512 (n : Z) :
  0 < n < 2 ^ 53 ->
  exists x, truediv_binary64 n 512 = inr x
            /\ int_binary64 x = n / 512
            /\ ceil_binary64 x = ceil_div n 512.
Proof.
  intros Hn.
  destruct (truediv_binary64_ceil n 512 Hn ltac:(lia)) as (x & E & C).
  { assert (2 ^ 10 <= 2 ^ 1075) by (apply Z.pow_le_mono_r; lia). lia. }
  exists x. split; [exact E |]. split; [| exact C].
  destruct (truediv_binary64_pos n 512 Hn ltac:(lia)) as (_ & E').
  rewrite E' in E. injection E as <-.
  destruct (binade_spec n 512 ltac:(lia) ltac:(lia)) as (F1 & F2).
  set (e := binade n 512) in *.
  assert (Hlo : -10 <= e).
  { destruct (Z.le_gt_cases (-10) e) as [C' | C']; [exact C' | exfalso].
    rewrite (pow2_nonpos (e + 1)), pow2_nonneg in F2 by lia.
    assert (P : 2 ^ 10 <= 2 ^ (- (e + 1))) by (apply Z.pow_le_mono_r; lia).
    change (2 ^ 10) with 1024 in P. nia. }
  assert (Hhi : e <= 43).
  { destruct (Z.le_gt_cases e 43) as [C' | C']; [exact C' | exfalso].
    rewrite pow2_nonneg, pow2_nonpos in F1 by lia.
    assert (P : 2 ^ 44 <= 2 ^ e) by (apply Z.pow_le_mono_r; lia).
    change (2 ^ 53) with (512 * 2 ^ 44) in Hn. nia. }
  unfold emin. rewrite Z.max_l by lia.
  unfold int_binary64. cbn [exponent mantissa].
  destruct (Z.leb_spec 0 (e - 52)) as [C' | _]; [lia |].
  assert (EP : 2 ^ (- (e - 52)) = 2 ^ (43 - e) * 512).
  { change 512 with (2 ^ 9). rewrite <- Z.pow_add_r by lia. f_equal. lia. }
  assert (PP : 0 < 2 ^ (43 - e)) by (apply Z.pow_pos_nonneg; lia).
  rewrite EP.
  replace (n * (2 ^ (43 - e) * 512)) with (n * 2 ^ (43 - e) * 512) by lia.
  rewrite round_half_even_exact by lia.
  rewrite Z.quot_div_nonneg by nia.
  rewrite (Z.mul_comm (2 ^ (43 - e)) 512).
  rewrite Z.div_mul_cancel_r by lia. reflexivity.
Qed.

(** The archive size estimate is the formula of the specification when
    the padded total is below [2 ^ 53] and the quotient above half the
    least positive float. *)
Lemma determine_tar_archive_size_binary64_exact (total block_size : Z) :
  0 <= total -> total + 2 * 512 < 2 ^ 53 ->
  0 < block_size -> block_size < (total + 2 * 512) * 2 ^ 1075 ->
  determine_tar_archive_size_binary64 total block_size
  = inr (estimate_archive_size total block_size).
Proof.
  intros Ht Hs Hb Hu. unfold determine_tar_archive_size_binary64.
  destruct (truediv_binary64_ceil (total + 512 * 2) block_size) as (x & E & C);
    [lia | lia | lia |].
  rewrite E, C. reflexivity.
Qed.

(** ** Rounding keeps the order *)

Lemma round_half_even_mono (n n' d : Z) :
  0 < d -> n <= n' -> round_half_even n d <= round_half_even n' d.
Proof.
  intros Hd Hn.
  assert (H1 := Z.div_mod n d ltac:(lia)).
  assert (H2 := Z.mod_pos_bound n d Hd).
  assert (H1' := Z.div_mod n' d ltac:(lia)).
  assert (H2' := Z.mod_pos_bound n' d Hd).
  assert (Q : n / d <= n' / d) by (apply Z.div_le_mono; lia).
  destruct (Z.eq_dec (n / d) (n' / d)) as [E | E].
  - assert (R : n mod d <= n' mod d) by nia.
    unfold round_half_even. rewrite E.
    destruct (Z.ltb_spec (2 * (n mod d)) d);
      destruct (Z.ltb_spec (2 * (n' mod d)) d);
      destruct (Z.ltb_spec d (2 * (n mod d)));
      destruct (Z.ltb_spec d (2 * (n' mod d)));
      destruct (Z.even (n' / d)); lia.
  - destruct (round_half_even_cases n d Hd) as [(-> & _) | (-> & _)];
      destruct (round_half_even_cases n' d Hd) as [(-> & _) | (-> & _)]; lia.
Qed.

Lemma pow2_ratio_lt (x y : Z) :
  x < y -> 2 * (pow2 x * pow2 (- y)) <= pow2 y * pow2 (- x).
Proof.
  intros H.
  destruct (Z.le_gt_cases 0 x) as [X | X].
  - rewrite (pow2_nonpos (- x)), (pow2_nonpos (- y)) by lia.
    rewrite !pow2_nonneg by lia.
    assert (E : 2 ^ y = 2 * 2 ^ x * 2 ^ (y - x - 1)).
    { rewrite <- Z.pow_succ_r by lia. rewrite <- Z.pow_add_r by lia.
      f_equal. lia. }
    assert (P : 0 < 2 ^ (y - x - 1)) by (apply Z.pow_pos_nonneg; lia).
    assert (P' : 0 < 2 ^ x) by (apply Z.pow_pos_nonneg; lia).
    nia.
  - rewrite (pow2_nonpos x), (pow2_nonneg (- x)) by lia.
    destruct (Z.le_gt_cases 0 y) as [Y | Y].
    + rewrite (pow2_nonpos (- y)), (pow2_nonneg y) by lia.
      assert (P : 0 < 2 ^ y) by (apply Z.pow_pos_nonneg; lia).
      assert (M : 2 ^ 1 <= 2 ^ (- x)) by (apply Z.pow_le_mono_r; lia).
      change (2 ^ 1) with 2 in M. nia.
    + rewrite (pow2_nonpos y), (pow2_nonneg (- y)) by lia.
      assert (E : 2 ^ (- x) = 2 * 2 ^ (- y) * 2 ^ (y - x - 1)).
      { rewrite <- Z.pow_succ_r by lia. rewrite <- Z.pow_add_r by lia.
        f_equal. lia. }
      assert (P : 0 < 2 ^ (y - x - 1)) by (apply Z.pow_pos_nonneg; lia).
      assert (P' : 0 < 2 ^ (- y)) by (apply Z.pow_pos_nonneg; lia).
      nia.
Qed.

Lemma binade_mono (a a' b : Z) :
  0 < a -> a <= a' -> 0 < b -> binade a b <= binade a' b.
Proof.
  intros Ha Hle Hb.
  destruct (binade_spec a b Ha Hb) as (F1 & _).
  destruct (binade_spec a' b ltac:(lia) Hb) as (_ & F2).
  destruct (Z.le_gt_cases (binade a b) (binade a' b)) as [C | C];
    [exact C | exfalso].
  set (e := binade a b) in *. set (e' := binade a' b) in *.
  assert (R : pow2 (e' + 1) * pow2 (- e) <= pow2 e * pow2 (- (e' + 1))).
  { destruct (Z.eq_dec (e' + 1) e) as [<- | N]; [lia |].
    assert (T := pow2_ratio_lt (e' + 1) e ltac:(lia)).
    assert (P1 := pow2_pos (e' + 1)). assert (P2 := pow2_pos (- e)). nia. }
  assert (P1 := pow2_pos (- e)). assert (P2 := pow2_pos (- (e' + 1))).
  assert (P3 := pow2_pos e). assert (P4 := pow2_pos (e' + 1)).
  assert (S1 : a' * pow2 (- (e' + 1)) * pow2 (- e)
               < b * pow2 (e' + 1) * pow2 (- e)) by nia.
  assert (S2 : b * (pow2 (e' + 1) * pow2 (- e))
               <= b * (pow2 e * pow2 (- (e' + 1)))) by nia.
  assert (S3 : b * pow2 e * pow2 (- (e' + 1))
               <= a * pow2 (- e) * pow2 (- (e' + 1))) by nia.
  assert (S4 : a * (pow2 (- e) * pow2 (- (e' + 1)))
               <= a' * (pow2 (- e) * pow2 (- (e' + 1)))) by nia.
  nia.
Qed.

(** The rounded quotient does not decrease with the numerator. *)
Lemma round_quotient_mono (a a' b : Z) :
  0 < a -> a <= a' -> 0 < b ->
  exponent (round_quotient a b) <= exponent (round_quotient a' b)
  /\ mantissa (round_quotient a b)
     * (pow2 (exponent (round_quotient a b))
        * pow2 (- exponent (round_quotient a' b)))
     <= mantissa (round_quotient a' b)
        * (pow2 (exponent (round_quotient a' b))
           * pow2 (- exponent (round_quotient a b))).
Proof.
  intros Ha Hle Hb.
  assert (B := binade_mono a a' b Ha Hle Hb).
  destruct (round_quotient_spec a b Ha Hb) as (_ & (M0 & M1) & _ & _).
  destruct (round_quotient_spec a' b ltac:(lia) Hb) as (_ & (M0' & _) & L' & _).
  unfold round_quotient in *. cbn [mantissa exponent] in *.
  set (k := Z.max (binade a b) emin - 52) in *.
  set (k' := Z.max (binade a' b) emin - 52) in *.
  assert (K : k <= k') by (unfold k, k'; lia).
  split; [exact K |].
  destruct (Z.eq_dec k k') as [E | N].
  - fold k. rewrite <- E.
    assert (P := pow2_pos k). assert (P' := pow2_pos (- k)).
    apply Z.mul_le_mono_nonneg_r; [nia |].
    apply round_half_even_mono; nia.
  - assert (T := pow2_ratio_lt k k' ltac:(lia)).
    assert (N' : emin <= binade a' b) by (unfold k, k' in *; lia).
    specialize (L' N').
    assert (P1 := pow2_pos k). assert (P2 := pow2_pos (- k')).
    assert (P3 := pow2_pos k'). assert (P4 := pow2_pos (- k)).
    change (2 ^ 53) with (2 * 2 ^ 52) in M1.
    assert (P52 : 0 < 2 ^ 52) by (apply Z.pow_pos_nonneg; lia).
    set (m := round_half_even (a * pow2 (- k)) (b * pow2 k)) in *.
    set (m' := round_half_even (a' * pow2 (- k')) (b * pow2 k')) in *.
    assert (S1 : m * (pow2 k * pow2 (- k'))
                 <= 2 ^ 52 * (2 * (pow2 k * pow2 (- k')))) by nia.
    assert (S2 : 2 ^ 52 * (2 * (pow2 k * pow2 (- k')))
                 <= 2 ^ 52 * (pow2 k' * pow2 (- k))) by nia.
    assert (S3 : 2 ^ 52 * (pow2 k' * pow2 (- k))
                 <= m' * (pow2 k' * pow2 (- k))) by nia.
    lia.
Qed.

Lemma ceil_binary64_div (x : float64) :
  ceil_binary64 x
  = ceil_div (mantissa x * pow2 (exponent x)) (pow2 (- exponent x)).
Proof.
  unfold ceil_binary64. destruct (Z.leb_spec 0 (exponent x)) as [C | C].
  - rewrite pow2_nonneg, pow2_nonpos by lia.
    rewrite <- ceil_div_opp by lia. rewrite Z.div_1_r. lia.
  - rewrite (pow2_nonpos (exponent x)), pow2_nonneg by lia.
    rewrite Z.mul_1_r. apply ceil_div_opp. apply Z.pow_pos_nonneg; lia.
Qed.

Lemma ceil_div_fraction_le (n d n' d' : Z) :
  0 < d -> 0 < d' -> n * d' <= n' * d -> ceil_div n d <= ceil_div n' d'.
Proof.
  intros Hd Hd' H.
  assert (A := ceil_div_least n d Hd). assert (A' := ceil_div_least n' d' Hd').
  destruct (Z.le_gt_cases (ceil_div n d) (ceil_div n' d')) as [C | C];
    [exact C | exfalso].
  assert (S1 : d * ceil_div n' d' <= d * (ceil_div n d - 1)) by nia.
  assert (S2 : d' * (d * ceil_div n' d') <= d' * (d * (ceil_div n d - 1))) by nia.
  assert (S3 : d' * (d * (ceil_div n d - 1)) < d' * n) by nia.
  assert (S4 : n' * d <= d * (d' * ceil_div n' d')) by nia.
  nia.
Qed.

(** [math.ceil(a / b)] does not decrease with a positive numerator, and a
    quotient below one that does not overflow does not overflow. *)
Lemma truediv_binary64_mono (a a' b : Z) (x' : float64) :
  0 < a -> a <= a' -> 0 < b ->
  truediv_binary64 a' b = inr x' ->
  exists x, truediv_binary64 a b = inr x
            /\ ceil_binary64 x <= ceil_binary64 x'.
Proof.
  intros Ha Hle Hb. unfold truediv_binary64.
  destruct (Z.eqb_spec b 0) as [E | _]; [lia |].
  destruct (Z.eqb_spec a 0) as [E | _]; [lia |].
  destruct (Z.eqb_spec a' 0) as [E | _]; [lia |].
  rewrite !Z.abs_eq by lia. rewrite !Z.sgn_pos by lia.
  destruct (round_quotient_mono a a' b Ha Hle Hb) as (K & V).
  destruct (round_quotient_spec a b Ha Hb) as (_ & (M0 & _) & _ & _).
  destruct (round_quotient_spec a' b ltac:(lia) Hb) as (_ & (M0' & _) & _ & _).
  remember (round_quotient a b) as r eqn:Er.
  remember (round_quotient a' b) as r' eqn:Er'. clear Er Er'.
  rewrite !Z.mul_1_l.
  destruct (overflows r') eqn:O'; [discriminate |].
  intros H. injection H as <-.
  assert (O : overflows r = false).
  { unfold overflows in *.
    destruct (Z.ltb_spec 0 (exponent r)) as [C | C]; [| reflexivity].
    destruct (Z.ltb_spec 0 (exponent r')) as [C' | C']; [| lia].
    cbn [andb] in *. apply Z.leb_gt in O'. apply Z.leb_gt.
    rewrite (pow2_nonpos (- exponent r)), (pow2_nonpos (- exponent r')),
      !pow2_nonneg in V by lia.
    lia. }
  rewrite O. eexists. split; [reflexivity |].
  rewrite !ceil_binary64_div. cbn [mantissa exponent].
  apply ceil_div_fraction_le; try apply pow2_pos.
  assert (P1 := pow2_pos (exponent r)). assert (P2 := pow2_pos (- exponent r')).
  assert (P3 := pow2_pos (exponent r')). assert (P4 := pow2_pos (- exponent r)).
  nia.
Qed.

(** A quotient below [2 ^ 1023] does not overflow. *)
Lemma truediv_binary64_returns (a b : Z) :
  0 < a -> 0 < b -> a < 2 ^ 1023 * b ->
  exists x, truediv_binary64 a b = inr x.
Proof.
  intros Ha Hb Hu. unfold truediv_binary64.
  destruct (Z.eqb_spec b 0) as [E | _]; [lia |].
  destruct (Z.eqb_spec a 0) as [E | _]; [lia |].
  rewrite !Z.abs_eq by lia.
  destruct (binade_spec a b Ha Hb) as (F1 & _).
  destruct (round_quotient_spec a b Ha Hb) as (_ & (M0 & M1) & _ & _).
  assert (He : binade a b <= 1022).
  { destruct (Z.le_gt_cases (binade a b) 1022) as [C | C]; [exact C | exfalso].
    rewrite pow2_nonneg, pow2_nonpos in F1 by lia.
    assert (P : 2 ^ 1023 <= 2 ^ binade a b) by (apply Z.pow_le_mono_r; lia).
    nia. }
  assert (O : overflows (round_quotient a b) = false).
  { unfold overflows.
    destruct (Z.ltb_spec 0 (exponent (round_quotient a b))) as [C | C];
      [| reflexivity].
    cbn [andb]. apply Z.leb_gt.
    assert (K : exponent (round_quotient a b) <= 970).
    { unfold round_quotient, emin. cbn [exponent]. lia. }
    assert (P : 2 ^ exponent (round_quotient a b) <= 2 ^ 970)
      by (apply Z.pow_le_mono_r; lia).
    assert (P' : 0 < 2 ^ exponent (round_quotient a b))
      by (apply Z.pow_pos_nonneg; lia).
    change (2 ^ 1024) with (2 * (2 ^ 53 * 2 ^ 970)).
    assert (P53 : 0 < 2 ^ 53) by (apply Z.pow_pos_nonneg; lia).
    assert (P970 : 0 < 2 ^ 970) by (apply Z.pow_pos_nonneg; lia).
    nia. }
  rewrite O. eexists. reflexivity.
Qed.

Lemma truediv_binary64_zero (b : Z) :
  b <> 0 -> truediv_binary64 0 b = inr (mkFloat 0 0).
Proof.
  intros Hb. unfold truediv_binary64.
  destruct (Z.eqb_spec b 0) as [E | _]; [contradiction | reflexivity].
Qed.







(** ** The per-file estimate *)

Lemma long_name_cost_spec (n : Z) : long_name_cost n = spec_long_name_cost n.
Proof.
  unfold long_name_cost, spec_long_name_cost.
  destruct (n >? 100); [| reflexivity].
  rewrite math_ceil_quotient, ceil_div_opp by lia. reflexivity.
Qed.

(** The content is charged for the records it fills completely. *)
Lemma payload_cost_regular (n : Z) :
  0 <= n -> payload_cost (mkStat S_IFREG n) = 512 * (n / 512).
Proof.
  intros Hn. unfold payload_cost. simpl S_ISREG. cbv iota.
  simpl st_size. rewrite math_ceil_int, int_of_float_quotient by lia.
  rewrite Z.quot_div_nonneg by lia. reflexivity.
Qed.

Lemma payload_cost_not_regular (st : stat_result) :
  S_ISREG (st_mode st) = false -> payload_cost st = 0.
Proof. intros H. unfold payload_cost. rewrite H. reflexivity. Qed.

(** Whenever the length is not a multiple of 512 the charge is one record
    short of the padded length. *)
Lemma payload_cost_one_record_short (n : Z) :
  0 <= n -> n mod 512 <> 0 ->
  payload_cost (mkStat S_IFREG n) = spec_payload_cost S_IFREG n - 512.
Proof.
  intros Hn Hm. rewrite payload_cost_regular by assumption.
  unfold spec_payload_cost, ceil_div.
  assert (H1 := Z.div_mod n 512 ltac:(lia)).
  assert (H2 := Z.mod_pos_bound n 512 ltac:(lia)).
  assert (H3 := Z.div_mod (n + 512 - 1) 512 ltac:(lia)).
  assert (H4 := Z.mod_pos_bound (n + 512 - 1) 512 ltac:(lia)).
  lia.
Qed.

Section EstimatorFacts.

Variable str_encode : string -> string -> codec_error + bytes.
Variable os_stat : pathlike -> stat_error + stat_result.

Lemma long_name_step (n : Z) :
  (if n >? 100
   then bind (truediv n 512) (fun q => ret (512 + (512 + 512 * math_ceil q)))
   else ret 512)
  = inr (512 + long_name_cost n).
Proof.
  unfold long_name_cost. destruct (n >? 100).
  - rewrite truediv_nonzero by lia. reflexivity.
  - reflexivity.
Qed.

Lemma determine_tar_file_size_ok (path : pathlike) (st : stat_result) :
  os_stat (try_encode str_encode path) = inr st ->
  determine_tar_file_size str_encode os_stat path
  = inr (512 + long_name_cost (len (try_encode str_encode path)) + payload_cost st).
Proof.
  intros Hst. unfold determine_tar_file_size.
  rewrite long_name_step. cbn [bind].
  unfold os_path_getsize, os_path_isfile, payload_cost. rewrite Hst.
  cbn [bind ret].
  destruct (S_ISREG (st_mode st)).
  - rewrite truediv_nonzero by lia. reflexivity.
  - unfold ret. rewrite Z.add_0_r. reflexivity.
Qed.

Lemma determine_tar_file_size_stat_error (path : pathlike) (e : stat_error) :
  os_stat (try_encode str_encode path) = inl e ->
  determine_tar_file_size str_encode os_stat path = inl (exn_of_stat_error e).
Proof.
  intros Hst. unfold determine_tar_file_size.
  rewrite long_name_step. cbn [bind].
  unfold os_path_getsize. rewrite Hst. reflexivity.
Qed.

(** The estimate raises nothing but what [os.stat] raised. *)
Lemma determine_tar_file_size_raises (path : pathlike) (e : exn) :
  determine_tar_file_size str_encode os_stat path = inl e ->
  exists se, os_stat (try_encode str_encode path) = inl se /\ e = exn_of_stat_error se.
Proof.
  intros H. destruct (os_stat (try_encode str_encode path)) as [se | st] eqn:Hst.
  - rewrite (determine_tar_file_size_stat_error _ _ Hst) in H.
    exists se. split; [reflexivity | congruence].
  - rewrite (determine_tar_file_size_ok _ _ Hst) in H. discriminate.
Qed.

(** C7: a name of exactly 100 bytes costs the header and the content only;
    a longer name costs one more header record and the name padded to whole
    records; a 200-byte name on an empty regular file comes to 1536. *)
Theorem C7_long_name_extension (path : pathlike) (st : stat_result) :
  os_stat (try_encode str_encode path) = inr st ->
  (len (try_encode str_encode path) = 100 ->
   determine_tar_file_size str_encode os_stat path = inr (512 + payload_cost st))
  /\ (100 < len (try_encode str_encode path) ->
      determine_tar_file_size str_encode os_stat path
      = inr (512 + (512 + 512 * ceil_div (len (try_encode str_encode path)) 512)
             + payload_cost st)
      /\ 512 * (ceil_div (len (try_encode str_encode path)) 512 - 1)
         < len (try_encode str_encode path) <= 512 * ceil_div (len (try_encode str_encode path)) 512)
  /\ (len (try_encode str_encode path) = 200 -> st = mkStat S_IFREG 0 ->
      determine_tar_file_size str_encode os_stat path = inr 1536).
Proof.
  intros Hst. rewrite (determine_tar_file_size_ok _ _ Hst).
  rewrite long_name_cost_spec. unfold spec_long_name_cost.
  split; [| split].
  - intros ->. reflexivity.
  - intros Hn. destruct (Z.gtb_spec (len (try_encode str_encode path)) 100) as [_ | Hle]; [| lia].
    split; [reflexivity | apply ceil_div_least; lia].
  - intros -> ->. reflexivity.
Qed.

End EstimatorFacts.

Lemma C7_long_name_extension_witness :
  fs_stat demo_fs (try_encode py_encode (PStr long_name)) = inr (mkStat S_IFREG 0)
  /\ len (try_encode py_encode (PStr long_name)) = 200
  /\ determine_tar_file_size py_encode (fs_stat demo_fs) (PStr long_name)
     = inr 1536
  /\ determine_tar_file_size py_encode (fs_stat demo_fs) (PStr name_of_100)
     = inr 512.
Proof.
  split; [reflexivity |]. split; [reflexivity |]. split.
  - apply (C7_long_name_extension py_encode (fs_stat demo_fs)
             (PStr long_name) (mkStat S_IFREG 0)); reflexivity.
  - apply (C7_long_name_extension py_encode (fs_stat demo_fs)
             (PStr name_of_100) (mkStat S_IFREG 0)); reflexivity.
Defined.

(** C1: on a regular file of one byte the estimate is the bare header, 512
    bytes: the content is charged [512 * floor(1 / 512) = 0], where the
    padded length [512 * ceil(1 / 512)] is one record. *)
Theorem C1_payload_is_rounded_down :
  fs_stat demo_fs (PBytes (list_byte_of_string "one")) = inr (mkStat S_IFREG 1)
  /\ determine_tar_file_size py_encode (fs_stat demo_fs)
       (PBytes (list_byte_of_string "one")) = inr 512
  /\ payload_cost (mkStat S_IFREG 1) = 0
  /\ spec_payload_cost S_IFREG 1 = 512.
Proof. repeat split. Qed.

(** A symbolic link to a regular file is charged the content of its
    target: [os.path.isfile] and [os.path.getsize] follow links. *)
Lemma symlink_is_charged_its_target :
  fs_lstat demo_fs (list_byte_of_string "link") = inr (mkStat S_IFLNK 5)
  /\ determine_tar_file_size py_encode (fs_stat demo_fs)
       (PBytes (list_byte_of_string "link")) = inr 1536
  /\ determine_tar_file_size py_encode (fs_stat demo_fs)
       (PBytes (list_byte_of_string "dir")) = inr 512.
Proof. repeat split. Qed.

(** ** Admission: [add_path] *)

Lemma run_step_fields (self : LimitTar) :
  _data_size (run_step self) = _data_size self
  /\ _bufsize (run_step self) = _bufsize self
  /\ _encoding (run_step self) = _encoding self
  /\ _size_limit (run_step self) = _size_limit self.
Proof.
  unfold run_step. destruct (is_alive self); [| auto].
  destruct (_path_queue self) as [| [path |] q]; auto.
  destruct (str_truthy path); auto.
Qed.

Lemma run_steps_fields (n : nat) (self : LimitTar) :
  _data_size (run_steps n self) = _data_size self
  /\ _bufsize (run_steps n self) = _bufsize self
  /\ _encoding (run_steps n self) = _encoding self
  /\ _size_limit (run_steps n self) = _size_limit self.
Proof.
  revert self. induction n as [| n IH]; intros self; simpl; [auto |].
  destruct (IH (run_step self)) as (H1 & H2 & H3 & H4).
  destruct (run_step_fields self) as (G1 & G2 & G3 & G4).
  repeat split; congruence.
Qed.

Section AdmissionFacts.

Variable str_encode : string -> string -> codec_error + bytes.
Variable os_stat : pathlike -> stat_error + stat_result.

Lemma add_path_cases (path : string) (self : LimitTar) :
  add_path str_encode os_stat path self
  = match path_cost str_encode os_stat (_encoding self) path with
    | inl e => (inl e, self)
    | inr tar_file_size =>
        match determine_tar_archive_size (_data_size self + tar_file_size)
                                         (_bufsize self) with
        | inl e => (inl e, self)
        | inr archive_size =>
            if limit_exceeded (_size_limit self) archive_size
            then (inl SizeLimitReached, self)
            else (inr tt, admitted path tar_file_size self)
        end
    end.
Proof.
  unfold add_path, path_cost, mbind, attr, lift, mraise, modify.
  destruct (encode_path str_encode (_encoding self) path) as [e | encoded];
    [reflexivity |].
  cbn [bind].
  destruct (determine_tar_file_size str_encode os_stat (PBytes encoded))
    as [e | tar_file_size]; [reflexivity |].
  destruct (determine_tar_archive_size (_data_size self + tar_file_size)
                                       (_bufsize self))
    as [e | archive_size]; [reflexivity |].
  destruct (limit_exceeded (_size_limit self) archive_size); reflexivity.
Qed.

Lemma determine_tar_archive_size_raises (t b : Z) (e : exn) :
  determine_tar_archive_size t b = inl e -> e = ZeroDivisionError.
Proof.
  unfold determine_tar_archive_size, truediv.
  destruct (b =? 0); cbn [bind raise ret]; unfold raise, ret; congruence.
Qed.

(** The exceptions of the codec and of [os.stat], the only ones the
    estimate of a path can raise. *)
Lemma path_cost_raises_class (encoding path : string) (e : exn) :
  path_cost str_encode os_stat encoding path = inl e ->
  (exists ce, e = exn_of_codec_error ce)
  \/ (exists se, e = exn_of_stat_error se).
Proof.
  unfold path_cost, encode_path.
  destruct (str_encode encoding path) as [ce | encoded]; cbn [bind raise ret].
  - unfold raise. intros H. injection H as <-. left. exists ce. reflexivity.
  - intros H. apply determine_tar_file_size_raises in H.
    destruct H as (se & _ & ->). right. exists se. reflexivity.
Qed.

Lemma path_cost_raises (encoding path : string) (e : exn) :
  path_cost str_encode os_stat encoding path = inl e ->
  e <> SizeLimitReached.
Proof.
  intros H. apply path_cost_raises_class in H.
  destruct H as [(ce & ->) | (se & ->)]; [destruct ce | destruct se];
    discriminate.
Qed.

Lemma add_path_raises (path : string) (self self' : LimitTar) (e : exn) :
  add_path str_encode os_stat path self = (inl e, self') ->
  e <> UnboundLocalError /\ self' = self.
Proof.
  rewrite add_path_cases.
  destruct (path_cost str_encode os_stat (_encoding self) path)
    as [e0 | n] eqn:Hc.
  - intros H. injection H as <- <-. split; [| reflexivity].
    apply path_cost_raises_class in Hc.
    destruct Hc as [(ce & ->) | (se & ->)]; [destruct ce | destruct se];
      discriminate.
  - destruct (determine_tar_archive_size (_data_size self + n) (_bufsize self))
      as [e0 | a] eqn:Ha.
    + intros H. injection H as <- <-. split; [| reflexivity].
      apply determine_tar_archive_size_raises in Ha. subst e0. discriminate.
    + destruct (limit_exceeded (_size_limit self) a); [| discriminate].
      intros H. injection H as <- <-. split; [discriminate | reflexivity].
Qed.

(** C3, as amended: when the size limit is set to a non-zero value and the
    candidate archive size exceeds it, [add_path] raises
    [SizeLimitReached] and leaves the session as it was: the payload total
    is unchanged and nothing is enqueued. *)
Theorem C3_rejection_leaves_session (self : LimitTar) (path : string)
        (limit archive_size : Z) :
  _size_limit self = Some limit -> limit <> 0 ->
  candidate_archive_size str_encode os_stat self path = inr archive_size ->
  limit < archive_size ->
  add_path str_encode os_stat path self = (inl SizeLimitReached, self).
Proof.
  intros Hl Hnz Hc Hgt. rewrite add_path_cases.
  unfold candidate_archive_size in Hc.
  destruct (path_cost str_encode os_stat (_encoding self) path)
    as [e | tar_file_size]; [discriminate |].
  cbn [bind] in Hc. rewrite Hc.
  unfold limit_exceeded, limit_truthy. rewrite Hl.
  destruct (Z.eqb_spec limit 0) as [-> | _]; [contradiction |].
  destruct (Z.gtb_spec archive_size limit) as [_ | Hle]; [reflexivity | lia].
Qed.

(** C10: with a size limit of 0 [add_path] never raises
    [SizeLimitReached]; it does what it does on a session without limit. *)
Theorem C10_zero_limit_is_no_limit (self : LimitTar) (path : string) :
  _size_limit self = Some 0 ->
  fst (add_path str_encode os_stat path self) <> inl SizeLimitReached
  /\ add_path str_encode os_stat path self
     = (fst (add_path str_encode os_stat path (set_size_limit None self)),
        set_size_limit (Some 0)
          (snd (add_path str_encode os_stat path (set_size_limit None self)))).
Proof.
  intros Hl. rewrite !add_path_cases. rewrite Hl.
  destruct self as [sl bs enc tar q ds alive]. simpl in Hl. subst sl.
  cbn [_encoding _data_size _bufsize _size_limit set_size_limit].
  destruct (path_cost str_encode os_stat enc path) as [e | tar_file_size] eqn:Hc.
  - split; [| reflexivity]. cbn [fst]. intros H. injection H as ->.
    exact (path_cost_raises _ _ _ Hc eq_refl).
  - destruct (determine_tar_archive_size (ds + tar_file_size) bs)
      as [e | archive_size] eqn:Ha.
    + split; [| reflexivity]. cbn [fst]. intros H. injection H as ->.
      apply determine_tar_archive_size_raises in Ha. discriminate.
    + cbn [limit_exceeded limit_truthy Z.eqb negb andb fst snd].
      split; [discriminate | reflexivity].
Qed.

Lemma add_path_stat_error (self : LimitTar) (path : string) (encoded : bytes)
      (e : stat_error) :
  encode_path str_encode (_encoding self) path = inr encoded ->
  os_stat (PBytes encoded) = inl e ->
  add_path str_encode os_stat path self = (inl (exn_of_stat_error e), self).
Proof.
  intros He Hst. rewrite add_path_cases.
  unfold path_cost. rewrite He. cbn [bind].
  rewrite (determine_tar_file_size_stat_error _ _ (PBytes encoded) e Hst).
  reflexivity.
Qed.

Lemma add_path_ok (self self' : LimitTar) (path : string) :
  add_path str_encode os_stat path self = (inr tt, self') ->
  exists n,
    path_cost str_encode os_stat (_encoding self) path = inr n
    /\ self' = admitted path n self.
Proof.
  rewrite add_path_cases.
  destruct (path_cost str_encode os_stat (_encoding self) path)
    as [e | n]; [discriminate |].
  destruct (determine_tar_archive_size (_data_size self + n) (_bufsize self))
    as [e | a]; [discriminate |].
  destruct (limit_exceeded (_size_limit self) a); [discriminate |].
  intros H. injection H as <-. exists n. split; reflexivity.
Qed.

Variable schedule : nat -> nat.

(** C4: after a run of successful admissions the payload total has grown
    by the sum of the estimates of the admitted paths, each of which was
    computed without error; on a session that started from zero it is that
    sum, and [size] is the archive size of that sum at the session's block
    size. *)
Theorem C4_total_is_sum_of_estimates (paths : list string) :
  forall (i : nat) (self self' : LimitTar),
  add_path_seq str_encode os_stat schedule i paths self = (inr tt, self') ->
  Forall (fun p => exists n,
            path_cost str_encode os_stat (_encoding self) p = inr n) paths
  /\ _data_size self'
     = _data_size self
       + sum_list (map (fun p => value_of (path_cost str_encode os_stat
                                             (_encoding self) p)) paths)
  /\ (_data_size self = 0 ->
      _data_size self'
      = sum_list (map (fun p => value_of (path_cost str_encode os_stat
                                            (_encoding self) p)) paths))
  /\ size self'
     = determine_tar_archive_size
         (_data_size self
          + sum_list (map (fun p => value_of (path_cost str_encode os_stat
                                                (_encoding self) p)) paths))
         (_bufsize self).
Proof.
  induction paths as [| path rest IH]; intros i self self' H.
  - simpl in H. injection H as <-. simpl.
    rewrite Z.add_0_r. repeat split; auto.
  - simpl in H.
    destruct (add_path str_encode os_stat path (run_steps (schedule i) self))
      as [[e | []] s1] eqn:Hadd; [discriminate |].
    apply add_path_ok in Hadd. destruct Hadd as (n & Hcost & ->).
    destruct (run_steps_fields (schedule i) self) as (G1 & G2 & G3 & G4).
    rewrite G3 in Hcost.
    apply IH in H. clear IH.
    cbn [admitted _encoding _data_size _bufsize set_data_size set_path_queue]
      in H.
    rewrite G1, G2, G3 in H.
    destruct H as (F & D & _ & S).
    assert (E : _data_size self'
                = _data_size self
                  + sum_list (map (fun p => value_of (path_cost str_encode
                                     os_stat (_encoding self) p))
                                  (path :: rest))).
    { rewrite D. simpl. rewrite Hcost. simpl. lia. }
    split; [| split; [| split]].
    + constructor; [exists n; exact Hcost | exact F].
    + exact E.
    + intros Z0. rewrite E, Z0. reflexivity.
    + rewrite S. f_equal. simpl. rewrite Hcost. simpl. lia.
Qed.

End AdmissionFacts.

(** ** The batch feeder: [add_paths] *)

Lemma run_steps_queue (n : nat) (self : LimitTar) :
  exists k, _path_queue (run_steps n self) = skipn k (_path_queue self).
Proof.
  revert self. induction n as [| n IH]; intros self; simpl.
  - exists 0%nat. reflexivity.
  - destruct (IH (run_step self)) as (k & Hk). rewrite Hk.
    unfold run_step. destruct (is_alive self); [| exists k; reflexivity].
    destruct (_path_queue self) as [| item q] eqn:Hq.
    + exists k. rewrite Hq. reflexivity.
    + exists (S k).
      destruct item as [path |]; [destruct (str_truthy path) |]; reflexivity.
Qed.

Section FeederFacts.

Variable str_encode : string -> string -> codec_error + bytes.
Variable os_stat : pathlike -> stat_error + stat_result.
Variable halt_on_size_limit_reached : bool.
Variable halt_on_underrun : bool.
Variable halt_on_os_error : bool.
Variable schedule : nat -> nat.

Lemma run_sched_fields (n : nat) :
  forall (i : nat) (self : LimitTar),
  _data_size (run_sched schedule i n self) = _data_size self
  /\ exists k,
       _path_queue (run_sched schedule i n self) = skipn k (_path_queue self).
Proof.
  induction n as [| n IH]; intros i self; simpl.
  - split; [reflexivity | exists 0%nat; reflexivity].
  - destruct (IH (S i) (run_steps (schedule i) self)) as (D & k & Q).
    destruct (run_steps_fields (schedule i) self) as (D' & _).
    destruct (run_steps_queue (schedule i) self) as (k' & Q').
    split; [congruence |].
    exists (k' + k)%nat. rewrite Q, Q', skipn_skipn. f_equal. lia.
Qed.

(** With [halt] set on entry the body hands the path back untouched. *)
Lemma add_paths_body_halted (i : nat) (path : string) (l : locals)
      (self : LimitTar) (e : exn) :
  halt l = true -> exception l = Some e ->
  add_paths_body str_encode os_stat halt_on_size_limit_reached
                 halt_on_underrun halt_on_os_error i path l self
  = (if str_truthy path then Remaining e else Skipped, l, self).
Proof.
  intros Hh He. unfold add_paths_body, yield_halted.
  destruct (str_truthy path); cbn [negb]; [| reflexivity].
  rewrite Hh, He. reflexivity.
Qed.

Lemma add_paths_loop_halted (paths : list string) :
  forall (i : nat) (l : locals) (self : LimitTar) (e : exn),
  halt l = true -> exception l = Some e ->
  add_paths_loop str_encode os_stat halt_on_size_limit_reached
                 halt_on_underrun halt_on_os_error schedule i paths l self
  = (passed_on e paths, l, run_sched schedule i (List.length paths) self).
Proof.
  induction paths as [| path rest IH]; intros i l self e Hh He.
  - reflexivity.
  - cbn [add_paths_loop]. rewrite (add_paths_body_halted _ _ _ _ e Hh He).
    rewrite (IH (S i) l (run_steps (schedule i) self) e Hh He).
    destruct (str_truthy path) eqn:Hp; simpl; rewrite Hp; reflexivity.
Qed.

Lemma yields_passed_on (e : exn) (paths : list string) :
  yields (passed_on e paths)
  = map (fun p => (p, e)) (filter str_truthy paths).
Proof.
  induction paths as [| path rest IH]; [reflexivity |].
  simpl. unfold yielded. simpl.
  destruct (str_truthy path); simpl; rewrite IH; reflexivity.
Qed.

Lemma passed_on_not_attempted (e : exn) (paths : list string) :
  Forall (fun pe => attempted (snd pe) = false) (passed_on e paths).
Proof.
  induction paths as [| path rest IH]; simpl; constructor; auto.
  simpl. destruct (str_truthy path); reflexivity.
Qed.

(** A rejected admission whose halt flag is on: the path is yielded with
    the exception that [add_path] raised, and [halt] is set. *)
Lemma add_paths_body_rejected_halts (i : nat) (path : string) (l : locals)
      (self self' : LimitTar) (e : exn) :
  str_truthy path = true -> halt l = false ->
  add_path str_encode os_stat path self = (inl e, self') ->
  (e = SizeLimitReached /\ halt_on_size_limit_reached = true)
  \/ (is_OSError e = true /\ halt_on_os_error = true) ->
  add_paths_body str_encode os_stat halt_on_size_limit_reached
                 halt_on_underrun halt_on_os_error i path l self
  = (Rejected e, mkLocals true (Some e), self').
Proof.
  intros Hp Hh Hadd Hflag. unfold add_paths_body.
  rewrite Hp, Hh, Hadd. cbn [negb].
  destruct Hflag as [[-> ->] | [Ho ->]].
  - reflexivity.
  - destruct e; try discriminate. reflexivity.
Qed.

(** Before the twelfth item the underrun test is off. *)
Lemma underrun_check_early (i : nat) (l : locals) (self : LimitTar) :
  (i <= 10)%nat -> underrun_check halt_on_underrun i l self = l.
Proof.
  intros Hi. unfold underrun_check.
  destruct (Nat.ltb_spec 10 i) as [H | _]; [lia | reflexivity].
Qed.

(** The scenario of the specification, for any three non-empty paths. *)
Lemma add_paths_scenario (a b c : string) (self s1 s2 : LimitTar) :
  str_truthy a = true -> str_truthy b = true -> str_truthy c = true ->
  halt_on_size_limit_reached = true ->
  add_path str_encode os_stat a (run_steps (schedule 0) self) = (inr tt, s1) ->
  add_path str_encode os_stat b (run_steps (schedule 1) s1)
  = (inl SizeLimitReached, s2) ->
  add_paths_trace str_encode os_stat halt_on_size_limit_reached
                  halt_on_underrun halt_on_os_error schedule [a; b; c] self
  = ([(a, Added); (b, Rejected SizeLimitReached);
      (c, Remaining SizeLimitReached)],
     mkLocals true (Some SizeLimitReached),
     run_steps (schedule 2) s2)
  /\ add_paths str_encode os_stat halt_on_size_limit_reached
               halt_on_underrun halt_on_os_error schedule [a; b; c] self
     = ([(b, SizeLimitReached); (c, SizeLimitReached)],
        run_steps (schedule 2) s2).
Proof.
  intros Ha Hb Hc Hflag Hadd_a Hadd_b.
  assert (T : add_paths_trace str_encode os_stat halt_on_size_limit_reached
                halt_on_underrun halt_on_os_error schedule [a; b; c] self
              = ([(a, Added); (b, Rejected SizeLimitReached);
                  (c, Remaining SizeLimitReached)],
                 mkLocals true (Some SizeLimitReached),
                 run_steps (schedule 2) s2)).
  { unfold add_paths_trace. cbn [add_paths_loop].
    unfold add_paths_body at 1. rewrite Ha. cbn [negb halt].
    rewrite underrun_check_early by lia. rewrite Hadd_a.
    rewrite (add_paths_body_rejected_halts 1 b (mkLocals false None) _ s2
               SizeLimitReached Hb
               eq_refl Hadd_b (or_introl (conj eq_refl Hflag))).
    rewrite (add_paths_body_halted 2 c (mkLocals true (Some SizeLimitReached))
               _ SizeLimitReached eq_refl eq_refl).
    rewrite Hc. reflexivity. }
  split; [exact T |].
  unfold add_paths. rewrite T. reflexivity.
Qed.

(** An underrun does not keep the current path out: when it fits it is
    admitted, and only the paths after it are handed back. *)
Lemma add_paths_body_underrun_admits (i : nat) (path : string) (l : locals)
      (self self' : LimitTar) :
  (10 < i)%nat -> halt_on_underrun = true -> queue_empty self = true ->
  str_truthy path = true -> halt l = false ->
  add_path str_encode os_stat path self = (inr tt, self') ->
  add_paths_body str_encode os_stat halt_on_size_limit_reached
                 halt_on_underrun halt_on_os_error i path l self
  = (Added, mkLocals true (Some Underrun), self').
Proof.
  intros Hi Hu Hq Hp Hh Hadd. unfold add_paths_body, underrun_check.
  rewrite Hp, Hh, Hu, Hq, Hadd.
  destruct (Nat.ltb_spec 10 i) as [_ | H]; [reflexivity | lia].
Qed.

(** The body keeps [exception] bound where [halt] is set, and so never
    raises [UnboundLocalError]. *)
Lemma add_paths_body_locals_ok (i : nat) (path : string) (l : locals)
      (self : LimitTar) :
  locals_ok l ->
  locals_ok (snd (fst (add_paths_body str_encode os_stat
                         halt_on_size_limit_reached halt_on_underrun
                         halt_on_os_error i path l self)))
  /\ fst (fst (add_paths_body str_encode os_stat
                 halt_on_size_limit_reached halt_on_underrun
                 halt_on_os_error i path l self))
     <> Uncaught UnboundLocalError.
Proof.
  intros Hl. unfold add_paths_body.
  destruct (str_truthy path); cbn [negb]; [| split; [exact Hl | discriminate]].
  destruct (halt l) eqn:Hh; cbn [negb].
  - destruct (Hl Hh) as (e & He). unfold yield_halted. rewrite He.
    split; [exact Hl | discriminate].
  - assert (Hu : locals_ok (underrun_check halt_on_underrun i l self)).
    { unfold underrun_check.
      destruct ((10 <? i)%nat && halt_on_underrun && queue_empty self);
        [intros _; exists Underrun; reflexivity | exact Hl]. }
    destruct (add_path str_encode os_stat path self) as [[e | u] self']
      eqn:Hadd.
    + apply add_path_raises in Hadd. destruct Hadd as (Hne & _).
      destruct e; cbn [is_SizeLimitReached is_OSError fst snd yield_caught
                       exception];
        try (split; [exact Hu | congruence]);
        (split; [intros _; eexists; reflexivity | discriminate]).
    + split; [exact Hu | discriminate].
Qed.

Lemma add_paths_loop_never_unbound (paths : list string) :
  forall (i : nat) (l : locals) (self : LimitTar) (p : string),
  locals_ok l ->
  ~ In (p, Uncaught UnboundLocalError)
       (fst (fst (add_paths_loop str_encode os_stat
                    halt_on_size_limit_reached halt_on_underrun
                    halt_on_os_error schedule i paths l self))).
Proof.
  induction paths as [| path rest IH]; intros i l self p Hl; [intros [] |].
  cbn [add_paths_loop].
  destruct (add_paths_body_locals_ok i path l (run_steps (schedule i) self) Hl)
    as (Hl' & Hev).
  destruct (add_paths_body str_encode os_stat halt_on_size_limit_reached
              halt_on_underrun halt_on_os_error i path l
              (run_steps (schedule i) self)) as [[ev l'] self'].
  cbn [fst snd] in Hl', Hev.
  specialize (IH (S i) l' self' p Hl').
  destruct (add_paths_loop str_encode os_stat halt_on_size_limit_reached
              halt_on_underrun halt_on_os_error schedule (S i) rest l' self')
    as [[evs l''] self''].
  cbn [fst] in IH.
  destruct ev; cbn [fst In];
    intros [H | H]; try (injection H as _ H'); try congruence; try (exact (IH H));
    try contradiction.
Qed.

(** X23: once [halt] is set at the start of an iteration, every non-empty
    path from there on is yielded, in input order and with the exception
    recorded when the feeder halted, without a call of [add_path]: the
    payload total is unchanged and nothing is enqueued.  A path whose
    rejected admission sets [halt] was itself attempted and is yielded with
    the exception it raised.  With [halt_on_size_limit_reached] on, feeding
    a path that fits, one that exceeds the limit and a third one yields the
    second and the third, in that order, the third without an attempt. *)
Theorem X23_halted_feeder_hands_back :
  (forall (paths : list string) (i : nat) (l : locals) (self : LimitTar)
          (e : exn),
      halt l = true -> exception l = Some e ->
      exists trace self',
        add_paths_loop str_encode os_stat halt_on_size_limit_reached
                       halt_on_underrun halt_on_os_error schedule
                       i paths l self
        = (trace, l, self')
        /\ yields trace = map (fun p => (p, e)) (filter str_truthy paths)
        /\ Forall (fun pe => attempted (snd pe) = false) trace
        /\ _data_size self' = _data_size self
        /\ exists k, _path_queue self' = skipn k (_path_queue self))
  /\ (forall (i : nat) (path : string) (l : locals) (self self' : LimitTar)
             (e : exn),
         str_truthy path = true -> halt l = false ->
         add_path str_encode os_stat path self = (inl e, self') ->
         (e = SizeLimitReached /\ halt_on_size_limit_reached = true)
         \/ (is_OSError e = true /\ halt_on_os_error = true) ->
         add_paths_body str_encode os_stat halt_on_size_limit_reached
                        halt_on_underrun halt_on_os_error i path l self
         = (Rejected e, mkLocals true (Some e), self')
         /\ attempted (Rejected e) = true
         /\ yielded (path, Rejected e) = Some (path, e))
  /\ (forall (a b c : string) (self s1 s2 : LimitTar),
         str_truthy a = true -> str_truthy b = true -> str_truthy c = true ->
         halt_on_size_limit_reached = true ->
         add_path str_encode os_stat a (run_steps (schedule 0) self)
         = (inr tt, s1) ->
         add_path str_encode os_stat b (run_steps (schedule 1) s1)
         = (inl SizeLimitReached, s2) ->
         add_paths_trace str_encode os_stat halt_on_size_limit_reached
                         halt_on_underrun halt_on_os_error schedule
                         [a; b; c] self
         = ([(a, Added); (b, Rejected SizeLimitReached);
             (c, Remaining SizeLimitReached)],
            mkLocals true (Some SizeLimitReached),
            run_steps (schedule 2) s2)
         /\ add_paths str_encode os_stat halt_on_size_limit_reached
                      halt_on_underrun halt_on_os_error schedule [a; b; c] self
            = ([(b, SizeLimitReached); (c, SizeLimitReached)],
               run_steps (schedule 2) s2)).
Proof.
  split; [| split].
  - intros paths i l self e Hh He.
    exists (passed_on e paths), (run_sched schedule i (List.length paths) self).
    destruct (run_sched_fields (List.length paths) i self) as (D & Q).
    repeat split.
    + apply add_paths_loop_halted; assumption.
    + apply yields_passed_on.
    + apply passed_on_not_attempted.
    + exact D.
    + exact Q.
  - intros i path l self self' e Hp Hh Hadd Hflag.
    split; [| split; reflexivity].
    apply add_paths_body_rejected_halts; assumption.
  - intros a b c self s1 s2. apply add_paths_scenario.
Qed.

(** C9: when [os.stat] raises [OSError] for a path, whatever kind of entry
    it was meant to be, the estimate raises that error; [add_path] raises
    it and leaves the session untouched; and the feeder yields the path
    with that error. *)
Theorem C9_missing_path_raises (path : pathlike) (errno : Z) :
  os_stat (try_encode str_encode path) = inl (StatOSError errno) ->
  determine_tar_file_size str_encode os_stat path = inl (OSError errno)
  /\ (forall (self : LimitTar) (name : string) (encoded : bytes),
        encode_path str_encode (_encoding self) name = inr encoded ->
        path = PBytes encoded ->
        add_path str_encode os_stat name self = (inl (OSError errno), self)
        /\ forall (i : nat) (l : locals),
             str_truthy name = true -> halt l = false ->
             exists l',
               add_paths_body str_encode os_stat halt_on_size_limit_reached
                              halt_on_underrun halt_on_os_error i name l self
               = (Rejected (OSError errno), l', self)
               /\ exception l' = Some (OSError errno)
               /\ (halt_on_os_error = true -> halt l' = true)).
Proof.
  intros Hst. split.
  - apply (determine_tar_file_size_stat_error _ _ _ _ Hst).
  - intros self name encoded He ->.
    assert (A : add_path str_encode os_stat name self
                = (inl (OSError errno), self)).
    { apply (add_path_stat_error _ _ self name encoded (StatOSError errno) He).
      exact Hst. }
    split; [exact A |].
    intros i l Hp Hh. unfold add_paths_body.
    rewrite Hp, Hh, A. cbn [negb is_SizeLimitReached is_OSError].
    eexists. split; [reflexivity |]. split; [reflexivity |].
    intros ->. reflexivity.
Qed.

End FeederFacts.

(** ** The statements on the scenario data *)

(** A name with no entry in the file system, free of null bytes, is
    reported missing by [os.stat]. *)
Lemma fs_stat_missing (fs : filesystem) (name : bytes) :
  has_nul name = false -> fs_lookup fs name = None ->
  fs_stat fs (PBytes name) = inl (StatOSError ENOENT).
Proof.
  intros Hn Hl. unfold fs_stat, fs_stat_bytes. rewrite Hn.
  destruct name as [| b name']; [reflexivity |].
  unfold MAXSYMLINKS. cbn [fs_follow]. rewrite Hl. reflexivity.
Qed.

Lemma C3_rejection_leaves_session_witness :
  (_size_limit one_block_session = Some 10240
   /\ 10240 <> 0
   /\ candidate_archive_size py_encode (fs_stat demo_fs) one_block_session
        "fileB" = inr 30720
   /\ 10240 < 30720)
  /\ add_path py_encode (fs_stat demo_fs) "fileB" one_block_session
     = (inl SizeLimitReached, one_block_session).
Proof.
  split.
  - repeat split; [discriminate].
  - apply (C3_rejection_leaves_session py_encode (fs_stat demo_fs)
             one_block_session "fileB" 10240 30720);
      [reflexivity | discriminate | reflexivity | reflexivity].
Defined.

(** C3, as stated, fails on a limit of zero: the limit is set, the
    candidate archive size of 10240 exceeds it, and [add_path] admits the
    file, raising the payload total from 0 to 1536. *)
Lemma C3_counterexample_zero_limit :
  _size_limit zero_limit_session = Some 0
  /\ candidate_archive_size py_encode (fs_stat demo_fs) zero_limit_session
       "fileA" = inr 10240
  /\ 0 < 10240
  /\ add_path py_encode (fs_stat demo_fs) "fileA" zero_limit_session
     = (inr tt, admitted "fileA" 1536 zero_limit_session)
  /\ _data_size zero_limit_session = 0
  /\ _data_size (admitted "fileA" 1536 zero_limit_session) = 1536
  /\ _path_queue (admitted "fileA" 1536 zero_limit_session)
     = [Some "fileA"%string].
Proof. repeat split. Qed.

Lemma C10_zero_limit_is_no_limit_witness :
  _size_limit zero_limit_session = Some 0
  /\ fst (add_path py_encode (fs_stat demo_fs) "fileB" zero_limit_session)
     <> inl SizeLimitReached
  /\ add_path py_encode (fs_stat demo_fs) "fileB" zero_limit_session
     = (inr tt, admitted "fileB" 20480 zero_limit_session).
Proof.
  split; [reflexivity |].
  destruct (C10_zero_limit_is_no_limit py_encode (fs_stat demo_fs)
              zero_limit_session "fileB" eq_refl) as (H1 & H2).
  split; [exact H1 | exact H2].
Defined.

Lemma C4_total_is_sum_of_estimates_witness :
  add_path_seq py_encode (fs_stat demo_fs) idle_worker 0
    ["fileA"; "fileC"; "empty"]%string one_block_session
  = (inr tt,
     admitted "empty" 512
       (admitted "fileC" 1024 (admitted "fileA" 1536 one_block_session)))
  /\ _data_size (admitted "empty" 512
                   (admitted "fileC" 1024
                      (admitted "fileA" 1536 one_block_session)))
     = 1536 + 1024 + 512
  /\ size (admitted "empty" 512
             (admitted "fileC" 1024 (admitted "fileA" 1536 one_block_session)))
     = determine_tar_archive_size (1536 + 1024 + 512) 10240.
Proof.
  split; [reflexivity |].
  destruct (C4_total_is_sum_of_estimates py_encode (fs_stat demo_fs)
              idle_worker ["fileA"; "fileC"; "empty"]%string 0
              one_block_session
              (admitted "empty" 512
                 (admitted "fileC" 1024
                    (admitted "fileA" 1536 one_block_session)))
              eq_refl) as (_ & _ & H3 & H4).
  split; [exact (H3 eq_refl) | exact H4].
Defined.

Lemma X23_halted_feeder_hands_back_witness :
  add_paths_trace py_encode (fs_stat demo_fs) true false false idle_worker
    ["fileA"; "fileB"; "fileC"]%string one_block_session
  = ([("fileA"%string, Added); ("fileB"%string, Rejected SizeLimitReached);
      ("fileC"%string, Remaining SizeLimitReached)],
     mkLocals true (Some SizeLimitReached),
     admitted "fileA" 1536 one_block_session)
  /\ add_paths py_encode (fs_stat demo_fs) true false false idle_worker
       ["fileA"; "fileB"; "fileC"]%string one_block_session
     = ([("fileB"%string, SizeLimitReached);
         ("fileC"%string, SizeLimitReached)],
        admitted "fileA" 1536 one_block_session).
Proof.
  apply (proj2 (proj2 (X23_halted_feeder_hands_back py_encode (fs_stat demo_fs)
                         true false false idle_worker))
           "fileA"%string "fileB"%string "fileC"%string one_block_session
           (admitted "fileA" 1536 one_block_session)
           (admitted "fileA" 1536 one_block_session));
    reflexivity.
Defined.

(** C5: the path on which an underrun sets [halt] is not handed back.  At
    index 11, with [halt_on_underrun] on and the queue empty, [halt] goes
    from false to true in the iteration of [fileB]; [add_path] is called
    all the same, and [fileB] is queued and counted, not yielded.  The two
    paths after it are yielded with [Underrun]. *)
Theorem C5_underrun_path_is_not_handed_back :
  halt (fst before_handover) = false
  /\ queue_empty (snd before_handover) = true
  /\ add_paths_body py_encode (fs_stat demo_fs) false true false 11 "fileB"
       (fst before_handover) (snd before_handover)
     = (Added, mkLocals true (Some Underrun),
        admitted "fileB" 20480 (snd before_handover))
  /\ attempted Added = true
  /\ yielded ("fileB"%string, Added) = None
  /\ fst (add_paths py_encode (fs_stat demo_fs) false true false
            eager_worker handover_paths unlimited_session)
     = [("fileC"%string, Underrun); ("fileA"%string, Underrun)]
  /\ _tar (snd (add_paths py_encode (fs_stat demo_fs) false true false
                  eager_worker handover_paths unlimited_session))
     = repeat "fileA"%string 11 ++ ["fileB"%string]
  /\ _data_size (snd (add_paths py_encode (fs_stat demo_fs) false true false
                        eager_worker handover_paths unlimited_session))
     = 11 * 1536 + 20480.
Proof. repeat (split; [vm_compute; reflexivity |]). vm_compute; reflexivity. Qed.

(** C6: at index 11, with [halt_on_underrun] on and the queue empty, the
    feeder sets [halt] and records [Underrun], then calls [add_path] all the
    same: [fileA] is admitted and is not yielded; only the path after it
    comes back with [Underrun]. *)
Theorem C6_underrun_admits_current_path :
  queue_empty after_warm_up = true
  /\ add_paths_body py_encode (fs_stat demo_fs) false true false 11 "fileA"
       (mkLocals false None) after_warm_up
     = (Added, mkLocals true (Some Underrun),
        admitted "fileA" 1536 after_warm_up)
  /\ fst (fst (add_paths_trace py_encode (fs_stat demo_fs) false true false
                 eager_worker underrun_paths unlimited_session))
     = map (fun p => (p, Added)) (repeat "fileC"%string 11 ++ ["fileA"%string])
       ++ [("fileC"%string, Remaining Underrun)]
  /\ fst (add_paths py_encode (fs_stat demo_fs) false true false
            eager_worker underrun_paths unlimited_session)
     = [("fileC"%string, Underrun)]
  /\ _tar (snd (add_paths py_encode (fs_stat demo_fs) false true false
                  eager_worker underrun_paths unlimited_session))
     = repeat "fileC"%string 11 ++ ["fileA"%string].
Proof. repeat (split; [vm_compute; reflexivity |]). vm_compute; reflexivity. Qed.

Lemma C9_missing_path_raises_witness :
  fs_stat demo_fs (try_encode py_encode (PBytes (list_byte_of_string "nowhere")))
  = inl (StatOSError ENOENT)
  /\ determine_tar_file_size py_encode (fs_stat demo_fs)
       (PBytes (list_byte_of_string "nowhere")) = inl (OSError ENOENT)
  /\ add_path py_encode (fs_stat demo_fs) "nowhere" one_block_session
     = (inl (OSError ENOENT), one_block_session)
  /\ fs_lstat demo_fs (list_byte_of_string "dangling")
     = inr (mkStat S_IFLNK 4)
  /\ determine_tar_file_size py_encode (fs_stat demo_fs)
       (PBytes (list_byte_of_string "dangling")) = inl (OSError ENOENT).
Proof.
  split; [reflexivity |].
  destruct (C9_missing_path_raises py_encode (fs_stat demo_fs) false false false
              (PBytes (list_byte_of_string "nowhere")) ENOENT eq_refl)
    as (H1 & H2).
  split; [exact H1 |].
  split; [exact (proj1 (H2 one_block_session "nowhere"%string
                          (list_byte_of_string "nowhere") eq_refl eq_refl)) |].
  split; [reflexivity |].
  exact (proj1 (C9_missing_path_raises py_encode (fs_stat demo_fs)
                  false false false
                  (PBytes (list_byte_of_string "dangling")) ENOENT eq_refl)).
Defined.

(** * Further properties of the code *)

(** ** The estimate of one file *)

Lemma fs_follow_nonneg (fs : filesystem) :
  fs_sizes_nonneg fs = true ->
  forall (fuel : nat) (name : bytes) (st : stat_result),
  fs_follow fuel fs name = inr st -> 0 <= st_size st.
Proof.
  intros Hfs.
  assert (L : forall name i, fs_lookup fs name = Some i ->
                match i with Node st => 0 <= st_size st | Link _ => True end).
  { unfold fs_sizes_nonneg in Hfs. induction fs as [| [n i] fs' IH];
      intros name j Hl; [discriminate |].
    simpl in Hfs. apply andb_true_iff in Hfs. destruct Hfs as (H1 & H2).
    simpl in Hl. destruct (bytes_eqb n name).
    - injection Hl as <-. simpl in H1. destruct i; [lia | exact I].
    - exact (IH H2 name j Hl). }
  induction fuel as [| fuel IH]; intros name st H; simpl in H.
  - destruct (fs_lookup fs name) as [[st' | t] |] eqn:Hl; try discriminate.
    injection H as <-. exact (L _ _ Hl).
  - destruct (fs_lookup fs name) as [[st' | t] |] eqn:Hl; try discriminate.
    + injection H as <-. exact (L _ _ Hl).
    + exact (IH _ _ H).
Qed.

Lemma fs_stat_sizes_nonneg (fs : filesystem) :
  fs_sizes_nonneg fs = true -> stat_sizes_nonneg (fs_stat fs).
Proof.
  intros Hfs p st H. unfold fs_stat, fs_stat_bytes in H.
  destruct p as [s | b].
  - destruct (has_nul (utf8_encode s)); [discriminate |].
    destruct (utf8_encode s); [discriminate |].
    exact (fs_follow_nonneg fs Hfs _ _ _ H).
  - destruct (has_nul b); [discriminate |].
    destruct b; [discriminate |].
    exact (fs_follow_nonneg fs Hfs _ _ _ H).
Qed.

Lemma long_name_cost_records (n : Z) :
  0 <= n -> exists k, 0 <= k /\ long_name_cost n = 512 * k.
Proof.
  intros Hn. rewrite long_name_cost_spec. unfold spec_long_name_cost.
  destruct (Z.gtb_spec n 100) as [Hgt | _].
  - exists (1 + ceil_div n 512). split; [| lia].
    assert (H := ceil_div_least n 512 ltac:(lia)). lia.
  - exists 0. split; lia.
Qed.

Lemma payload_cost_records (st : stat_result) :
  0 <= st_size st ->
  exists k, 0 <= k /\ payload_cost st = 512 * k
            /\ (S_ISREG (st_mode st) = true ->
                512 * k <= st_size st < 512 * k + 512).
Proof.
  intros Hn. destruct st as [t n]. simpl in Hn.
  destruct (S_ISREG t) eqn:Ht.
  - destruct t; try discriminate. rewrite payload_cost_regular by assumption.
    exists (n / 512). simpl st_size.
    assert (H1 := Z.div_mod n 512 ltac:(lia)).
    assert (H2 := Z.mod_pos_bound n 512 ltac:(lia)).
    assert (H3 : 0 <= n / 512) by (apply Z.div_pos; lia).
    repeat split; lia.
  - rewrite payload_cost_not_regular by exact Ht.
    exists 0. split; [lia |]. split; [lia |].
    simpl st_mode. rewrite Ht. discriminate.
Qed.

Section EstimatorBinary64Facts.

Variable str_encode : string -> string -> codec_error + bytes.
Variable os_stat : pathlike -> stat_error + stat_result.

(** With a name and a content of fewer than [2 ^ 53] bytes the estimate of
    a file is the one computed with exact quotients. *)
Lemma determine_tar_file_size_binary64_exact (path : pathlike)
      (st : stat_result) :
  os_stat (try_encode str_encode path) = inr st ->
  0 <= st_size st < 2 ^ 53 ->
  len (try_encode str_encode path) < 2 ^ 53 ->
  determine_tar_file_size_binary64 str_encode os_stat path
  = inr (512 + long_name_cost (len (try_encode str_encode path))
         + payload_cost st).
Proof.
  intros Hst Hn Hl. unfold determine_tar_file_size_binary64.
  rewrite long_name_cost_spec. unfold spec_long_name_cost.
  unfold os_path_getsize, os_path_isfile. rewrite Hst. cbn [ret].
  set (n := len (try_encode str_encode path)) in *.
  assert (S1 : (if n >? 100
                then match truediv_binary64 n 512 with
                     | inl e => inl e
                     | inr q => inr (512 + (512 + 512 * ceil_binary64 q))
                     end
                else inr 512)
               = (inr (512 + (if n >? 100 then 512 + 512 * ceil_div n 512 else 0))
                  : exn64 + Z)).
  { destruct (Z.gtb_spec n 100) as [G | G]; [| reflexivity].
    destruct (truediv_binary64_512 n ltac:(lia)) as (x & E & _ & C).
    rewrite E, C. reflexivity. }
  rewrite S1. destruct st as [t s]. cbn [st_size st_mode] in *.
  destruct (S_ISREG t) eqn:Ht.
  - destruct t; try discriminate.
    rewrite payload_cost_regular by lia.
    destruct (Z.eq_dec s 0) as [-> | Hs].
    + rewrite truediv_binary64_zero by lia. reflexivity.
    + destruct (truediv_binary64_512 s ltac:(lia)) as (x & E & I & _).
      rewrite E, I. reflexivity.
  - rewrite payload_cost_not_regular by exact Ht.
    rewrite Z.add_0_r. reflexivity.
Qed.

End EstimatorBinary64Facts.

Section EstimateShape.

Variable str_encode : string -> string -> codec_error + bytes.
Variable os_stat : pathlike -> stat_error + stat_result.

(** X1: whenever the stat succeeds with a size that is not negative, and
    the name and the content have fewer than [2 ^ 53] bytes, the estimate
    is a whole number of 512-byte records, at least one; for a regular
    file it is the header, the long-name records and the largest multiple
    of 512 that does not exceed the length of the file.  The binary64
    quotients of lines 71 and 78 and the exact ones give the same
    estimate. *)
Theorem X1_estimate_is_whole_records (path : pathlike) (st : stat_result) :
  os_stat (try_encode str_encode path) = inr st ->
  0 <= st_size st < 2 ^ 53 ->
  len (try_encode str_encode path) < 2 ^ 53 ->
  exists records content,
    determine_tar_file_size_binary64 str_encode os_stat path
    = inr (512 * records)
    /\ determine_tar_file_size str_encode os_stat path = inr (512 * records)
    /\ 1 <= records
    /\ 512 * records
       = 512 + long_name_cost (len (try_encode str_encode path)) + content
    /\ (S_ISREG (st_mode st) = true ->
        content mod 512 = 0 /\ content <= st_size st < content + 512)
    /\ (S_ISREG (st_mode st) = false -> content = 0).
Proof.
  intros Hst Hn Hl.
  rewrite (determine_tar_file_size_binary64_exact _ _ _ _ Hst Hn Hl).
  rewrite (determine_tar_file_size_ok _ _ _ _ Hst).
  assert (Hlen : 0 <= len (try_encode str_encode path)).
  { destruct (try_encode str_encode path); simpl; lia. }
  destruct (long_name_cost_records _ Hlen) as (k1 & Hk1 & E1).
  destruct (payload_cost_records st ltac:(lia)) as (k2 & Hk2 & E2 & B2).
  exists (1 + k1 + k2), (payload_cost st).
  split; [f_equal; lia |]. split; [f_equal; lia |].
  split; [lia |]. split; [lia |]. split.
  - intros Hreg. specialize (B2 Hreg). rewrite E2. split; [| lia].
    rewrite Z.mul_comm. apply Z.mod_mul. lia.
  - intros Hreg. apply payload_cost_not_regular. exact Hreg.
Qed.

End EstimateShape.

Lemma X1_estimate_is_whole_records_witness :
  (fs_stat demo_fs (try_encode py_encode (PStr "fileB")) = inr (mkStat S_IFREG 20000)
   /\ 0 <= st_size (mkStat S_IFREG 20000) < 2 ^ 53
   /\ len (try_encode py_encode (PStr "fileB")) < 2 ^ 53)
  /\ exists records content,
       determine_tar_file_size_binary64 py_encode (fs_stat demo_fs)
         (PStr "fileB")
       = inr (512 * records)
       /\ determine_tar_file_size py_encode (fs_stat demo_fs) (PStr "fileB")
          = inr (512 * records)
       /\ 1 <= records
       /\ 512 * records
          = 512 + long_name_cost (len (try_encode py_encode (PStr "fileB")))
            + content
       /\ (S_ISREG S_IFREG = true ->
           content mod 512 = 0 /\ content <= 20000 < content + 512)
       /\ (S_ISREG S_IFREG = false -> content = 0).
Proof.
  split; [split; [reflexivity | split; [simpl; lia | vm_compute; reflexivity]] |].
  apply (X1_estimate_is_whole_records py_encode (fs_stat demo_fs)
           (PStr "fileB") (mkStat S_IFREG 20000));
    [reflexivity | simpl; lia | vm_compute; reflexivity].
Defined.

(** X24: with the binary64 quotient of line 93 and a positive block size,
    the archive size estimate does not decrease when the payload total
    grows, as long as the quotient stays below [2 ^ 1023]; and with no
    payload it is one block for a block size from 1024 up to, and not
    including, [2 ^ 1085]. *)
Theorem X24_binary64_estimate_monotone (total total' block_size : Z) :
  0 <= total -> total <= total' -> 0 < block_size ->
  total' + 2 * 512 < 2 ^ 1023 * block_size ->
  (exists s s',
      determine_tar_archive_size_binary64 total block_size = inr s
      /\ determine_tar_archive_size_binary64 total' block_size = inr s'
      /\ s <= s')
  /\ (1024 <= block_size -> block_size < 2 ^ 1085 ->
      determine_tar_archive_size_binary64 0 block_size = inr block_size).
Proof.
  intros Ht Hle Hb Hu. split.
  - unfold determine_tar_archive_size_binary64.
    destruct (truediv_binary64_returns (total' + 512 * 2) block_size)
      as (x' & E'); [lia | exact Hb | lia |].
    destruct (truediv_binary64_mono (total + 512 * 2) (total' + 512 * 2)
                block_size x') as (x & E & C); [lia | lia | exact Hb | exact E' |].
    rewrite E, E'.
    exists (block_size * ceil_binary64 x), (block_size * ceil_binary64 x').
    split; [reflexivity |]. split; [reflexivity |].
    apply Z.mul_le_mono_nonneg_l; lia.
  - intros Hk Hm.
    rewrite determine_tar_archive_size_binary64_exact.
    + rewrite estimate_archive_size_zero by assumption. reflexivity.
    + lia.
    + vm_compute. reflexivity.
    + exact Hb.
    + change ((0 + 2 * 512) * 2 ^ 1075) with (2 ^ 1085). exact Hm.
Qed.

Lemma X24_binary64_estimate_monotone_witness :
  (0 <= 2 ^ 53 /\ 2 ^ 53 <= 2 ^ 53 + 1 /\ 0 < 512
   /\ 2 ^ 53 + 1 + 2 * 512 < 2 ^ 1023 * 512)
  /\ (exists s s',
        determine_tar_archive_size_binary64 (2 ^ 53) 512 = inr s
        /\ determine_tar_archive_size_binary64 (2 ^ 53 + 1) 512 = inr s'
        /\ s <= s')
  /\ determine_tar_archive_size_binary64 0 10240 = inr 10240.
Proof.
  split; [repeat split; vm_compute; congruence |].
  split.
  - apply (X24_binary64_estimate_monotone (2 ^ 53) (2 ^ 53 + 1) 512);
      vm_compute; congruence.
  - apply (X24_binary64_estimate_monotone 0 0 10240);
      vm_compute; congruence.
Defined.

(** ** The session under [add_path] and the worker *)

Lemma run_steps_account (n : nat) (self : LimitTar) :
  account (run_steps n self) = account self.
Proof.
  unfold account. destruct (run_steps_fields n self) as (H1 & H2 & H3 & H4).
  rewrite H1, H2, H3, H4. reflexivity.
Qed.

Lemma size_account (s1 s2 : LimitTar) :
  account s1 = account s2 -> size s1 = size s2.
Proof.
  unfold account, size. intros H. injection H as _ Hb _ Hd.
  rewrite Hb, Hd. reflexivity.
Qed.

Lemma run_step_pending (self : LimitTar) :
  is_alive self = true -> forallb item_truthy (_path_queue self) = true ->
  pending (run_step self) = pending self
  /\ is_alive (run_step self) = true
  /\ forallb item_truthy (_path_queue (run_step self)) = true.
Proof.
  intros Ha Hq. unfold run_step. rewrite Ha.
  destruct (_path_queue self) as [| item q] eqn:E.
  - rewrite E. auto.
  - simpl in Hq. apply andb_true_iff in Hq. destruct Hq as (Hi & Hq).
    destruct item as [path |]; [| discriminate]. simpl in Hi. rewrite Hi.
    unfold pending. simpl. rewrite E.
    rewrite map_app, <- app_assoc. simpl. auto.
Qed.

Lemma run_steps_pending (n : nat) :
  forall self : LimitTar,
  is_alive self = true -> forallb item_truthy (_path_queue self) = true ->
  pending (run_steps n self) = pending self
  /\ is_alive (run_steps n self) = true
  /\ forallb item_truthy (_path_queue (run_steps n self)) = true.
Proof.
  induction n as [| n IH]; intros self Ha Hq; simpl; [auto |].
  destruct (run_step_pending self Ha Hq) as (P & A & Q).
  destruct (IH (run_step self) A Q) as (P' & A' & Q').
  rewrite P', P. auto.
Qed.

(** The worker writes the queued paths in order. *)
Lemma run_steps_drain (ps : list string) :
  forall (self : LimitTar) (rest : list (option string)),
  is_alive self = true ->
  _path_queue self = map Some ps ++ rest ->
  forallb str_truthy ps = true ->
  run_steps (List.length ps) self
  = set_tar (_tar self ++ ps) (set_path_queue rest self).
Proof.
  induction ps as [| p ps IH]; intros self rest Ha Hq Hp.
  - simpl. simpl in Hq. rewrite app_nil_r. destruct self. simpl in *.
    subst. reflexivity.
  - simpl in Hp. apply andb_true_iff in Hp. destruct Hp as (Hp1 & Hp2).
    cbn [run_steps List.length]. unfold run_step. rewrite Ha, Hq.
    cbn [map app]. rewrite Hp1.
    rewrite (IH _ rest); [| exact Ha | reflexivity | exact Hp2].
    destruct self. simpl. rewrite <- app_assoc. reflexivity.
Qed.

Lemma run_steps_dead (n : nat) (self : LimitTar) :
  is_alive self = false -> run_steps n self = self.
Proof.
  intros Ha. induction n as [| n IH]; simpl; [reflexivity |].
  unfold run_step at 1. rewrite Ha. exact IH.
Qed.

Lemma run_steps_add (m n : nat) (self : LimitTar) :
  run_steps (m + n) self = run_steps n (run_steps m self).
Proof.
  revert self. induction m as [| m IH]; intros self; simpl; [reflexivity |].
  apply IH.
Qed.

(** A queue of truthy items is a queue of non-empty paths. *)
Lemma truthy_queue_paths (q : list (option string)) :
  forallb item_truthy q = true ->
  exists ps, q = map Some ps /\ forallb str_truthy ps = true.
Proof.
  induction q as [| item q IH]; intros Hq.
  - exists []. split; reflexivity.
  - simpl in Hq. apply andb_true_iff in Hq. destruct Hq as (Hi & Hq).
    destruct (IH Hq) as (ps & -> & Hps).
    destruct item as [p |]; [| discriminate].
    exists (p :: ps). split; [reflexivity |]. simpl. simpl in Hi.
    rewrite Hi. exact Hps.
Qed.

(** On a falsy item the thread ends. *)
Lemma run_step_on_falsy (self : LimitTar) (item : option string)
      (rest : list (option string)) :
  is_alive self = true -> _path_queue self = item :: rest ->
  item_truthy item = false ->
  run_step self = set_is_alive false (set_path_queue rest self).
Proof.
  intros Ha Hq Hi. unfold run_step. rewrite Ha, Hq.
  destruct item as [path |]; [simpl in Hi; rewrite Hi |]; reflexivity.
Qed.

(** ** The worker and the outcomes of [tarfile.add] *)

Section WorkerFacts.

Variable tar_add : string -> add_outcome.

(** [run_step] is [run_turn] when every call of [tarfile.add] appends a
    member. *)
Lemma run_turn_written (self : LimitTar) :
  (forall p, tar_add p = Written) -> run_turn tar_add self = run_step self.
Proof.
  intros H. unfold run_turn, run_step.
  destruct (is_alive self); [| reflexivity].
  destruct (_path_queue self) as [| [path |] q]; try reflexivity.
  rewrite H. reflexivity.
Qed.

Lemma run_turns_written (n : nat) (self : LimitTar) :
  (forall p, tar_add p = Written) -> run_turns tar_add n self = run_steps n self.
Proof.
  intros H. revert self. induction n as [| n IH]; intros self; simpl.
  - reflexivity.
  - rewrite run_turn_written by exact H. apply IH.
Qed.

Lemma run_turns_add (m n : nat) (self : LimitTar) :
  run_turns tar_add (m + n) self = run_turns tar_add n (run_turns tar_add m self).
Proof.
  revert self. induction m as [| m IH]; intros self; simpl; [reflexivity |].
  apply IH.
Qed.

Lemma run_turns_dead (n : nat) (self : LimitTar) :
  is_alive self = false -> run_turns tar_add n self = self.
Proof.
  intros Ha. induction n as [| n IH]; simpl; [reflexivity |].
  unfold run_turn at 1. rewrite Ha. exact IH.
Qed.

Lemma run_turns_idle (n : nat) (self : LimitTar) :
  _path_queue self = [] -> run_turns tar_add n self = self.
Proof.
  intros Hq. induction n as [| n IH]; simpl; [reflexivity |].
  assert (E : run_turn tar_add self = self).
  { unfold run_turn. rewrite Hq. destruct (is_alive self); reflexivity. }
  rewrite E. exact IH.
Qed.

(** The worker takes the queued paths in order and appends those that
    [tarfile.add] writes. *)
Lemma run_turns_drain (ps : list string) :
  forall (self : LimitTar) (rest : list (option string)),
  is_alive self = true ->
  _path_queue self = map Some ps ++ rest ->
  forallb (fun p => negb (ends_worker tar_add (Some p))) ps = true ->
  run_turns tar_add (List.length ps) self
  = set_tar (_tar self ++ written tar_add ps) (set_path_queue rest self).
Proof.
  induction ps as [| p ps IH]; intros self rest Ha Hq Hp.
  - simpl. simpl in Hq. rewrite app_nil_r. destruct self. simpl in *.
    subst. reflexivity.
  - simpl in Hp. apply andb_true_iff in Hp. destruct Hp as (Hp1 & Hp2).
    apply negb_true_iff, orb_false_iff in Hp1. destruct Hp1 as (T & R).
    apply negb_false_iff in T.
    cbn [run_turns List.length]. unfold run_turn. rewrite Ha, Hq.
    cbn [map app]. rewrite T. unfold written. cbn [filter].
    destruct (tar_add p) as [| | e] eqn:O; try discriminate; cbn [is_written].
    + rewrite (IH _ rest); [| exact Ha | reflexivity | exact Hp2].
      destruct self. simpl. rewrite <- app_assoc. reflexivity.
    + rewrite (IH _ rest); [| exact Ha | reflexivity | exact Hp2].
      destruct self. reflexivity.
Qed.

Lemma run_turn_ends (self : LimitTar) (item : option string)
      (rest : list (option string)) :
  is_alive self = true -> _path_queue self = item :: rest ->
  ends_worker tar_add item = true ->
  run_turn tar_add self = set_is_alive false (set_path_queue rest self).
Proof.
  intros Ha Hq Hi. unfold run_turn. rewrite Ha, Hq.
  destruct item as [path |]; [| reflexivity].
  simpl in Hi. destruct (str_truthy path); [| reflexivity].
  simpl in Hi. destruct (tar_add path); try discriminate. reflexivity.
Qed.

Lemma live_queue_paths (q : list (option string)) :
  forallb (fun item => negb (ends_worker tar_add item)) q = true ->
  exists ps, q = map Some ps
             /\ forallb (fun p => negb (ends_worker tar_add (Some p))) ps = true.
Proof.
  induction q as [| item q IH]; intros Hq.
  - exists []. split; reflexivity.
  - simpl in Hq. apply andb_true_iff in Hq. destruct Hq as (Hi & Hq).
    destruct (IH Hq) as (ps & -> & Hps).
    destruct item as [p |]; [| discriminate].
    exists (p :: ps). split; [reflexivity |].
    cbn [forallb]. rewrite Hi. exact Hps.
Qed.

(** X2: the worker takes the queued paths in the order they were queued
    and appends to the archive those that [tarfile.add] writes; it ends at
    the first item that is falsy (the [None] of [stop], or an empty string)
    or on which [tarfile.add] raises, [run] having no handler.  From then
    on nothing changes: what is queued behind that item is never
    written. *)
Theorem X2_worker_drains_in_order (ps : list string) (item : option string)
        (rest : list (option string)) (self : LimitTar) (n : nat) :
  is_alive self = true ->
  _path_queue self = map Some ps ++ item :: rest ->
  forallb (fun p => negb (ends_worker tar_add (Some p))) ps = true ->
  ends_worker tar_add item = true ->
  (List.length ps < n)%nat ->
  run_turns tar_add n self
  = set_is_alive false
      (set_tar (_tar self ++ written tar_add ps) (set_path_queue rest self)).
Proof.
  intros Ha Hq Hp Hi Hn.
  replace n with (List.length ps + (1 + (n - List.length ps - 1)))%nat by lia.
  rewrite run_turns_add, (run_turns_drain ps self (item :: rest) Ha Hq Hp).
  rewrite run_turns_add. simpl run_turns at 2.
  rewrite (run_turn_ends _ item rest); [| exact Ha | reflexivity | exact Hi].
  rewrite run_turns_dead by reflexivity.
  destruct self. reflexivity.
Qed.

(** X3: while the queue holds no falsy item and no path on which
    [tarfile.add] raises, the worker never ends, which is what [join] and
    [close] wait for: it takes every queued path, in order, and then waits
    on the empty queue.  It touches neither the limit, the block size, the
    encoding nor the payload total. *)
Theorem X3_worker_waits_without_stop (self : LimitTar) (n : nat) :
  is_alive self = true ->
  forallb (fun item => negb (ends_worker tar_add item)) (_path_queue self)
  = true ->
  is_alive (run_turns tar_add n self) = true
  /\ account (run_turns tar_add n self) = account self
  /\ ((List.length (_path_queue self) <= n)%nat ->
      _path_queue (run_turns tar_add n self) = []
      /\ exists ps, _path_queue self = map Some ps
                    /\ _tar (run_turns tar_add n self)
                       = _tar self ++ written tar_add ps).
Proof.
  intros Ha Hq.
  destruct (live_queue_paths _ Hq) as (ps & Eq & Hps).
  assert (D : forall k, (k <= List.length ps)%nat ->
                run_turns tar_add k self
                = set_tar (_tar self ++ written tar_add (firstn k ps))
                    (set_path_queue (map Some (skipn k ps)) self)).
  { intros k Hk.
    rewrite <- (firstn_skipn k ps) in Eq, Hps.
    rewrite map_app in Eq. rewrite forallb_app in Hps.
    apply andb_true_iff in Hps. destruct Hps as (Hps1 & _).
    rewrite <- (run_turns_drain (firstn k ps) self _ Ha Eq Hps1).
    rewrite length_firstn, Nat.min_l by exact Hk. reflexivity. }
  assert (E : run_turns tar_add n self
              = run_turns tar_add (Nat.min n (List.length ps)) self).
  { destruct (Nat.le_gt_cases n (List.length ps)) as [C | C].
    - rewrite Nat.min_l by exact C. reflexivity.
    - rewrite Nat.min_r by lia.
      replace n with (List.length ps + (n - List.length ps))%nat at 1 by lia.
      rewrite run_turns_add. apply run_turns_idle.
      rewrite D by lia. cbn [_path_queue set_tar set_path_queue].
      rewrite skipn_all. reflexivity. }
  rewrite E, D by lia.
  split; [exact Ha |]. split; [reflexivity |].
  intros Hn. rewrite Eq, length_map in Hn.
  rewrite Nat.min_r by exact Hn.
  cbn [_path_queue _tar set_tar set_path_queue].
  rewrite skipn_all, firstn_all. split; [reflexivity |].
  exists ps. split; [exact Eq | reflexivity].
Qed.

End WorkerFacts.

Lemma X2_worker_drains_in_order_witness :
  (is_alive worker_session = true
   /\ _path_queue worker_session
      = map Some ["fileA"; "sock"; "out.tar"; "fileC"]%string
        ++ Some "gone"%string :: [Some "fileB"%string]
   /\ forallb (fun p => negb (ends_worker (fs_tar_add worker_fs "out.tar")
                                (Some p)))
        ["fileA"; "sock"; "out.tar"; "fileC"]%string = true
   /\ ends_worker (fs_tar_add worker_fs "out.tar") (Some "gone"%string) = true
   /\ (List.length ["fileA"; "sock"; "out.tar"; "fileC"]%string < 9)%nat)
  /\ _tar (run_turns (fs_tar_add worker_fs "out.tar") 9 worker_session)
     = ["fileA"; "fileC"]%string
  /\ _path_queue (run_turns (fs_tar_add worker_fs "out.tar") 9 worker_session)
     = [Some "fileB"%string]
  /\ is_alive (run_turns (fs_tar_add worker_fs "out.tar") 9 worker_session)
     = false.
Proof.
  split; [repeat split; simpl; lia |].
  rewrite (X2_worker_drains_in_order (fs_tar_add worker_fs "out.tar")
             ["fileA"; "sock"; "out.tar"; "fileC"]%string
             (Some "gone"%string) [Some "fileB"%string] worker_session 9);
    [repeat split | reflexivity | reflexivity | reflexivity
     | reflexivity | simpl; lia].
Defined.

Lemma X3_worker_waits_without_stop_witness :
  (is_alive (admitted "fileC" 1024 (admitted "fileA" 1536 unlimited_session))
   = true
   /\ forallb (fun item => negb (ends_worker (fs_tar_add worker_fs "out.tar")
                                   item))
        (_path_queue (admitted "fileC" 1024
                        (admitted "fileA" 1536 unlimited_session))) = true)
  /\ is_alive (run_turns (fs_tar_add worker_fs "out.tar") 7
                 (admitted "fileC" 1024
                    (admitted "fileA" 1536 unlimited_session)))
     = true
  /\ _tar (run_turns (fs_tar_add worker_fs "out.tar") 7
             (admitted "fileC" 1024
                (admitted "fileA" 1536 unlimited_session)))
     = ["fileA"; "fileC"]%string.
Proof.
  split; [split; reflexivity |].
  destruct (X3_worker_waits_without_stop (fs_tar_add worker_fs "out.tar")
              (admitted "fileC" 1024 (admitted "fileA" 1536 unlimited_session))
              7 eq_refl eq_refl) as (H1 & _ & _).
  split; [exact H1 | reflexivity].
Defined.

(** ** The feeder as a whole *)

Section FeederWhole.

Variable str_encode : string -> string -> codec_error + bytes.
Variable os_stat : pathlike -> stat_error + stat_result.
Variable halt_on_size_limit_reached : bool.
Variable halt_on_underrun : bool.
Variable halt_on_os_error : bool.
Variable schedule : nat -> nat.

(** What a call of [add_path] comes to: the session untouched and an
    exception, or the path queued and its estimate counted. *)
Lemma add_path_outcome (path : string) (self : LimitTar) :
  (exists e, add_path str_encode os_stat path self = (inl e, self)
             /\ e <> UnboundLocalError)
  \/ (exists n a,
        path_cost str_encode os_stat (_encoding self) path = inr n
        /\ size (admitted path n self) = inr a
        /\ limit_exceeded (_size_limit self) a = false
        /\ add_path str_encode os_stat path self
           = (inr tt, admitted path n self)).
Proof.
  destruct (add_path str_encode os_stat path self) as [[e | []] s'] eqn:H.
  - left. exists e. destruct (add_path_raises _ _ _ _ _ _ H) as (Hne & ->).
    split; [reflexivity | exact Hne].
  - right. rewrite add_path_cases in H.
    destruct (path_cost str_encode os_stat (_encoding self) path)
      as [e | n]; [discriminate |].
    destruct (determine_tar_archive_size (_data_size self + n) (_bufsize self))
      as [e | a] eqn:Ha; [discriminate |].
    destruct (limit_exceeded (_size_limit self) a) eqn:Hl; [discriminate |].
    injection H as <-. exists n, a. repeat split; try assumption.
Qed.

(** The five ways through the body of the loop. *)
Lemma add_paths_body_cases (i : nat) (path : string) (l : locals)
      (self : LimitTar) :
  (str_truthy path = false
   /\ add_paths_body str_encode os_stat halt_on_size_limit_reached
        halt_on_underrun halt_on_os_error i path l self
      = (Skipped, l, self))
  \/ (str_truthy path = true /\ halt l = true
      /\ add_paths_body str_encode os_stat halt_on_size_limit_reached
           halt_on_underrun halt_on_os_error i path l self
         = (yield_halted l, l, self))
  \/ (str_truthy path = true /\ halt l = false
      /\ exists n a,
           path_cost str_encode os_stat (_encoding self) path = inr n
           /\ size (admitted path n self) = inr a
           /\ limit_exceeded (_size_limit self) a = false
           /\ add_paths_body str_encode os_stat halt_on_size_limit_reached
                halt_on_underrun halt_on_os_error i path l self
              = (Added, underrun_check halt_on_underrun i l self,
                 admitted path n self))
  \/ (str_truthy path = true /\ halt l = false
      /\ exists e l',
           add_path str_encode os_stat path self = (inl e, self)
           /\ is_caught e = true
           /\ add_paths_body str_encode os_stat halt_on_size_limit_reached
                halt_on_underrun halt_on_os_error i path l self
              = (Rejected e, l', self))
  \/ (str_truthy path = true /\ halt l = false
      /\ exists e,
           add_path str_encode os_stat path self = (inl e, self)
           /\ is_caught e = false
           /\ add_paths_body str_encode os_stat halt_on_size_limit_reached
                halt_on_underrun halt_on_os_error i path l self
              = (Uncaught e, underrun_check halt_on_underrun i l self, self)).
Proof.
  unfold add_paths_body.
  destruct (str_truthy path) eqn:Hp; cbn [negb]; [| left; auto].
  right. destruct (halt l) eqn:Hh; cbn [negb]; [left; auto |].
  right. destruct (add_path_outcome path self) as [(e & H & _) | (n & a & Hc & Hs & Hl & H)];
    rewrite H.
  - right. destruct e; cbn [is_SizeLimitReached is_OSError];
      try (right; repeat split; eexists; repeat split; reflexivity);
      (left; repeat split; do 2 eexists; repeat split; reflexivity).
  - left. repeat split. exists n, a. repeat split; assumption.
Qed.

(** An invariant of the session kept by the worker and by every
    successful admission is kept by the feeder. *)
Lemma add_paths_loop_keeps (P : LimitTar -> Prop) :
  (forall s, P s -> P (run_step s)) ->
  (forall s path n a,
      P s -> str_truthy path = true ->
      path_cost str_encode os_stat (_encoding s) path = inr n ->
      size (admitted path n s) = inr a ->
      limit_exceeded (_size_limit s) a = false ->
      P (admitted path n s)) ->
  forall (paths : list string) (i : nat) (l : locals) (self : LimitTar),
  P self ->
  P (snd (add_paths_loop str_encode os_stat halt_on_size_limit_reached
            halt_on_underrun halt_on_os_error schedule i paths l self)).
Proof.
  intros Hw Ha.
  assert (Hws : forall n s, P s -> P (run_steps n s)).
  { induction n as [| n IH]; intros s Hs; simpl; auto. }
  induction paths as [| path rest IH]; intros i l self HP; [exact HP |].
  cbn [add_paths_loop].
  specialize (Hws (schedule i) self HP).
  destruct (add_paths_body_cases i path l (run_steps (schedule i) self))
    as [(_ & E) | [(_ & _ & E) | [(Hp & _ & n & a & Hc & Hs & Hl & E)
       | [(_ & _ & e & l' & _ & _ & E) | (_ & _ & e & _ & _ & E)]]]];
    rewrite E.
  - specialize (IH (S i) l _ Hws).
    destruct (add_paths_loop _ _ _ _ _ _ (S i) rest l _) as [[evs l''] s''].
    exact IH.
  - unfold yield_halted. destruct (exception l).
    + specialize (IH (S i) l _ Hws).
      destruct (add_paths_loop _ _ _ _ _ _ (S i) rest l _) as [[evs l''] s''].
      exact IH.
    + exact Hws.
  - specialize (IH (S i) (underrun_check halt_on_underrun i l
                            (run_steps (schedule i) self))
                   _ (Ha _ _ _ _ Hws Hp Hc Hs Hl)).
    destruct (add_paths_loop _ _ _ _ _ _ (S i) rest _ _) as [[evs l''] s''].
    exact IH.
  - specialize (IH (S i) l' _ Hws).
    destruct (add_paths_loop _ _ _ _ _ _ (S i) rest l' _) as [[evs l''] s''].
    exact IH.
  - exact Hws.
Qed.


Lemma admitted_pending (path : string) (n : Z) (self : LimitTar) :
  pending (admitted path n self) = pending self ++ [Some path].
Proof. unfold pending, admitted. simpl. rewrite app_assoc. reflexivity. Qed.

Lemma forallb_app_truthy (q : list (option string)) (path : string) :
  forallb item_truthy q = true -> str_truthy path = true ->
  forallb item_truthy (q ++ [Some path]) = true.
Proof.
  intros Hq Hp. rewrite forallb_app, Hq. simpl. rewrite Hp. reflexivity.
Qed.

(** What a run of the loop leaves behind, by induction on the input. *)
Lemma add_paths_loop_summary (paths : list string) :
  forall (i : nat) (l : locals) (self : LimitTar)
         (tr : list (string * event)) (l' : locals) (self' : LimitTar),
  add_paths_loop str_encode os_stat halt_on_size_limit_reached
                 halt_on_underrun halt_on_os_error schedule i paths l self
  = (tr, l', self') ->
  (_size_limit self' = _size_limit self /\ _bufsize self' = _bufsize self
   /\ _encoding self' = _encoding self)
  /\ Forall (fun p => str_truthy p = true
                      /\ exists n, path_cost str_encode os_stat
                                     (_encoding self) p = inr n)
            (added_paths tr)
  /\ _data_size self'
     = _data_size self
       + sum_list (map (fun p => value_of (path_cost str_encode os_stat
                                             (_encoding self) p))
                       (added_paths tr))
  /\ (is_alive self = true ->
      forallb item_truthy (_path_queue self) = true ->
      pending self' = pending self ++ map Some (added_paths tr)
      /\ is_alive self' = true
      /\ forallb item_truthy (_path_queue self') = true)
  /\ (completed tr = true ->
      map fst tr = paths
      /\ Permutation (filter str_truthy paths)
                     (added_paths tr ++ map fst (yields tr))).
Proof.
  induction paths as [| path rest IH]; intros i l self tr l' self' H.
  - simpl in H. injection H as <- <- <-. simpl.
    rewrite Z.add_0_r, app_nil_r. repeat split; auto.
  - cbn [add_paths_loop] in H.
    destruct (run_steps_fields (schedule i) self) as (F1 & F2 & F3 & F4).
    assert (HW := run_steps_pending (schedule i) self).
    remember (run_steps (schedule i) self) as s1 eqn:Es1.
    destruct (add_paths_body_cases i path l s1)
      as [(Hp & E) | [(Hp & Hh & E) | [(Hp & Hh & n & a & Hc & Hs & Hl & E)
         | [(Hp & Hh & e & l1 & Ha & Hcaught & E)
           | (Hp & Hh & e & Ha & Hcaught & E)]]]];
      rewrite E in H; clear E.
    + (* skipped *)
      destruct (add_paths_loop _ _ _ _ _ _ (S i) rest l s1)
        as [[evs l2] s2] eqn:R.
      injection H as <- <- <-.
      destruct (IH _ _ _ _ _ _ R) as ((G1 & G2 & G3) & A & D & Q & C).
      rewrite F3 in A, D. rewrite F1 in D.
      unfold added_paths, completed. cbn [filter map forallb snd fst is_added
                                           is_uncaught negb andb yields yielded].
      fold (added_paths evs). fold (completed evs). rewrite Hp.
      split; [repeat split; congruence |].
      split; [exact A |]. split; [exact D |]. split.
      * intros Ha Hq. destruct (HW Ha Hq) as (P1 & A1 & Q1).
        destruct (Q A1 Q1) as (P2 & A2 & Q2). rewrite P2, P1. auto.
      * intros Hc. destruct (C Hc) as (M & P). rewrite M. auto.
    + (* halted on entry *)
      unfold yield_halted in H. destruct (exception l) as [e |].
      * destruct (add_paths_loop _ _ _ _ _ _ (S i) rest l s1)
          as [[evs l2] s2] eqn:R.
        injection H as <- <- <-.
        destruct (IH _ _ _ _ _ _ R) as ((G1 & G2 & G3) & A & D & Q & C).
        rewrite F3 in A, D. rewrite F1 in D.
        unfold added_paths, completed.
        cbn [filter map forallb snd fst is_added is_uncaught negb andb
               yields yielded].
        fold (added_paths evs). fold (completed evs). rewrite Hp.
        split; [repeat split; congruence |].
        split; [exact A |]. split; [exact D |]. split.
        -- intros Ha Hq. destruct (HW Ha Hq) as (P1 & A1 & Q1).
           destruct (Q A1 Q1) as (P2 & A2 & Q2). rewrite P2, P1. auto.
        -- intros Hc. destruct (C Hc) as (M & P). rewrite M.
           split; [reflexivity |]. apply Permutation_cons_app. exact P.
      * injection H as <- <- <-. simpl. rewrite Z.add_0_r, app_nil_r.
        split; [repeat split; congruence |]. split; [constructor |].
        split; [congruence |]. split; [| discriminate].
        intros Ha Hq. destruct (HW Ha Hq) as (P1 & A1 & Q1). auto.
    + (* added *)
      destruct (add_paths_loop _ _ _ _ _ _ (S i) rest
                  (underrun_check halt_on_underrun i l s1) (admitted path n s1))
        as [[evs l2] s2] eqn:R.
      injection H as <- <- <-.
      destruct (IH _ _ _ _ _ _ R) as ((G1 & G2 & G3) & A & D & Q & C).
      cbn [admitted _encoding _data_size _size_limit _bufsize set_data_size
             set_path_queue] in G1, G2, G3, A, D.
      rewrite F3 in A, D, Hc. rewrite F1 in D.
      unfold added_paths, completed.
      cbn [filter map forallb snd fst is_added is_uncaught negb andb
             yields yielded sum_list].
      fold (added_paths evs). fold (completed evs). rewrite Hp.
      split; [repeat split; congruence |].
      split; [constructor; [split; [exact Hp | exists n; exact Hc] | exact A] |].
      split; [rewrite D, Hc; simpl; lia |]. split.
      * intros Ha Hq. destruct (HW Ha Hq) as (P1 & A1 & Q1).
        assert (A1' : is_alive (admitted path n s1) = true) by exact A1.
        assert (Q1' : forallb item_truthy (_path_queue (admitted path n s1))
                      = true).
        { unfold admitted. simpl. apply forallb_app_truthy; assumption. }
        destruct (Q A1' Q1') as (P2 & A2 & Q2).
        rewrite P2, admitted_pending, P1, <- app_assoc. auto.
      * intros Hc'. destruct (C Hc') as (M & P). rewrite M.
        split; [reflexivity |]. simpl. apply perm_skip. exact P.
    + (* rejected *)
      destruct (add_paths_loop _ _ _ _ _ _ (S i) rest l1 s1)
        as [[evs l2] s2] eqn:R.
      injection H as <- <- <-.
      destruct (IH _ _ _ _ _ _ R) as ((G1 & G2 & G3) & A & D & Q & C).
      rewrite F3 in A, D. rewrite F1 in D.
      unfold added_paths, completed.
      cbn [filter map forallb snd fst is_added is_uncaught negb andb
             yields yielded].
      fold (added_paths evs). fold (completed evs). rewrite Hp.
      split; [repeat split; congruence |].
      split; [exact A |]. split; [exact D |]. split.
      * intros Ha' Hq. destruct (HW Ha' Hq) as (P1 & A1 & Q1).
        destruct (Q A1 Q1) as (P2 & A2 & Q2). rewrite P2, P1. auto.
      * intros Hc. destruct (C Hc) as (M & P). rewrite M.
        split; [reflexivity |]. apply Permutation_cons_app. exact P.
    + (* uncaught *)
      injection H as <- <- <-. simpl. rewrite Z.add_0_r, app_nil_r.
      split; [repeat split; congruence |]. split; [constructor |].
      split; [congruence |]. split; [| discriminate].
      intros Ha' Hq. destruct (HW Ha' Hq) as (P1 & A1 & Q1). auto.
Qed.

End FeederWhole.

Section FeederProperties.

Variable str_encode : string -> string -> codec_error + bytes.
Variable os_stat : pathlike -> stat_error + stat_result.
Variable halt_on_size_limit_reached : bool.
Variable halt_on_underrun : bool.
Variable halt_on_os_error : bool.
Variable schedule : nat -> nat.

(** The exceptions of [add_path], by where they are raised. *)
Lemma add_path_raises_class (path : string) (self self' : LimitTar) (e : exn) :
  add_path str_encode os_stat path self = (inl e, self') ->
  e = SizeLimitReached \/ e = ZeroDivisionError
  \/ (exists ce, e = exn_of_codec_error ce)
  \/ (exists se, e = exn_of_stat_error se).
Proof.
  rewrite add_path_cases.
  destruct (path_cost str_encode os_stat (_encoding self) path)
    as [e0 | n] eqn:Hc.
  - intros H. injection H as <- _. right. right.
    exact (path_cost_raises_class _ _ _ _ _ Hc).
  - destruct (determine_tar_archive_size (_data_size self + n) (_bufsize self))
      as [e0 | a] eqn:Ha.
    + intros H. injection H as <- _. right. left.
      exact (determine_tar_archive_size_raises _ _ _ Ha).
    + destruct (limit_exceeded (_size_limit self) a); [| discriminate].
      intros H. injection H as <- _. left. reflexivity.
Qed.

Lemma path_cost_records (encoding path : string) (n : Z) :
  stat_sizes_nonneg os_stat ->
  path_cost str_encode os_stat encoding path = inr n ->
  exists r, 1 <= r /\ n = 512 * r.
Proof.
  intros Hnn. unfold path_cost, encode_path.
  destruct (str_encode encoding path) as [ce | encoded]; cbn [bind raise ret];
    [discriminate |].
  intros H.
  destruct (os_stat (try_encode str_encode (PBytes encoded))) as [se | st] eqn:Hst.
  - rewrite (determine_tar_file_size_stat_error _ _ _ _ Hst) in H. discriminate.
  - rewrite (determine_tar_file_size_ok _ _ _ _ Hst) in H.
    cbn [try_encode] in H.
    assert (En : n = 512 + long_name_cost (len (PBytes encoded))
                     + payload_cost st) by congruence.
    assert (Hlen : 0 <= len (PBytes encoded)) by (simpl; lia).
    destruct (long_name_cost_records _ Hlen) as (k1 & Hk1 & E1).
    destruct (payload_cost_records st (Hnn _ _ Hst)) as (k2 & Hk2 & E2 & _).
    exists (1 + k1 + k2). split; lia.
Qed.

(** X4: whatever [add_path] raises, it leaves the session exactly as it
    was; when it returns, the path is at the tail of the queue, the payload
    total has grown by the estimate of the path, and nothing else has
    changed. *)
Theorem X4_add_path_all_or_nothing (path : string) (self : LimitTar) :
  (exists e, add_path str_encode os_stat path self = (inl e, self))
  \/ (exists n,
        path_cost str_encode os_stat (_encoding self) path = inr n
        /\ add_path str_encode os_stat path self
           = (inr tt,
              mkLimitTar (_size_limit self) (_bufsize self) (_encoding self)
                         (_tar self) (_path_queue self ++ [Some path])
                         (_data_size self + n) (is_alive self))).
Proof.
  destruct (add_path_outcome str_encode os_stat path self)
    as [(e & H & _) | (n & a & Hc & _ & _ & H)].
  - left. exists e. exact H.
  - right. exists n. split; [exact Hc |]. rewrite H. reflexivity.
Qed.

(** X5: with a non-zero size limit the predicted archive size is within the
    limit after every successful [add_path], and [add_paths] keeps it
    within the limit if it was so before. *)
Theorem X5_size_stays_within_limit (paths : list string) (self : LimitTar)
        (limit : Z) :
  _size_limit self = Some limit -> limit <> 0 ->
  (forall (path : string) (self' : LimitTar),
      add_path str_encode os_stat path self = (inr tt, self') ->
      exists a, size self' = inr a /\ a <= limit)
  /\ ((exists a, size self = inr a /\ a <= limit) ->
      exists a',
        size (snd (add_paths str_encode os_stat halt_on_size_limit_reached
                     halt_on_underrun halt_on_os_error schedule paths self))
        = inr a'
        /\ a' <= limit).
Proof.
  intros Hl Hnz.
  assert (Step : forall s path n a,
             _size_limit s = Some limit ->
             size (admitted path n s) = inr a ->
             limit_exceeded (_size_limit s) a = false -> a <= limit).
  { intros s path n a Hs _ Hx. rewrite Hs in Hx.
    unfold limit_exceeded, limit_truthy in Hx.
    destruct (Z.eqb_spec limit 0) as [E | _]; [contradiction |].
    cbn [negb andb] in Hx.
    destruct (Z.gtb_spec a limit) as [_ | Hle]; [discriminate | exact Hle]. }
  split.
  - intros path self' H.
    destruct (add_path_outcome str_encode os_stat path self)
      as [(e & H' & _) | (n & a & _ & Hs & Hx & H')];
      rewrite H' in H; [discriminate |].
    injection H as <-. exists a. split; [exact Hs |].
    exact (Step _ _ _ _ Hl Hs Hx).
  - intros Hin.
    set (P := fun s : LimitTar =>
                _size_limit s = Some limit
                /\ exists a, size s = inr a /\ a <= limit).
    assert (HP : P (snd (add_paths_loop str_encode os_stat
                           halt_on_size_limit_reached halt_on_underrun
                           halt_on_os_error schedule 0 paths
                           (mkLocals false None) self))).
    { apply add_paths_loop_keeps.
      - intros s (Hs & a & Ha & Hle).
        destruct (run_step_fields s) as (F1 & F2 & F3 & F4).
        split; [congruence |]. exists a. split; [| exact Hle].
        unfold size in *. rewrite F1, F2. exact Ha.
      - intros s path n a (Hs & _) _ _ Ha Hx.
        split; [exact Hs |]. exists a. split; [exact Ha |].
        exact (Step _ _ _ _ Hs Ha Hx).
      - split; [exact Hl | exact Hin]. }
    destruct HP as (_ & a' & Ha' & Hle').
    exists a'. split; [| exact Hle'].
    unfold add_paths, add_paths_trace.
    destruct (add_paths_loop _ _ _ _ _ _ 0 paths _ self) as [[tr l'] s'].
    exact Ha'.
Qed.

(** X6: after [add_paths] the payload total is what it was plus the
    estimates of the paths the feeder queued, each of which was computed
    without error; the limit, the block size and the encoding are
    unchanged. *)
Theorem X6_feeder_counts_what_it_queues (paths : list string)
        (self : LimitTar) :
  _data_size (snd (add_paths_trace str_encode os_stat
                     halt_on_size_limit_reached halt_on_underrun
                     halt_on_os_error schedule paths self))
  = _data_size self
    + sum_list
        (map (fun p => value_of (path_cost str_encode os_stat
                                   (_encoding self) p))
             (added_paths
                (fst (fst (add_paths_trace str_encode os_stat
                             halt_on_size_limit_reached halt_on_underrun
                             halt_on_os_error schedule paths self)))))
  /\ Forall (fun p => str_truthy p = true
                      /\ exists n, path_cost str_encode os_stat
                                     (_encoding self) p = inr n)
            (added_paths
               (fst (fst (add_paths_trace str_encode os_stat
                            halt_on_size_limit_reached halt_on_underrun
                            halt_on_os_error schedule paths self))))
  /\ account (snd (add_paths_trace str_encode os_stat
                     halt_on_size_limit_reached halt_on_underrun
                     halt_on_os_error schedule paths self))
     = (_size_limit self, _bufsize self, _encoding self,
        _data_size (snd (add_paths_trace str_encode os_stat
                           halt_on_size_limit_reached halt_on_underrun
                           halt_on_os_error schedule paths self))).
Proof.
  unfold add_paths_trace.
  destruct (add_paths_loop _ _ _ _ _ _ 0 paths (mkLocals false None) self)
    as [[tr l'] s'] eqn:R.
  destruct (add_paths_loop_summary _ _ _ _ _ _ _ _ _ _ _ _ _ R)
    as ((G1 & G2 & G3) & A & D & _ & _).
  cbn [fst snd]. split; [exact D |]. split; [exact A |].
  unfold account. rewrite G1, G2, G3. reflexivity.
Qed.

(** X7: when [os.stat] reports no negative size, the payload total never
    goes down under [add_paths]: it grows by a whole number of 512-byte
    records, at least one for each path queued. *)
Theorem X7_total_grows_by_records (paths : list string) (self : LimitTar) :
  stat_sizes_nonneg os_stat ->
  exists k,
    Z.of_nat (List.length
                (added_paths
                   (fst (fst (add_paths_trace str_encode os_stat
                                halt_on_size_limit_reached halt_on_underrun
                                halt_on_os_error schedule paths self)))))
    <= k
    /\ _data_size (snd (add_paths_trace str_encode os_stat
                          halt_on_size_limit_reached halt_on_underrun
                          halt_on_os_error schedule paths self))
       = _data_size self + 512 * k.
Proof.
  intros Hnn. unfold add_paths_trace.
  destruct (add_paths_loop _ _ _ _ _ _ 0 paths (mkLocals false None) self)
    as [[tr l'] s'] eqn:R.
  destruct (add_paths_loop_summary _ _ _ _ _ _ _ _ _ _ _ _ _ R)
    as (_ & A & D & _ & _).
  cbn [fst snd]. rewrite D. clear D R.
  induction (added_paths tr) as [| p ps IH].
  - exists 0. simpl. split; lia.
  - inversion A as [| ? ? (_ & n & Hn) A']; subst.
    destruct (IH A') as (k & Hk & E).
    destruct (path_cost_records _ _ _ Hnn Hn) as (r & Hr & ->).
    exists (r + k). cbn [List.length map sum_list]. rewrite Hn.
    cbn [value_of]. split; lia.
Qed.

End FeederProperties.

Section FeederOutcome.

Variable str_encode : string -> string -> codec_error + bytes.
Variable os_stat : pathlike -> stat_error + stat_result.
Variable halt_on_size_limit_reached : bool.
Variable halt_on_underrun : bool.
Variable halt_on_os_error : bool.
Variable schedule : nat -> nat.

(** X8: an exception of [add_path] that is neither [SizeLimitReached] nor
    [OSError] (the path cannot be encoded, the stat rejects the name, the
    block size is zero) is not caught by [add_paths]: the generator ends
    on that path, which is not yielded, and the paths after it are neither
    queued nor yielded. *)
Theorem X8_other_exceptions_end_the_feeder (i : nat) (path : string)
        (rest : list string) (l : locals) (self : LimitTar) (e : exn) :
  str_truthy path = true -> halt l = false ->
  fst (add_path str_encode os_stat path (run_steps (schedule i) self)) = inl e ->
  is_caught e = false ->
  add_paths_loop str_encode os_stat halt_on_size_limit_reached
                 halt_on_underrun halt_on_os_error schedule
                 i (path :: rest) l self
  = ([(path, Uncaught e)],
     underrun_check halt_on_underrun i l (run_steps (schedule i) self),
     run_steps (schedule i) self)
  /\ yields [(path, Uncaught e)] = []
  /\ (e = ZeroDivisionError \/ e = ValueError
      \/ e = UnicodeEncodeError \/ e = LookupError).
Proof.
  intros Hp Hh Hadd Hc.
  destruct (add_path str_encode os_stat path (run_steps (schedule i) self))
    as [r s'] eqn:E. cbn [fst] in Hadd. subst r.
  assert (Cl := add_path_raises_class _ _ _ _ _ _ E).
  destruct (add_path_raises _ _ _ _ _ _ E) as (_ & ->).
  split; [| split; [reflexivity |]].
  - cbn [add_paths_loop]. unfold add_paths_body.
    rewrite Hp, Hh, E. cbn [negb].
    unfold is_caught in Hc. apply orb_false_iff in Hc. destruct Hc as (C1 & C2).
    rewrite C1, C2. reflexivity.
  - destruct Cl as [-> | [-> | [(ce & ->) | (se & ->)]]].
    + discriminate.
    + auto.
    + destruct ce; auto.
    + destruct se; [discriminate | auto].
Qed.

(** X9: when the generator runs to the end of its input, every non-empty
    path is either queued or yielded and none is both: the non-empty paths
    are the queued ones together with the yielded ones, and the trace goes
    through the input in order. *)
Theorem X9_every_path_queued_or_yielded (paths : list string)
        (self : LimitTar) :
  completed (fst (fst (add_paths_trace str_encode os_stat
                         halt_on_size_limit_reached halt_on_underrun
                         halt_on_os_error schedule paths self))) = true ->
  map fst (fst (fst (add_paths_trace str_encode os_stat
                       halt_on_size_limit_reached halt_on_underrun
                       halt_on_os_error schedule paths self)))
  = paths
  /\ Permutation
       (filter str_truthy paths)
       (added_paths (fst (fst (add_paths_trace str_encode os_stat
                                 halt_on_size_limit_reached halt_on_underrun
                                 halt_on_os_error schedule paths self)))
        ++ map fst (fst (add_paths str_encode os_stat
                           halt_on_size_limit_reached halt_on_underrun
                           halt_on_os_error schedule paths self)))
  /\ List.length (filter str_truthy paths)
     = (List.length
          (added_paths (fst (fst (add_paths_trace str_encode os_stat
                                    halt_on_size_limit_reached halt_on_underrun
                                    halt_on_os_error schedule paths self))))
        + List.length (fst (add_paths str_encode os_stat
                              halt_on_size_limit_reached halt_on_underrun
                              halt_on_os_error schedule paths self)))%nat.
Proof.
  unfold add_paths, add_paths_trace.
  destruct (add_paths_loop _ _ _ _ _ _ 0 paths (mkLocals false None) self)
    as [[tr l'] s'] eqn:R.
  cbn [fst snd]. intros Hc.
  destruct (add_paths_loop_summary _ _ _ _ _ _ _ _ _ _ _ _ _ R)
    as (_ & _ & _ & _ & C).
  destruct (C Hc) as (M & P).
  split; [exact M |]. split; [exact P |].
  rewrite (Permutation_length P), length_app, length_map. reflexivity.
Qed.

End FeederOutcome.

Section ArchiveOutcome.

Variable str_encode : string -> string -> codec_error + bytes.
Variable os_stat : pathlike -> stat_error + stat_result.
Variable halt_on_size_limit_reached : bool.
Variable halt_on_underrun : bool.
Variable halt_on_os_error : bool.
Variable schedule : nat -> nat.
Variable tar_add : string -> add_outcome.

(** X10: when every call of [tarfile.add] writes its member, the archive
    receives what the feeder queued, once and in the order of the input:
    on a session whose worker runs and whose queue holds no falsy item,
    after [add_paths], [stop] and enough turns of the worker, the members
    written are those written or queued before followed by the paths the
    feeder queued; the queue is empty and the worker has ended. *)
Theorem X10_archive_gets_the_queued_paths (paths : list string)
        (self : LimitTar) (n : nat) :
  (forall p, tar_add p = Written) ->
  is_alive self = true ->
  forallb item_truthy (_path_queue self) = true ->
  (List.length (_path_queue (snd (add_paths_trace str_encode os_stat
                                    halt_on_size_limit_reached halt_on_underrun
                                    halt_on_os_error schedule paths self)))
   < n)%nat ->
  map Some (_tar (run_turns tar_add n
                    (stop (snd (add_paths_trace str_encode os_stat
                                  halt_on_size_limit_reached halt_on_underrun
                                  halt_on_os_error schedule paths self)))))
  = pending self
    ++ map Some (added_paths
                   (fst (fst (add_paths_trace str_encode os_stat
                                halt_on_size_limit_reached halt_on_underrun
                                halt_on_os_error schedule paths self))))
  /\ _path_queue (run_turns tar_add n
                    (stop (snd (add_paths_trace str_encode os_stat
                                  halt_on_size_limit_reached halt_on_underrun
                                  halt_on_os_error schedule paths self))))
     = []
  /\ is_alive (run_turns tar_add n
                 (stop (snd (add_paths_trace str_encode os_stat
                               halt_on_size_limit_reached halt_on_underrun
                               halt_on_os_error schedule paths self))))
     = false.
Proof.
  intros Hw. rewrite !(run_turns_written tar_add) by exact Hw.
  unfold add_paths_trace.
  destruct (add_paths_loop _ _ _ _ _ _ 0 paths (mkLocals false None) self)
    as [[tr l'] s'] eqn:R.
  cbn [fst snd]. intros Ha Hq Hn.
  destruct (add_paths_loop_summary _ _ _ _ _ _ _ _ _ _ _ _ _ R)
    as (_ & _ & _ & Q & _).
  destruct (Q Ha Hq) as (P & A' & Q').
  destruct (truthy_queue_paths _ Q') as (ps & Eq & Hps).
  rewrite Eq, length_map in Hn.
  assert (Es : _path_queue (stop s') = map Some ps ++ [None]).
  { unfold stop. simpl. rewrite Eq. reflexivity. }
  assert (As : is_alive (stop s') = true) by exact A'.
  replace n with (List.length ps + (1 + (n - List.length ps - 1)))%nat by lia.
  rewrite run_steps_add, (run_steps_drain ps (stop s') [None] As Es Hps).
  rewrite run_steps_add. cbn [run_steps Nat.add].
  rewrite (run_step_on_falsy _ None []); [| exact As | reflexivity | reflexivity].
  rewrite run_steps_dead by reflexivity.
  cbn [_tar _path_queue is_alive set_is_alive set_tar set_path_queue stop].
  split; [| split; reflexivity].
  rewrite <- P. unfold pending. rewrite Eq, map_app. reflexivity.
Qed.

End ArchiveOutcome.

(** ** Instances on the scenario data *)

Lemma X5_size_stays_within_limit_witness :
  (_size_limit one_block_session = Some 10240
   /\ 10240 <> 0
   /\ exists a, size one_block_session = inr a /\ a <= 10240)
  /\ exists a',
       size (snd (add_paths py_encode (fs_stat demo_fs) false false false
                    idle_worker ["fileA"; "fileB"; "fileC"]%string
                    one_block_session))
       = inr a'
       /\ a' <= 10240.
Proof.
  assert (H : exists a, size one_block_session = inr a /\ a <= 10240).
  { exists 10240. split; [reflexivity | lia]. }
  split; [split; [reflexivity | split; [discriminate | exact H]] |].
  exact (proj2 (X5_size_stays_within_limit py_encode (fs_stat demo_fs)
                  false false false idle_worker
                  ["fileA"; "fileB"; "fileC"]%string one_block_session 10240
                  eq_refl ltac:(discriminate)) H).
Defined.

Lemma X7_total_grows_by_records_witness :
  fs_sizes_nonneg demo_fs = true
  /\ exists k,
       Z.of_nat (List.length
                   (added_paths
                      (fst (fst (add_paths_trace py_encode (fs_stat demo_fs)
                                   false false false idle_worker
                                   ["fileA"; "fileB"; "fileC"]%string
                                   one_block_session)))))
       <= k
       /\ _data_size (snd (add_paths_trace py_encode (fs_stat demo_fs)
                             false false false idle_worker
                             ["fileA"; "fileB"; "fileC"]%string
                             one_block_session))
          = _data_size one_block_session + 512 * k.
Proof.
  split; [reflexivity |].
  apply (X7_total_grows_by_records py_encode (fs_stat demo_fs)
           false false false idle_worker).
  apply fs_stat_sizes_nonneg. reflexivity.
Defined.

Lemma X8_other_exceptions_end_the_feeder_witness :
  (str_truthy latin_name = true
   /\ halt (mkLocals false None) = false
   /\ fst (add_path py_encode (fs_stat demo_fs) latin_name
             (run_steps (idle_worker 0) ascii_session))
      = inl UnicodeEncodeError
   /\ is_caught UnicodeEncodeError = false)
  /\ add_paths_loop py_encode (fs_stat demo_fs) true true true idle_worker
       0 [latin_name; "fileC"%string] (mkLocals false None) ascii_session
     = ([(latin_name, Uncaught UnicodeEncodeError)],
        mkLocals false None, ascii_session).
Proof.
  split; [repeat split |].
  exact (proj1 (X8_other_exceptions_end_the_feeder py_encode (fs_stat demo_fs)
                  true true true idle_worker 0 latin_name ["fileC"%string]
                  (mkLocals false None) ascii_session UnicodeEncodeError
                  eq_refl eq_refl eq_refl eq_refl)).
Defined.

Lemma X9_every_path_queued_or_yielded_witness :
  completed (fst (fst (add_paths_trace py_encode (fs_stat demo_fs)
                         false false false idle_worker
                         ["fileA"; ""; "fileB"; "nowhere"; "fileC"]%string
                         one_block_session))) = true
  /\ Permutation
       ["fileA"; "fileB"; "nowhere"; "fileC"]%string
       (["fileA"; "fileC"]%string ++ ["fileB"; "nowhere"]%string).
Proof.
  split; [reflexivity |].
  exact (proj1 (proj2 (X9_every_path_queued_or_yielded py_encode
                         (fs_stat demo_fs) false false false idle_worker
                         ["fileA"; ""; "fileB"; "nowhere"; "fileC"]%string
                         one_block_session eq_refl))).
Defined.

Lemma X10_archive_gets_the_queued_paths_witness :
  (is_alive unlimited_session = true
   /\ forallb item_truthy (_path_queue unlimited_session) = true
   /\ (List.length
         (_path_queue (snd (add_paths_trace py_encode (fs_stat demo_fs)
                              false false false busy_worker
                              ["fileA"; ""; "nowhere"; "fileC"; "fileB"]%string
                              unlimited_session)))
       < 4)%nat)
  /\ map Some
       (_tar (run_turns add_always 4
                (stop (snd (add_paths_trace py_encode (fs_stat demo_fs)
                              false false false busy_worker
                              ["fileA"; ""; "nowhere"; "fileC"; "fileB"]%string
                              unlimited_session)))))
     = map Some ["fileA"; "fileC"; "fileB"]%string.
Proof.
  split; [split; [reflexivity | split; [reflexivity | vm_compute; lia]] |].
  exact (proj1 (X10_archive_gets_the_queued_paths py_encode
                  (fs_stat demo_fs) false false false busy_worker add_always
                  ["fileA"; ""; "nowhere"; "fileC"; "fileB"]%string
                  unlimited_session 4 (fun _ => eq_refl) eq_refl eq_refl
                  ltac:(vm_compute; lia))).
Defined.

(** ** Splitting and the line reader *)

Lemma starts_with_app (d rest : text) : starts_with d (d ++ rest) = true.
Proof.
  induction d as [| a d IH]; [reflexivity |].
  simpl. rewrite Ascii.eqb_refl. exact IH.
Qed.

Lemma starts_with_split (d s : text) :
  starts_with d s = true -> exists rest, s = d ++ rest.
Proof.
  revert s. induction d as [| a d IH]; intros s H.
  - exists s. reflexivity.
  - destruct s as [| b s]; [discriminate |]. simpl in H.
    apply andb_true_iff in H. destruct H as (E & H).
    apply Ascii.eqb_eq in E. subst b.
    destruct (IH s H) as (rest & ->). exists rest. reflexivity.
Qed.

(** A separator found at the head of [a ++ b] lies in [a] when [a] is long
    enough. *)
Lemma starts_with_long (d a b : text) :
  starts_with d (a ++ b) = true -> (List.length d <= List.length a)%nat ->
  starts_with d a = true.
Proof.
  revert a. induction d as [| x d IH]; intros a H Hl; [reflexivity |].
  destruct a as [| y a]; [simpl in Hl; lia |].
  simpl in *. apply andb_true_iff in H. destruct H as (E & H).
  rewrite E. apply IH; [exact H | lia].
Qed.

Lemma starts_with_short (d s : text) :
  (List.length s < List.length d)%nat -> starts_with d s = false.
Proof.
  revert s. induction d as [| x d IH]; intros s H; [simpl in H; lia |].
  destruct s as [| y s]; [reflexivity |].
  simpl in *. rewrite IH by lia. apply andb_false_r.
Qed.

Lemma split_skip_over (d x rest : text) :
  split_skip d (List.length x) (x ++ rest) = split_skip d 0 rest.
Proof. induction x as [| c x IH]; [reflexivity | exact IH]. Qed.

Lemma split_hit (d rest : text) :
  d <> [] -> split_skip d 0 (d ++ rest) = [] :: split_skip d 0 rest.
Proof.
  intros Hd. destruct d as [| a d']; [contradiction |].
  change ((a :: d') ++ rest) with (a :: (d' ++ rest)).
  cbn [split_skip].
  change (a :: d' ++ rest) with ((a :: d') ++ rest).
  rewrite starts_with_app.
  replace (List.length (a :: d') - 1)%nat with (List.length d')
    by (simpl; lia).
  rewrite split_skip_over. reflexivity.
Qed.

Lemma split_miss (d : text) (c : ascii) (s : text) :
  starts_with d (c :: s) = false ->
  split_skip d 0 (c :: s) = cons_head c (split_skip d 0 s).
Proof. intros H. cbn [split_skip]. rewrite H. reflexivity. Qed.

Lemma split_skip_nonempty (d : text) (k : nat) (s : text) :
  split_skip d k s <> [].
Proof.
  revert k. induction s as [| c s IH]; intros k; [discriminate |].
  destruct k as [| k]; cbn [split_skip]; [| apply IH].
  destruct (starts_with d (c :: s)); [discriminate |].
  specialize (IH 0%nat). destruct (split_skip d 0 s); [contradiction |].
  discriminate.
Qed.

Lemma split_too_short (d s : text) :
  (List.length s < List.length d)%nat -> split_skip d 0 s = [s].
Proof.
  induction s as [| c s IH]; intros H; [reflexivity |].
  rewrite split_miss by (apply starts_with_short; exact H).
  rewrite IH by (simpl in H; lia). reflexivity.
Qed.

Lemma joined_cons (d x : text) (fields : list text) :
  fields <> [] -> joined d (x :: fields) = x ++ d ++ joined d fields.
Proof.
  intros H. unfold joined. destruct fields as [| y fields]; [contradiction |].
  cbn [removelast last map List.concat]. rewrite <- !app_assoc. reflexivity.
Qed.

Lemma joined_cons_head (d : text) (c : ascii) (fields : list text) :
  fields <> [] -> joined d (cons_head c fields) = c :: joined d fields.
Proof.
  intros H. destruct fields as [| x fields]; [contradiction |].
  unfold cons_head. destruct fields as [| y fields]; [reflexivity |].
  rewrite (joined_cons d (c :: x)), (joined_cons d x) by discriminate.
  reflexivity.
Qed.

Lemma by_length (P : text -> Prop) :
  (forall s, (forall t, (List.length t < List.length s)%nat -> P t) -> P s) ->
  forall s, P s.
Proof.
  intros H s.
  assert (G : forall n t, (List.length t < n)%nat -> P t).
  { induction n as [| n IH]; intros t Ht; [lia |].
    apply H. intros u Hu. apply IH. lia. }
  apply (G (S (List.length s))). lia.
Qed.

Lemma joined_split (d s : text) :
  d <> [] -> joined d (split_skip d 0 s) = s.
Proof.
  intros Hd. induction s as [s IH] using by_length.
  destruct s as [| c s]; [reflexivity |].
  destruct (starts_with d (c :: s)) eqn:E.
  - destruct (starts_with_split _ _ E) as (rest & Hr). rewrite Hr.
    rewrite split_hit by exact Hd.
    rewrite joined_cons by apply split_skip_nonempty.
    rewrite IH; [reflexivity |].
    rewrite Hr, length_app. destruct d; [contradiction | simpl; lia].
  - rewrite split_miss by exact E.
    rewrite joined_cons_head by apply split_skip_nonempty.
    rewrite IH by (simpl; lia). reflexivity.
Qed.

Lemma removelast_cons_head (c : ascii) (x y : text) (fields : list text) :
  removelast (cons_head c (x :: y :: fields))
  = (c :: x) :: removelast (y :: fields)
  /\ last (cons_head c (x :: y :: fields)) [] = last (y :: fields) [].
Proof. split; reflexivity. Qed.

(** The last field of a split holds no separator. *)
Lemma split_last_whole (d s : text) :
  d <> [] ->
  split_skip d 0 (last (split_skip d 0 s) []) = [last (split_skip d 0 s) []].
Proof.
  intros Hd. induction s as [s IH] using by_length.
  destruct s as [| c s]; [reflexivity |].
  destruct (starts_with d (c :: s)) eqn:E.
  - destruct (starts_with_split _ _ E) as (rest & Hr). rewrite Hr.
    rewrite split_hit by exact Hd.
    assert (Hn := split_skip_nonempty d 0 rest).
    destruct (split_skip d 0 rest) as [| x fields] eqn:Er; [contradiction |].
    change (last ([] :: x :: fields) []) with (last (x :: fields) []).
    rewrite <- Er. apply IH.
    rewrite Hr, length_app. destruct d; [contradiction | simpl; lia].
  - rewrite split_miss by exact E.
    assert (Hs := IH s ltac:(simpl; lia)).
    assert (Hj := joined_split d s Hd).
    destruct (split_skip d 0 s) as [| x [| y fields]] eqn:Es.
    + exfalso. exact (split_skip_nonempty d 0 s Es).
    + unfold joined in Hj. simpl in Hj. subst x.
      cbn [cons_head last]. rewrite split_miss by exact E.
      rewrite Es. reflexivity.
    + rewrite (proj2 (removelast_cons_head c x y fields)). exact Hs.
Qed.

(** Splitting a text read in two parts: the fields closed in the first
    part stay, the open one is split again with the second part. *)
Lemma split_app (d a b : text) :
  d <> [] ->
  split_skip d 0 (a ++ b)
  = removelast (split_skip d 0 a)
    ++ split_skip d 0 (last (split_skip d 0 a) [] ++ b).
Proof.
  intros Hd. induction a as [a IH] using by_length.
  destruct a as [| c a]; [reflexivity |].
  destruct (starts_with d (c :: a)) eqn:E.
  - destruct (starts_with_split _ _ E) as (rest & Hr). rewrite Hr.
    rewrite <- app_assoc, !split_hit by exact Hd.
    assert (Hn := split_skip_nonempty d 0 rest).
    rewrite IH
      by (rewrite Hr, length_app; destruct d; [contradiction | simpl; lia]).
    destruct (split_skip d 0 rest) as [| x fields]; [contradiction |].
    reflexivity.
  - destruct (starts_with d ((c :: a) ++ b)) eqn:E'.
    + assert (Hl : (List.length (c :: a) < List.length d)%nat).
      { destruct (Nat.le_gt_cases (List.length d) (List.length (c :: a)))
          as [Hle | Hgt]; [| exact Hgt].
        rewrite (starts_with_long _ _ _ E' Hle) in E. discriminate. }
      rewrite (split_too_short d (c :: a) Hl). reflexivity.
    + change ((c :: a) ++ b) with (c :: (a ++ b)) in *.
      rewrite (split_miss _ _ _ E'), (split_miss _ _ _ E).
      rewrite IH by (simpl; lia).
      assert (Hj := joined_split d a Hd).
      destruct (split_skip d 0 a) as [| x [| y fields]] eqn:Es.
      * exfalso. exact (split_skip_nonempty d 0 a Es).
      * unfold joined in Hj. simpl in Hj. subst x.
        cbn [cons_head removelast last app].
        rewrite (split_miss _ _ _ E'). reflexivity.
      * destruct (removelast_cons_head c x y fields) as (R1 & R2).
        rewrite R1, R2. reflexivity.
Qed.

Lemma last_app_nonempty {A : Type} (l l' : list A) (x : A) :
  l' <> [] -> last (l ++ l') x = last l' x.
Proof.
  intros H. induction l as [| a l IH]; [reflexivity |].
  simpl. rewrite IH. destruct (l ++ l') eqn:E; [| reflexivity].
  apply app_eq_nil in E. destruct E as (_ & E). contradiction.
Qed.

Lemma records_app (d : text) (closed fields : list text) :
  fields <> [] ->
  records d (closed ++ fields)
  = map (fun line => line ++ d) closed ++ records d fields.
Proof.
  intros H. unfold records.
  rewrite removelast_app, last_app_nonempty by exact H.
  rewrite map_app, <- app_assoc. reflexivity.
Qed.

Lemma concat_records (d : text) (fields : list text) :
  List.concat (records d fields) = joined d fields.
Proof.
  unfold records, joined. rewrite List.concat_app. f_equal.
  unfold last_line. destruct (last fields []); [reflexivity |].
  simpl. rewrite app_nil_r. reflexivity.
Qed.

(** The loop, from a rest that holds no delimiter. *)
Lemma lines_loop_records (d : text) (reads : list text) :
  d <> [] ->
  forall partial_line : text,
  split_skip d 0 partial_line = [partial_line] ->
  lines_loop d reads partial_line
  = (records d (split_skip d 0 (partial_line ++ read_content reads)), None).
Proof.
  intros Hd. induction reads as [| chars reads IH]; intros p Hp.
  - simpl. rewrite app_nil_r, Hp. reflexivity.
  - cbn [lines_loop read_content]. destruct chars as [| c chars].
    + rewrite app_nil_r, Hp. reflexivity.
    + unfold str_split. destruct d as [| a d']; [contradiction |].
      cbn [ret].
      rewrite (IH (last (split_skip (a :: d') 0 (p ++ c :: chars)) []))
        by (apply split_last_whole; discriminate).
      rewrite (app_assoc p (c :: chars)).
      rewrite (split_app (a :: d') (p ++ c :: chars)) by discriminate.
      rewrite records_app by apply split_skip_nonempty. reflexivity.
Qed.

(** X12: for a non-empty delimiter the generator never raises and yields
    the records of [content.split(delimiter)], where [content] is all that
    was read: every field but the last with the delimiter behind it, then
    the last field unless it is empty.  The result depends on the text
    read only, not on how [read(size)] cut it. *)
Theorem X12_lines_are_records_of_the_content (input_file : text_file)
        (delimiter : text) (size : Z) :
  delimiter <> [] ->
  (exists fields,
      str_split (read_content (read input_file size)) delimiter = inr fields
      /\ _file_iter_lines_gen input_file delimiter size
         = (records delimiter fields, None))
  /\ (forall (other : text_file) (size' : Z),
         read_content (read other size') = read_content (read input_file size) ->
         _file_iter_lines_gen other delimiter size'
         = _file_iter_lines_gen input_file delimiter size).
Proof.
  intros Hd.
  assert (G : forall f s,
             _file_iter_lines_gen f delimiter s
             = (records delimiter
                  (split_skip delimiter 0 (read_content (read f s))), None)).
  { intros f s. unfold _file_iter_lines_gen.
    rewrite (lines_loop_records delimiter (read f s) Hd []); reflexivity. }
  split.
  - exists (split_skip delimiter 0 (read_content (read input_file size))).
    split; [| apply G].
    unfold str_split. destruct delimiter; [contradiction | reflexivity].
  - intros other size' E. rewrite !G, E. reflexivity.
Qed.

Lemma X12_lines_are_records_of_the_content_witness :
  demo_delimiter <> []
  /\ _file_iter_lines_gen (regular_file demo_text) demo_delimiter 3
     = (map list_ascii_of_string ["ab;;"; "cd;;"; ";;"; "e"]%string, None)
  /\ _file_iter_lines_gen (regular_file demo_text) demo_delimiter 4
     = _file_iter_lines_gen (regular_file demo_text) demo_delimiter 3.
Proof.
  split; [discriminate |].
  destruct (X12_lines_are_records_of_the_content (regular_file demo_text)
              demo_delimiter 3 ltac:(discriminate)) as ((fields & Hs & Hg) & Ho).
  split.
  - rewrite Hg. vm_compute in Hs. injection Hs as <-. reflexivity.
  - apply Ho. reflexivity.
Defined.

(** X13: for a non-empty delimiter nothing is lost and nothing is added:
    the strings yielded, put end to end, are exactly the text read, and
    none of them is empty. *)
Theorem X13_lines_add_up_to_the_content (input_file : text_file)
        (delimiter : text) (size : Z) :
  delimiter <> [] ->
  List.concat (fst (_file_iter_lines_gen input_file delimiter size))
  = read_content (read input_file size)
  /\ Forall (fun line => line <> [])
            (fst (_file_iter_lines_gen input_file delimiter size)).
Proof.
  intros Hd. unfold _file_iter_lines_gen.
  rewrite (lines_loop_records delimiter (read input_file size) Hd []);
    [| reflexivity].
  cbn [fst app]. split.
  - rewrite concat_records. apply joined_split. exact Hd.
  - unfold records. apply Forall_app. split.
    + apply Forall_map. apply Forall_forall. intros x _ E.
      apply app_eq_nil in E. destruct E as (_ & E). contradiction.
    + unfold last_line.
      destruct (last (split_skip delimiter 0
                        (read_content (read input_file size))) []);
        constructor; [discriminate | constructor].
Qed.

Lemma X13_lines_add_up_to_the_content_witness :
  demo_delimiter <> []
  /\ List.concat (fst (_file_iter_lines_gen (regular_file demo_text)
                         demo_delimiter 3))
     = demo_text.
Proof.
  split; [discriminate |].
  exact (proj1 (X13_lines_add_up_to_the_content (regular_file demo_text)
                  demo_delimiter 3 ltac:(discriminate))).
Defined.

(** X14: with an empty delimiter the generator raises the [ValueError] of
    [split] at the first string it reads, before yielding anything; when
    the first read is already empty it yields nothing and does not
    raise. *)
Theorem X14_empty_delimiter_raises (input_file : text_file) (size : Z) :
  (read_content (read input_file size) <> [] ->
   _file_iter_lines_gen input_file [] size = ([], Some ValueError))
  /\ (read_content (read input_file size) = [] ->
      _file_iter_lines_gen input_file [] size = ([], None)).
Proof.
  unfold _file_iter_lines_gen.
  destruct (read input_file size) as [| chars reads]; [split; auto; intros H; contradiction |].
  destruct chars as [| c chars]; cbn [lines_loop read_content];
    [split; auto; intros H; contradiction |].
  split; [reflexivity | discriminate].
Qed.

Lemma chunks_content (size : nat) :
  (0 < size)%nat ->
  forall (fuel : nat) (content : text),
  (List.length content <= fuel)%nat ->
  read_content (chunks fuel size content) = content.
Proof.
  intros Hs. induction fuel as [| fuel IH]; intros content Hf.
  - destruct content; [reflexivity | simpl in Hf; lia].
  - destruct content as [| c content]; [reflexivity |].
    cbn [chunks read_content].
    destruct size as [| size']; [lia |].
    cbn [firstn]. rewrite IH.
    + change (c :: firstn size' content) with (firstn (S size') (c :: content)).
      apply firstn_skipn.
    + cbn [skipn]. rewrite length_skipn. simpl in Hf. lia.
Qed.

Lemma regular_file_content (content : text) (size : Z) :
  size <> 0 -> read_content (read (regular_file content) size) = content.
Proof.
  intros Hs. cbn [read regular_file].
  destruct (Z.ltb_spec size 0) as [Hneg | Hpos].
  - destruct content; [reflexivity |]. simpl. rewrite app_nil_r. reflexivity.
  - destruct (Z.eqb_spec size 0) as [E | _]; [contradiction |].
    apply chunks_content; lia.
Qed.

Lemma prepend_cons_head (x : text) (c : ascii) (fields : list text) :
  fields <> [] ->
  prepend x (cons_head c fields) = prepend (x ++ [c]) fields.
Proof.
  intros H. destruct fields as [| f fields]; [contradiction |].
  simpl. rewrite <- app_assoc. reflexivity.
Qed.

Lemma keepends_records (content : text) :
  forall line : text,
  keepends line content
  = records newline (prepend (rev line) (split_skip newline 0 content)).
Proof.
  induction content as [| c content IH]; intros line.
  - simpl. unfold records. simpl. rewrite app_nil_r. reflexivity.
  - cbn [keepends].
    destruct (Ascii.eqb c (ascii_of_nat 10)) eqn:E.
    + apply Ascii.eqb_eq in E. subst c.
      change (ascii_of_nat 10 :: content) with (newline ++ content).
      rewrite split_hit by discriminate. rewrite IH.
      assert (Hn := split_skip_nonempty newline 0 content).
      destruct (split_skip newline 0 content) as [| f fields];
        [contradiction |].
      unfold records, prepend.
      cbn [removelast last map app rev]. rewrite app_nil_r. reflexivity.
    + assert (M : starts_with newline (c :: content) = false).
      { unfold newline. cbn [starts_with].
        rewrite Ascii.eqb_sym, E. reflexivity. }
      rewrite (split_miss _ _ _ M), IH. cbn [rev].
      rewrite prepend_cons_head by apply split_skip_nonempty. reflexivity.
Qed.

(** X15: on a regular file read with a [size] other than 0 the generator
    yields the records of the whole content, so the chunk size does not
    matter, and for the newline delimiter [_file_iter_lines], which hands
    back the file object itself, gives the same lines as the generator
    would; with [size = 0] the generator yields nothing, whatever the file
    holds. *)
Theorem X15_regular_file_lines (content delimiter : text) (size : Z) :
  (size <> 0 -> delimiter <> [] ->
   _file_iter_lines_gen (regular_file content) delimiter size
   = (records delimiter (split_skip delimiter 0 content), None))
  /\ (size <> 0 ->
      _file_iter_lines (regular_file content) newline size
      = _file_iter_lines_gen (regular_file content) newline size)
  /\ _file_iter_lines_gen (regular_file content) delimiter 0 = ([], None).
Proof.
  assert (G : forall d, size <> 0 -> d <> [] ->
             _file_iter_lines_gen (regular_file content) d size
             = (records d (split_skip d 0 content), None)).
  { intros d Hs Hd. unfold _file_iter_lines_gen.
    rewrite (lines_loop_records d _ Hd []) by reflexivity.
    rewrite regular_file_content by exact Hs. reflexivity. }
  split; [apply G |]. split; [| reflexivity].
  intros Hs. rewrite (G newline Hs) by discriminate.
  unfold _file_iter_lines.
  replace (text_eqb newline newline) with true by reflexivity.
  cbn [iter_lines regular_file]. rewrite keepends_records.
  cbn [rev].
  assert (Hn := split_skip_nonempty newline 0 content).
  destruct (split_skip newline 0 content); [contradiction | reflexivity].
Qed.

Lemma X15_regular_file_lines_witness :
  (3 <> 0 /\ demo_delimiter <> [])
  /\ _file_iter_lines_gen (regular_file demo_text) demo_delimiter 3
     = (records demo_delimiter (split_skip demo_delimiter 0 demo_text), None)
  /\ _file_iter_lines (regular_file demo_text) newline 3
     = _file_iter_lines_gen (regular_file demo_text) newline 3.
Proof.
  split; [split; discriminate |].
  destruct (X15_regular_file_lines demo_text demo_delimiter 3) as (H1 & H2 & _).
  split; [apply H1; discriminate | apply H2; discriminate].
Defined.

Lemma X14_empty_delimiter_raises_witness :
  read_content (read (regular_file demo_text) 4) <> []
  /\ _file_iter_lines_gen (regular_file demo_text) [] 4 = ([], Some ValueError).
Proof.
  split; [discriminate |].
  apply (proj1 (X14_empty_delimiter_raises (regular_file demo_text) 4)).
  discriminate.
Defined.

(** ** The size argument *)

Lemma text_eqb_eq (a b : text) : text_eqb a b = true <-> a = b.
Proof.
  unfold text_eqb. rewrite String.eqb_eq. split; [| intros ->; reflexivity].
  intros H. apply (f_equal list_ascii_of_string) in H.
  rewrite !list_ascii_of_string_of_list_ascii in H. exact H.
Qed.

Lemma text_eqb_char (c c' : ascii) : text_eqb [c] [c'] = Ascii.eqb c c'.
Proof.
  destruct (Ascii.eqb c c') eqn:E.
  - apply Ascii.eqb_eq in E. subst. apply text_eqb_eq. reflexivity.
  - destruct (text_eqb [c] [c']) eqn:E'; [| reflexivity].
    apply text_eqb_eq in E'. injection E' as ->.
    rewrite Ascii.eqb_refl in E. discriminate.
Qed.

Lemma index_last_app (body : text) (c : ascii) :
  index_last (body ++ [c]) = inr [c].
Proof. unfold index_last. rewrite rev_app_distr. reflexivity. Qed.

Lemma index_before_last_app (body : text) (p c : ascii) :
  index_before_last (body ++ [p; c]) = inr [p].
Proof. unfold index_before_last. rewrite rev_app_distr. reflexivity. Qed.

Lemma slice_to_app (body tail : text) :
  slice_to (List.length tail) (body ++ tail) = body.
Proof.
  unfold slice_to. rewrite length_app.
  replace (List.length body + List.length tail - List.length tail)%nat
    with (List.length body + 0)%nat by lia.
  rewrite firstn_app_2. simpl. apply app_nil_r.
Qed.

Lemma slice_to_1 (body : text) (c : ascii) : slice_to 1 (body ++ [c]) = body.
Proof. exact (slice_to_app body [c]). Qed.

Lemma slice_to_2 (body : text) (p c : ascii) :
  slice_to 2 (body ++ [p; c]) = body.
Proof. exact (slice_to_app body [p; c]). Qed.

Lemma slice_before_last_app (body : text) (p c : ascii) :
  slice_before_last (body ++ [p; c]) = [p].
Proof.
  unfold slice_before_last. rewrite length_app. cbn [List.length].
  replace (List.length body + 2 - 1 - (List.length body + 2 - 2))%nat
    with 1%nat by lia.
  replace (List.length body + 2 - 2)%nat with (List.length body + 0)%nat
    by lia.
  rewrite skipn_app, skipn_all2 by lia.
  replace (List.length body + 0 - List.length body)%nat with 0%nat by lia.
  reflexivity.
Qed.

(** The prefixes are the eight letters, each with its rank. *)
Lemma metric_prefix_rank (key : text) (k : Z) :
  dict_get _metric_prefixes key = inr k ->
  (exists p, key = [p] /\ Ascii.eqb p "I" = false /\ Ascii.eqb p "B" = false)
  /\ 1 <= k <= 8.
Proof.
  unfold _metric_prefixes. cbn [dict_get].
  repeat (match goal with
          | |- context [text_eqb ?a key] =>
              let E := fresh "E" in
              let H := fresh "H" in
              destruct (text_eqb a key) eqn:E;
              [apply text_eqb_eq in E; subst key; intros H; injection H as <-;
               split; [eexists; repeat split | lia] |]
          end).
  discriminate.
Qed.

Section ByteTypeFacts.

Variable str_upper : text -> text.
Variable number : Type.
Variable py_float : text -> size_exn + number.
Variable py_mul : number -> Z -> number.
Variable py_int_of_float : number -> size_exn + Z.
Variable py_int : text -> size_exn + Z.

Lemma to_byte_type_without_B (value body : text) (c : ascii) :
  str_upper value = body ++ [c] -> Ascii.eqb c "B" = false ->
  _to_byte_type str_upper number py_float py_mul py_int_of_float py_int value
  = interpret number py_float py_mul py_int_of_float py_int (body ++ [c]).
Proof.
  intros Hu Hc. unfold _to_byte_type. rewrite Hu.
  destruct (body ++ [c]) as [| x u] eqn:E;
    [destruct body; discriminate |].
  rewrite <- E. rewrite index_last_app. cbn [and_then].
  change (txt "B") with ["B"%char]. rewrite text_eqb_char, Hc. reflexivity.
Qed.

Lemma to_byte_type_with_B (value body : text) :
  str_upper value = body ++ txt "B" ->
  _to_byte_type str_upper number py_float py_mul py_int_of_float py_int value
  = interpret number py_float py_mul py_int_of_float py_int body.
Proof.
  intros Hu. unfold _to_byte_type. rewrite Hu.
  change (txt "B") with ["B"%char].
  destruct (body ++ ["B"%char]) as [| x u] eqn:E;
    [destruct body; discriminate |].
  rewrite <- E. rewrite index_last_app. cbn [and_then].
  rewrite text_eqb_char, Ascii.eqb_refl.
  rewrite slice_to_1. reflexivity.
Qed.

Lemma interpret_binary (digits : text) (p : ascii) (k : Z) :
  dict_get _metric_prefixes [p] = inr k ->
  interpret number py_float py_mul py_int_of_float py_int
            (digits ++ [p; "I"%char])
  = and_then (py_float digits)
             (fun x => py_int_of_float (py_mul x (1024 ^ k))).
Proof.
  intros Hk. unfold interpret.
  replace (digits ++ [p; "I"%char]) with ((digits ++ [p]) ++ ["I"%char])
    by (rewrite <- app_assoc; reflexivity).
  rewrite index_last_app. cbn [and_then].
  change (txt "I") with ["I"%char]. rewrite text_eqb_char, Ascii.eqb_refl.
  rewrite <- app_assoc. cbn [app].
  rewrite slice_before_last_app. unfold dict_contains. rewrite Hk.
  rewrite slice_to_2.
  rewrite index_before_last_app.
  destruct (py_float digits) as [e | x]; [reflexivity |].
  cbn [and_then]. rewrite Hk. cbn [and_then].
  destruct (metric_prefix_rank _ _ Hk) as (_ & Hr).
  replace (2 ^ (k * 10)) with (1024 ^ k); [reflexivity |].
  rewrite Z.mul_comm, Z.pow_mul_r by lia. reflexivity.
Qed.

Lemma interpret_metric (digits : text) (p : ascii) (k : Z) :
  dict_get _metric_prefixes [p] = inr k ->
  interpret number py_float py_mul py_int_of_float py_int (digits ++ [p])
  = and_then (py_float digits)
             (fun x => py_int_of_float (py_mul x (1000 ^ k))).
Proof.
  intros Hk. unfold interpret.
  rewrite index_last_app. cbn [and_then].
  destruct (metric_prefix_rank _ _ Hk) as ((q & Eq & HI & HB) & _).
  injection Eq as Eq. subst q.
  change (txt "I") with ["I"%char]. rewrite text_eqb_char, HI.
  unfold dict_contains. rewrite Hk.
  rewrite slice_to_1.
  destruct (py_float digits) as [e | x]; reflexivity.
Qed.

Lemma interpret_bad_binary (body : text) :
  dict_contains _metric_prefixes (slice_before_last (body ++ txt "I")) = false ->
  interpret number py_float py_mul py_int_of_float py_int (body ++ txt "I")
  = inl (Exception "Invalid binary prefix.").
Proof.
  intros H. unfold interpret. change (txt "I") with ["I"%char] in *.
  rewrite index_last_app. cbn [and_then].
  change (txt "I") with ["I"%char]. rewrite text_eqb_char, Ascii.eqb_refl.
  rewrite H. reflexivity.
Qed.

(** X16: the errors of [_to_byte_type]: an empty value raises the
    [Exception] "Size not specified."; a value that is just the letter B,
    in either case, gets past that test and raises [IndexError] on the
    next subscript; a value ending in I or IB whose letter before the I is
    missing or is not one of KMGTPEZY raises the [Exception] "Invalid
    binary prefix.". *)
Theorem X16_size_argument_errors (value : text) :
  (str_upper value = [] ->
   _to_byte_type str_upper number py_float py_mul py_int_of_float py_int value
   = inl (Exception "Size not specified."))
  /\ (str_upper value = txt "B" ->
      _to_byte_type str_upper number py_float py_mul py_int_of_float py_int
                    value
      = inl IndexError)
  /\ (forall body : text,
         str_upper value = body ++ txt "I" \/ str_upper value = body ++ txt "IB" ->
         body = []
         \/ (exists body' c, body = body' ++ [c]
                             /\ dict_contains _metric_prefixes [c] = false) ->
         _to_byte_type str_upper number py_float py_mul py_int_of_float py_int
                       value
         = inl (Exception "Invalid binary prefix.")).
Proof.
  split; [| split].
  - intros Hu. unfold _to_byte_type. rewrite Hu. reflexivity.
  - intros Hu. rewrite (to_byte_type_with_B value []) by exact Hu.
    reflexivity.
  - intros body Hu Hb.
    assert (Hc : dict_contains _metric_prefixes
                   (slice_before_last (body ++ txt "I")) = false).
    { destruct Hb as [-> | (body' & c & -> & Hc)]; [reflexivity |].
      rewrite <- app_assoc. change ([c] ++ txt "I") with [c; "I"%char].
      rewrite slice_before_last_app. exact Hc. }
    destruct Hu as [Hu | Hu].
    + change (txt "I") with ["I"%char] in Hu.
      rewrite (to_byte_type_without_B value body "I"%char Hu) by reflexivity.
      apply interpret_bad_binary. exact Hc.
    + change (txt "IB") with (txt "I" ++ txt "B") in Hu. rewrite app_assoc in Hu.
      rewrite (to_byte_type_with_B value (body ++ txt "I") Hu).
      apply interpret_bad_binary. exact Hc.
Qed.

(** X17: a final B is optional: a value and the same value with a B behind
    it give the same result or raise the same exception, provided the
    value is not empty and does not itself end in B. *)
Theorem X17_final_B_is_optional (value value_B body : text) (c : ascii) :
  str_upper value = body ++ [c] -> Ascii.eqb c "B" = false ->
  str_upper value_B = str_upper value ++ txt "B" ->
  _to_byte_type str_upper number py_float py_mul py_int_of_float py_int value_B
  = _to_byte_type str_upper number py_float py_mul py_int_of_float py_int value.
Proof.
  intros Hu Hc HB.
  rewrite (to_byte_type_with_B value_B (str_upper value) HB).
  rewrite (to_byte_type_without_B value body c Hu Hc), Hu. reflexivity.
Qed.

(** X18: the multipliers: a value made of a number, one of the letters
    KMGTPEZY of rank [k] (K is 1, Y is 8) and I or IB is the integer part
    of the number times [1024 ^ k]; with the letter alone, or the letter
    and B, it is the integer part of the number times [1000 ^ k]; an error
    of [float] on the number is the error of the call. *)
Theorem X18_size_multipliers (value digits : text) (p : ascii) (k : Z) :
  dict_get _metric_prefixes [p] = inr k ->
  (str_upper value = digits ++ [p] ++ txt "I"
   \/ str_upper value = digits ++ [p] ++ txt "IB" ->
   _to_byte_type str_upper number py_float py_mul py_int_of_float py_int value
   = and_then (py_float digits)
              (fun x => py_int_of_float (py_mul x (1024 ^ k))))
  /\ (str_upper value = digits ++ [p]
      \/ str_upper value = digits ++ [p] ++ txt "B" ->
      _to_byte_type str_upper number py_float py_mul py_int_of_float py_int
                    value
      = and_then (py_float digits)
                 (fun x => py_int_of_float (py_mul x (1000 ^ k))))
  /\ 1 <= k <= 8.
Proof.
  intros Hk.
  destruct (metric_prefix_rank _ _ Hk) as ((q & Eq & HI & HB) & Hr).
  injection Eq as Eq. subst q.
  split; [| split; [| exact Hr]].
  - intros [Hu | Hu].
    + change (digits ++ [p] ++ txt "I") with (digits ++ [p; "I"%char]) in Hu.
      replace (digits ++ [p; "I"%char]) with ((digits ++ [p]) ++ ["I"%char])
        in Hu by (rewrite <- app_assoc; reflexivity).
      rewrite (to_byte_type_without_B value _ _ Hu) by reflexivity.
      rewrite <- app_assoc. apply interpret_binary. exact Hk.
    + replace (digits ++ [p] ++ txt "IB")
        with ((digits ++ [p; "I"%char]) ++ txt "B") in Hu
        by (rewrite <- !app_assoc; reflexivity).
      rewrite (to_byte_type_with_B value _ Hu).
      apply interpret_binary. exact Hk.
  - intros [Hu | Hu].
    + rewrite (to_byte_type_without_B value _ _ Hu HB).
      apply interpret_metric. exact Hk.
    + rewrite app_assoc in Hu.
      rewrite (to_byte_type_with_B value _ Hu).
      apply interpret_metric. exact Hk.
Qed.

End ByteTypeFacts.

Lemma X16_size_argument_errors_witness :
  demo_to_byte_type "" = inl (Exception "Size not specified.")
  /\ demo_to_byte_type "b" = inl IndexError
  /\ demo_to_byte_type "12xib" = inl (Exception "Invalid binary prefix.").
Proof.
  destruct (X16_size_argument_errors demo_upper Q demo_float demo_mul
              demo_int_of_float demo_int (txt "")) as (H1 & _ & _).
  destruct (X16_size_argument_errors demo_upper Q demo_float demo_mul
              demo_int_of_float demo_int (txt "b")) as (_ & H2 & _).
  destruct (X16_size_argument_errors demo_upper Q demo_float demo_mul
              demo_int_of_float demo_int (txt "12xib")) as (_ & _ & H3).
  split; [exact (H1 eq_refl) |]. split; [exact (H2 eq_refl) |].
  apply (H3 (txt "12X")); [right; reflexivity |].
  right. exists (txt "12"), "X"%char. split; reflexivity.
Defined.

Lemma X17_final_B_is_optional_witness :
  (demo_upper (txt "10ki") = txt "10K" ++ ["I"%char]
   /\ Ascii.eqb "I" "B" = false
   /\ demo_upper (txt "10kib") = demo_upper (txt "10ki") ++ txt "B")
  /\ demo_to_byte_type "10kib" = demo_to_byte_type "10ki".
Proof.
  split; [repeat split |].
  apply (X17_final_B_is_optional demo_upper Q demo_float demo_mul
           demo_int_of_float demo_int (txt "10ki") (txt "10kib") (txt "10K")
           "I"%char); reflexivity.
Defined.

Lemma X18_size_multipliers_witness :
  dict_get _metric_prefixes ["M"%char] = inr 2
  /\ demo_to_byte_type "3MiB" = inr (3 * 1024 ^ 2)
  /\ demo_to_byte_type "3m" = inr (3 * 1000 ^ 2).
Proof.
  split; [reflexivity |].
  destruct (X18_size_multipliers demo_upper Q demo_float demo_mul
              demo_int_of_float demo_int (txt "3MiB") (txt "3") "M"%char 2
              eq_refl) as (H1 & _ & _).
  destruct (X18_size_multipliers demo_upper Q demo_float demo_mul
              demo_int_of_float demo_int (txt "3m") (txt "3") "M"%char 2
              eq_refl) as (_ & H2 & _).
  split.
  - unfold demo_to_byte_type. rewrite H1 by (right; reflexivity). reflexivity.
  - unfold demo_to_byte_type. rewrite H2 by (left; reflexivity). reflexivity.
Defined.

(** ** The list of rejected paths *)

Lemma set_file_same (n : string) (content : text) (w : world) :
  files (set_file n content w) n = Some content.
Proof. unfold set_file. simpl. rewrite String.eqb_refl. reflexivity. Qed.

Lemma set_file_other (n m : string) (content : text) (w : world) :
  m <> n -> files (set_file n content w) m = files w m.
Proof.
  intros H. unfold set_file. simpl.
  destruct (String.eqb_spec m n) as [E | _]; [contradiction | reflexivity].
Qed.

(** X19: the output file is created lazily but emptied eagerly: on a name
    that has a file, constructing the object empties that file at once,
    written to or not; on a name that has none, constructing the object
    touches nothing, and the file appears with the first [write], holding
    what was written. *)
Theorem X19_output_file_lazy_creation (n : string) (w : world) :
  str_truthy n = true -> unwritable w n = false ->
  (forall content, files w n = Some content ->
     exists w',
       out_init (Some n) w = (inr (mkOut (Some n) (Some (mkFile n false))), w')
       /\ files w' n = Some []
       /\ (forall m, m <> n -> files w' m = files w m))
  /\ (files w n = None ->
      out_init (Some n) w = (inr (mkOut (Some n) None), w)
      /\ forall data, exists w',
           out_write (mkOut (Some n) None) data w
           = (inr (mkOut (Some n) (Some (mkFile n false))), w')
           /\ files w' n = Some data
           /\ (forall m, m <> n -> files w' m = files w m)).
Proof.
  intros Hn Hw. split.
  - intros content Hf. exists (set_file n [] w).
    unfold out_init, readable, open_w. rewrite Hn, Hf, Hw. cbn [andb negb].
    split; [reflexivity |]. split; [apply set_file_same |].
    intros m Hm. apply set_file_other. exact Hm.
  - intros Hf. split.
    + unfold out_init, readable. rewrite Hn, Hf. reflexivity.
    + intros data. exists (set_file n data (set_file n [] w)).
      unfold out_write, open_w, file_write.
      cbn [out_path out_f]. rewrite Hn, Hw. cbn [negb]. unfold ret.
      cbn [closed name]. rewrite set_file_same. cbn [app].
      split; [reflexivity |]. split; [apply set_file_same |].
      intros m Hm. rewrite !set_file_other by exact Hm. reflexivity.
Qed.

Lemma X19_output_file_lazy_creation_witness :
  (str_truthy "old.txt" = true /\ unwritable demo_world "old.txt" = false
   /\ files demo_world "old.txt" = Some (txt "stale"))
  /\ exists w',
       out_init (Some "old.txt"%string) demo_world
       = (inr (mkOut (Some "old.txt"%string)
                     (Some (mkFile "old.txt" false))), w')
       /\ files w' "old.txt"%string = Some []
       /\ (forall m, m <> "old.txt"%string -> files w' m = files demo_world m).
Proof.
  split; [repeat split |].
  exact (proj1 (X19_output_file_lazy_creation "old.txt" demo_world
                  eq_refl eq_refl) (txt "stale") eq_refl).
Defined.

Lemma out_write_open (n : string) (acc data : text) (w : world) :
  str_truthy n = true -> files w n = Some acc ->
  out_write (mkOut (Some n) (Some (mkFile n false))) data w
  = (inr (mkOut (Some n) (Some (mkFile n false))),
     set_file n (acc ++ data) w).
Proof.
  intros Hn Hf. unfold out_write, file_write.
  cbn [out_path out_f closed name]. rewrite Hn, Hf. reflexivity.
Qed.

Lemma out_write_all_open (n : string) (items : list text) :
  str_truthy n = true ->
  forall (acc : text) (w : world),
  files w n = Some acc ->
  exists w',
    out_write_all (mkOut (Some n) (Some (mkFile n false))) items w
    = (inr (mkOut (Some n) (Some (mkFile n false))), w')
    /\ files w' n = Some (acc ++ List.concat items)
    /\ (forall m, m <> n -> files w' m = files w m)
    /\ stderr w' = stderr w.
Proof.
  intros Hn. induction items as [| data items IH]; intros acc w Hf.
  - exists w. simpl. rewrite app_nil_r. auto.
  - cbn [out_write_all]. rewrite (out_write_open n acc data w Hn Hf).
    destruct (IH (acc ++ data) (set_file n (acc ++ data) w)
                 (set_file_same _ _ _)) as (w' & E & F & O & S).
    exists w'. split; [exact E |]. split.
    + rewrite F. simpl. rewrite app_assoc. reflexivity.
    + split; [| exact S].
      intros m Hm. rewrite (O m Hm). apply set_file_other. exact Hm.
Qed.

(** How the constructor leaves a writable name: with an empty file and an
    open object, or untouched and without one. *)
Lemma out_init_writable (n : string) (w : world) :
  str_truthy n = true -> unwritable w n = false ->
  (exists w1,
      out_init (Some n) w = (inr (mkOut (Some n) (Some (mkFile n false))), w1)
      /\ files w1 n = Some []
      /\ (forall m, m <> n -> files w1 m = files w m)
      /\ stderr w1 = stderr w
      /\ unwritable w1 n = false)
  \/ (out_init (Some n) w = (inr (mkOut (Some n) None), w)
      /\ files w n = None).
Proof.
  intros Hn Hw. unfold out_init, readable, open_w. rewrite Hn, Hw.
  cbn [andb negb]. destruct (files w n) as [content |] eqn:Hf.
  - left. exists (set_file n [] w). split; [reflexivity |].
    split; [apply set_file_same |].
    split; [intros m Hm; apply set_file_other; exact Hm |].
    split; [reflexivity | exact Hw].
  - right. split; reflexivity.
Qed.

(** X20: whatever the file held before, after the object is constructed
    on a writable name and at least one item is written, the file holds
    the items written, in order and nothing else; no other file and
    nothing on standard error changes. *)
Theorem X20_output_file_holds_the_writes (n : string) (w : world)
        (first : text) (items : list text) :
  str_truthy n = true -> unwritable w n = false ->
  exists self w1 self' w',
    out_init (Some n) w = (inr self, w1)
    /\ out_write_all self (first :: items) w1 = (inr self', w')
    /\ files w' n = Some (List.concat (first :: items))
    /\ (forall m, m <> n -> files w' m = files w m)
    /\ stderr w' = stderr w.
Proof.
  intros Hn Hw.
  destruct (out_init_writable n w Hn Hw) as [(w1 & Hi & F1 & O1 & S1 & Hwr)
                                      | (Hi & Hf)].
  - destruct (out_write_all_open n (first :: items) Hn [] w1 F1)
      as (w' & E & F & O & S).
    exists (mkOut (Some n) (Some (mkFile n false))), w1,
           (mkOut (Some n) (Some (mkFile n false))), w'.
    split; [exact Hi |]. split; [exact E |]. split; [exact F |].
    split; [intros m Hm; rewrite (O m Hm); exact (O1 m Hm) | congruence].
  - set (w2 := set_file n first (set_file n [] w)).
    assert (Hfirst : out_write (mkOut (Some n) None) first w
                     = (inr (mkOut (Some n) (Some (mkFile n false))), w2)).
    { unfold out_write, open_w, file_write.
      cbn [out_path out_f]. rewrite Hn, Hw. cbn [negb]. unfold ret.
      cbn [closed name]. rewrite set_file_same. reflexivity. }
    destruct (out_write_all_open n items Hn first w2 (set_file_same _ _ _))
      as (w' & E & F & O & S).
    exists (mkOut (Some n) None), w,
           (mkOut (Some n) (Some (mkFile n false))), w'.
    split; [exact Hi |]. split.
    + cbn [out_write_all]. rewrite Hfirst. exact E.
    + split; [exact F |]. split; [| exact S].
      intros m Hm. rewrite (O m Hm). unfold w2.
      rewrite !set_file_other by exact Hm. reflexivity.
Qed.

Lemma X20_output_file_holds_the_writes_witness :
  (str_truthy "old.txt" = true /\ unwritable demo_world "old.txt" = false)
  /\ exists self w1 self' w',
       out_init (Some "old.txt"%string) demo_world = (inr self, w1)
       /\ out_write_all self [txt "fileB;"; txt "fileC;"] w1 = (inr self', w')
       /\ files w' "old.txt"%string
          = Some (List.concat [txt "fileB;"; txt "fileC;"])
       /\ (forall m, m <> "old.txt"%string -> files w' m = files demo_world m)
       /\ stderr w' = stderr demo_world.
Proof.
  split; [split; reflexivity |].
  exact (X20_output_file_holds_the_writes "old.txt" demo_world (txt "fileB;")
           [txt "fileC;"] eq_refl eq_refl).
Defined.

(** X21: without a path ([None], or the empty string) the object never
    opens a file: every item written is printed to standard error, in
    order and each followed by a newline, and no file changes. *)
Theorem X21_no_path_prints_to_stderr (path : option string)
        (items : list text) (w : world) :
  item_truthy path = false ->
  out_init path w = (inr (mkOut path None), w)
  /\ exists w',
       out_write_all (mkOut path None) items w = (inr (mkOut path None), w')
       /\ stderr w' = stderr w ++ map (fun data => data ++ newline) items
       /\ files w' = files w.
Proof.
  intros Hp.
  assert (Hw : forall data u,
             out_write (mkOut path None) data u
             = (inr (mkOut path None), print_stderr data u)).
  { intros data u. unfold out_write. cbn [out_path].
    destruct path as [n |]; [| reflexivity].
    simpl in Hp. rewrite Hp. reflexivity. }
  split.
  - unfold out_init. destruct path as [n |]; [| reflexivity].
    simpl in Hp. unfold readable. rewrite Hp. reflexivity.
  - revert w. induction items as [| data items IH]; intros w.
    + exists w. simpl. rewrite app_nil_r. auto.
    + cbn [out_write_all]. rewrite Hw.
      destruct (IH (print_stderr data w)) as (w' & E & S & F).
      exists w'. split; [exact E |]. split.
      * rewrite S. cbn [print_stderr stderr map]. rewrite <- app_assoc.
        reflexivity.
      * rewrite F. reflexivity.
Qed.

Lemma X21_no_path_prints_to_stderr_witness :
  item_truthy None = false
  /\ exists w',
       out_write_all (mkOut None None) [txt "fileB;"; txt "fileC;"] demo_world
       = (inr (mkOut None None), w')
       /\ stderr w'
          = stderr demo_world
            ++ map (fun data => data ++ newline) [txt "fileB;"; txt "fileC;"]
       /\ files w' = files demo_world.
Proof.
  split; [reflexivity |].
  exact (proj2 (X21_no_path_prints_to_stderr None [txt "fileB;"; txt "fileC;"]
                  demo_world eq_refl)).
Defined.

(** ** Reading back a list that was written *)

Lemma split_char_field (c : ascii) (p rest : text) :
  ~ In c p ->
  split_skip [c] 0 (p ++ c :: rest) = p :: split_skip [c] 0 rest.
Proof.
  induction p as [| a p IH]; intros Hp.
  - exact (split_hit [c] rest ltac:(discriminate)).
  - assert (Ha : Ascii.eqb c a = false).
    { destruct (Ascii.eqb c a) eqn:E; [| reflexivity].
      apply Ascii.eqb_eq in E. exfalso. apply Hp. left. symmetry. exact E. }
    change ((a :: p) ++ c :: rest) with (a :: (p ++ c :: rest)).
    rewrite split_miss by (cbn [starts_with]; rewrite Ha; reflexivity).
    rewrite IH by (intros H; apply Hp; right; exact H). reflexivity.
Qed.

Lemma split_char_records (c : ascii) (ps : list text) :
  Forall (fun p => ~ In c p) ps ->
  split_skip [c] 0 (List.concat (map (fun p => p ++ [c]) ps)) = ps ++ [[]].
Proof.
  induction ps as [| p ps IH]; intros H; [reflexivity |].
  inversion H as [| ? ? Hp Hps]; subst.
  cbn [map List.concat]. rewrite <- app_assoc. cbn [app].
  rewrite split_char_field by exact Hp. rewrite IH by exact Hps. reflexivity.
Qed.

(** X22: a list written as each path followed by a one-character delimiter
    is read back as it was written: when the text read is the paths, none
    of which holds the delimiter, each with the delimiter behind it, the
    generator yields just these strings, in order, for any chunking. *)
Theorem X22_written_list_reads_back (input_file : text_file) (size : Z)
        (c : ascii) (ps : list text) :
  Forall (fun p => ~ In c p) ps ->
  read_content (read input_file size)
  = List.concat (map (fun p => p ++ [c]) ps) ->
  _file_iter_lines_gen input_file [c] size
  = (map (fun p => p ++ [c]) ps, None).
Proof.
  intros Hps Hc. unfold _file_iter_lines_gen.
  rewrite (lines_loop_records [c] _ ltac:(discriminate) []) by reflexivity.
  cbn [app]. rewrite Hc, split_char_records by exact Hps.
  unfold records. rewrite removelast_last, last_last. cbn [last_line].
  rewrite app_nil_r. reflexivity.
Qed.

Lemma X22_written_list_reads_back_witness :
  (Forall (fun p => ~ In ";"%char p) [txt "fileB"; txt "fileC"]
   /\ read_content (read (regular_file (txt "fileB;fileC;")) 5)
      = List.concat (map (fun p => p ++ [";"%char])
                         [txt "fileB"; txt "fileC"]))
  /\ _file_iter_lines_gen (regular_file (txt "fileB;fileC;")) [";"%char] 5
     = ([txt "fileB;"; txt "fileC;"], None).
Proof.
  assert (H : Forall (fun p => ~ In ";"%char p) [txt "fileB"; txt "fileC"]).
  { repeat constructor; simpl; intros H;
      repeat (destruct H as [H | H]; [discriminate H |]); exact H. }
  split; [split; [exact H | reflexivity] |].
  exact (X22_written_list_reads_back (regular_file (txt "fileB;fileC;")) 5
           ";"%char [txt "fileB"; txt "fileC"] H eq_refl).
Defined.
